(** * The "simple" recommendation strategy of krr

    A shallow embedding of [robusta_krr/strategies/simple.py]: the settings
    object with its two validated fields, the two proposal functions and
    [SimpleStrategy.run].

    Python's [float] and numpy's [float64] are IEEE 754 binary64 numbers; they
    are modelled by Rocq's primitive [float], whose operations are the same
    binary64 operations (round to nearest, ties to even).  Python exceptions
    are modelled by a result type. *)

From Stdlib Require Import String List ZArith Bool Floats Lia Reals Lra.
From Stdlib Require Import Permutation Sorted.
From Stdlib Require Uint63.
Import ListNotations.

Set Warnings "-inexact-float".

(** ** Exceptions *)

Inductive exn : Type :=
| KeyError
| ValueError
| IndexError
| ValidationError.

Inductive result (A : Type) : Type :=
| Ok (a : A)
| Raise (e : exn).

Arguments Ok {A} a.
Arguments Raise {A} e.

Definition bind {A B : Type} (r : result A) (k : A -> result B) : result B :=
  match r with
  | Ok a => k a
  | Raise e => Raise e
  end.

Notation "x <- r ;; k" := (bind r (fun x => k))
  (at level 61, r at next level, right associativity).

(** A list comprehension whose body may raise: the elements are evaluated
    from left to right and the first exception ends the evaluation. *)
Fixpoint comprehension {A B : Type} (f : A -> result B) (l : list A)
  : result (list B) :=
  match l with
  | [] => Ok []
  | a :: l' =>
      b <- f a ;;
      bs <- comprehension f l' ;;
      Ok (b :: bs)
  end.

Definition raises {A : Type} (r : result A) : Prop :=
  exists e, r = Raise e.

(** ** Python dictionaries

    A [dict] keeps its items in insertion order and [values()] walks them in
    that order, so a dictionary is an association list. *)

Definition dict (K V : Type) : Type := list (K * V).

Definition dict_values {K V : Type} (d : dict K V) : list V := map snd d.

Definition len {A : Type} (l : list A) : Z := Z.of_nat (length l).

(** [d[k]]: the value stored under [k], [KeyError] when there is none. *)
Fixpoint getitem {K V : Type} (eqb : K -> K -> bool) (d : dict K V) (k : K)
  : result V :=
  match d with
  | [] => Raise KeyError
  | (k', v) :: d' => if eqb k' k then Ok v else getitem eqb d' k
  end.

(** ** Floating-point helpers *)

Definition float_of_Z (z : Z) : float :=
  match z with
  | Z0 => PrimFloat.zero
  | Zpos _ => PrimFloat.of_uint63 (Uint63.of_Z z)
  | Zneg p => PrimFloat.opp (PrimFloat.of_uint63 (Uint63.of_Z (Zpos p)))
  end.

(** [np.floor(x).astype(np.intp)] for a finite [x]. *)
Definition floor_index (x : float) : Z :=
  match Prim2SF x with
  | S754_finite s m e =>
      let q := match e with
               | Zneg _ => Z.shiftr (Zpos m) (Z.opp e)
               | _ => Z.shiftl (Zpos m) e
               end in
      if s
      then (match e with
            | Zneg _ =>
                if Z.eqb (Z.shiftl q (Z.opp e)) (Zpos m) then Z.opp q
                else Z.opp (q + 1)
            | _ => Z.opp q
            end)
      else q
  | _ => 0%Z
  end.

(** ** numpy arrays

    A sample series is a two-dimensional [float64] array of shape [(n, 2)]:
    one row per sample, the timestamp in column 0 and the value in column 1.
    The empty series is the array of shape [(0, 2)], whose column 1 is the
    empty one-dimensional array. *)

Definition ndarray : Type := list (float * float).

(** [values[:, 1]] *)
Definition column1 (values : ndarray) : list float := map snd values.

(** [np.maximum] on two scalars: the first argument when it is the greater or
    a NaN. *)
Definition np_maximum (a b : float) : float :=
  if (b <=? a)%float || PrimFloat.is_nan a then a else b.

(** [np.max] of a one-dimensional array: a reduction with [np.maximum];
    [ValueError] on an empty array, which has no identity. *)
Definition np_max (a : list float) : result float :=
  match a with
  | [] => Raise ValueError
  | x :: xs => Ok (fold_left np_maximum xs x)
  end.

(** [np.concatenate] of a list of one-dimensional arrays; [ValueError] when
    the list holds no array. *)
Definition np_concatenate (arrays : list (list float)) : result (list float) :=
  match arrays with
  | [] => Raise ValueError
  | _ => Ok (concat arrays)
  end.

(** The order numpy sorts floats in: ascending, NaN last. *)
Definition sort_le (a b : float) : bool :=
  if PrimFloat.is_nan b then true
  else if PrimFloat.is_nan a then false
  else (a <=? b)%float.

Fixpoint insert_sorted (x : float) (l : list float) : list float :=
  match l with
  | [] => [x]
  | y :: l' => if sort_le x y then x :: l else y :: insert_sorted x l'
  end.

Definition np_sort (a : list float) : list float :=
  fold_right insert_sorted [] a.

(** [arr[i]] for an index already known to be in range, counting from the end
    when negative. *)
Definition take (arr : list float) (i : Z) : float :=
  let j := if (i <? 0)%Z then (len arr + i)%Z else i in
  nth (Z.to_nat j) arr PrimFloat.nan.

(** numpy's [_lerp]: linear interpolation between [a] and [b], computed from
    the nearer end. *)
Definition lerp (a b t : float) : float :=
  let diff_b_a := (b - a)%float in
  if (0.5 <=? t)%float
  then (b - diff_b_a * (1 - t))%float
  else (a + diff_b_a * t)%float.

(** numpy's [_get_indexes] for one virtual index. *)
Definition get_indexes (virtual_index : float) (values_count : Z) : Z * Z :=
  if PrimFloat.is_nan virtual_index then ((-1)%Z, (-1)%Z)
  else if (virtual_index <? 0)%float then (0%Z, 0%Z)
  else if (float_of_Z (values_count - 1) <=? virtual_index)%float
       then ((-1)%Z, (-1)%Z)
  else let previous_index := floor_index virtual_index in
       (previous_index, (previous_index + 1)%Z).

(** numpy's [_quantile] with the default method, ["linear"], on a non-empty
    one-dimensional array and a single quantile in [[0, 1]]. *)
Definition quantile (arr : list float) (quantile : float) : float :=
  let values_count := len arr in
  let virtual_index := (float_of_Z (values_count - 1) * quantile)%float in
  let '(previous_index, next_index) := get_indexes virtual_index values_count in
  let sorted := np_sort arr in
  if PrimFloat.is_nan (take sorted (-1))
  then PrimFloat.nan
  else
    let previous := take sorted previous_index in
    let next := take sorted next_index in
    let gamma := (virtual_index - float_of_Z previous_index)%float in
    lerp previous next gamma.

(** [np.percentile(a, q)] for a one-dimensional array and a scalar [q], with
    the default linear interpolation between closest ranks.  [q] is divided
    by 100 first; a quantile outside [[0, 1]] is refused with [ValueError]
    ("Percentiles must be in the range [0, 100]"); an empty array has no
    element to take and ends in [IndexError]. *)
Definition np_percentile (a : list float) (q : float) : result float :=
  let q := (q / 100)%float in
  if negb ((0 <=? q)%float && (q <=? 1)%float) then Raise ValueError
  else match a with
       | [] => Raise IndexError
       | _ => Ok (quantile a q)
       end.

(** ** Data model *)

Inductive ResourceType : Type :=
| CPU
| Memory.

Definition ResourceType_eqb (a b : ResourceType) : bool :=
  match a, b with
  | CPU, CPU | Memory, Memory => true
  | _, _ => false
  end.

(** The series of every container of a workload, for one resource type. *)
Definition ContainerData : Type := dict string ndarray.

Definition HistoryData : Type := dict ResourceType ContainerData.

(** Modelled from the spec: [ResourceRecommendation] is declared in
    [robusta_krr.core.abstract.strategies], which is not part of the sources
    at hand; the spec gives it two optional numeric fields, [request] and
    [limit]. *)
Record ResourceRecommendation : Type := {
  request : option float;
  limit : option float
}.

Definition RunResult : Type := dict ResourceType ResourceRecommendation.

(** ** SimpleStrategySettings *)

Record SimpleStrategySettings : Type := {
  cpu_percentile : float;
  memory_buffer_percentage : float
}.

(** The constraints of the two fields: [gt=0, le=100] and [gt=0]. *)
Definition cpu_percentile_ok (v : float) : bool :=
  (0 <? v)%float && (v <=? 100)%float.

Definition memory_buffer_percentage_ok (v : float) : bool :=
  (0 <? v)%float.

(** Construction: a field that is not given takes its default, then every
    field is checked against its constraints. *)
Definition new_settings (cpu_percentile memory_buffer_percentage : option float)
  : result SimpleStrategySettings :=
  let p := match cpu_percentile with Some v => v | None => 99%float end in
  let b := match memory_buffer_percentage with Some v => v | None => 5%float end in
  if cpu_percentile_ok p && memory_buffer_percentage_ok b
  then Ok {| cpu_percentile := p; memory_buffer_percentage := b |}
  else Raise ValidationError.

Definition valid_settings (s : SimpleStrategySettings) : Prop :=
  cpu_percentile_ok (cpu_percentile s) = true /\
  memory_buffer_percentage_ok (memory_buffer_percentage s) = true.

(** Python's builtin [max] on a list: the first element that no later one
    exceeds; [ValueError] on an empty list. *)
Definition py_max (l : list float) : result float :=
  match l with
  | [] => Raise ValueError
  | x :: xs =>
      Ok (fold_left (fun acc item => if (acc <? item)%float then item else acc) xs x)
  end.

Definition calculate_memory_proposal (self : SimpleStrategySettings)
  (data : ContainerData) : result float :=
  data_ <- comprehension (fun values => np_max (column1 values)) (dict_values data) ;;
  if (len data_ =? 0)%Z then Ok PrimFloat.nan
  else
    peak <- py_max data_ ;;
    Ok (peak * (1 + memory_buffer_percentage self / 100))%float.

Definition calculate_cpu_proposal (self : SimpleStrategySettings)
  (data : ContainerData) : result float :=
  if (len data =? 0)%Z then Ok PrimFloat.nan
  else
    data_ <- (if (1 <? len data)%Z
              then np_concatenate (map column1 (dict_values data))
              else match dict_values data with
                   | values :: _ => Ok (column1 values)
                   | [] => Raise IndexError
                   end) ;;
    np_percentile data_ (cpu_percentile self).

(** ** SimpleStrategy *)

Section Strategy.

(** The description of the workload, which [run] receives and does not
    look at. *)
Variable K8sObjectData : Type.

Definition run (settings : SimpleStrategySettings)
  (history_data : HistoryData) (object_data : K8sObjectData)
  : result RunResult :=
  cpu_usage <-
    (data <- getitem ResourceType_eqb history_data CPU ;;
     calculate_cpu_proposal settings data) ;;
  memory_usage <-
    (data <- getitem ResourceType_eqb history_data Memory ;;
     calculate_memory_proposal settings data) ;;
  Ok [ (CPU, {| request := Some cpu_usage; limit := None |});
       (Memory, {| request := Some memory_usage; limit := Some memory_usage |}) ].

End Strategy.

Arguments run {K8sObjectData} settings history_data object_data.

(** ** The unbranched variant of the CPU proposal

    [calculate_cpu_proposal] without its single-container branch: the value
    columns of all containers are always concatenated. *)
Definition always_concatenate (self : SimpleStrategySettings)
  (data : ContainerData) : result float :=
  data_ <- np_concatenate (map column1 (dict_values data)) ;;
  np_percentile data_ (cpu_percentile self).

(** What is left of a container mapping once the timestamp column of every
    series is dropped. *)
Definition value_columns (data : ContainerData) : list (string * list float) :=
  map (fun item => (fst item, column1 (snd item))) data.

(** The average and the greater of two floats, as Python computes them. *)
Definition average2 (a b : float) : float := ((a + b) / 2)%float.

Definition py_max2 (a b : float) : float := if (a <? b)%float then b else a.

(** Both proposals read a container mapping through its value columns only. *)

Definition cpu_of_columns (self : SimpleStrategySettings)
  (columns : list (list float)) : result float :=
  if (len columns =? 0)%Z then Ok PrimFloat.nan
  else
    data_ <- (if (1 <? len columns)%Z
              then np_concatenate columns
              else match columns with
                   | values :: _ => Ok values
                   | [] => Raise IndexError
                   end) ;;
    np_percentile data_ (cpu_percentile self).

Definition memory_of_columns (self : SimpleStrategySettings)
  (columns : list (list float)) : result float :=
  data_ <- comprehension np_max columns ;;
  if (len data_ =? 0)%Z then Ok PrimFloat.nan
  else
    peak <- py_max data_ ;;
    Ok (peak * (1 + memory_buffer_percentage self / 100))%float.

(** ** Order-theoretic maxima

    A float that is not a NaN, and the maximum of a list of floats: an
    element of the list that every element is below or equal to. *)
Definition not_nan (x : float) : Prop := PrimFloat.is_nan x = false.

Definition maximum_of (l : list float) (m : float) : Prop :=
  In m l /\ Forall (fun x => (x <=? m)%float = true) l.

(** A float that is zero or above, and the factor the buffer stands for in
    [calculate_memory_proposal]. *)
Definition nonneg (x : float) : Prop := (0 <=? x)%float = true.

Definition multiplier (b : float) : float := (1 + b / 100)%float.

(** One sample of one series replaced: the mapping with the value [v] at
    some row of some container. *)
Definition with_sample (pre : ContainerData) (id : string)
  (rows_before : ndarray) (t v : float) (rows_after : ndarray)
  (post : ContainerData) : ContainerData :=
  pre ++ (id, rows_before ++ (t, v) :: rows_after) :: post.

(** ** The real numbers behind binary64

    What the operations of [SpecFloat] compute is stated over the reals:
    [bpow e] is 2^e, [fval m e] the value of the positive finite float with
    mantissa [m] and exponent [e]. *)
Definition bpow (e : Z) : R := powerRZ 2 e.

Definition fval (m : positive) (e : Z) : R := (IZR (Zpos m) * bpow e)%R.

(** Where a real [t] lies in the unit interval that starts at the integer
    [m]: on [m], below, on or above the midpoint. *)
Definition pos_of (t : R) (m : Z) (l : location) : Prop :=
  match l with
  | loc_Exact => t = IZR m
  | loc_Inexact Lt => (IZR m < t < IZR m + / 2)%R
  | loc_Inexact Eq => t = (IZR m + / 2)%R
  | loc_Inexact Gt => (IZR m + / 2 < t < IZR m + 1)%R
  end.

Definition pos_rec (t : R) (mrs : shr_record) : Prop :=
  pos_of t (shr_m mrs) (loc_of_shr_record mrs).

Definition located (v : R) (mrs : shr_record) (e : Z) : Prop :=
  pos_rec (v * bpow (- e))%R mrs.

(** The exponent binary64 rounds a positive real [v] at: -1074 below
    2^-1021, and the one that leaves 53 digits above. *)
Definition cexp_of (v : R) (c : Z) : Prop :=
  ((v < bpow (-1021))%R /\ c = (-1074)%Z) \/
  ((bpow (c + 52) <= v < bpow (c + 53))%R /\ (-1074 <= c)%Z).

(** The float that stands for the integer [m] at exponent [c]: zero, the
    canonical float of that value, or infinity on overflow. *)
Definition result_of (m c : Z) (r : spec_float) : Prop :=
  (m = 0%Z /\ r = S754_zero false) \/
  exists mf ef,
    (IZR (Zpos mf) * bpow ef = IZR m * bpow c)%R /\
    canonical_mantissa prec emax mf ef = true /\
    ((ef <= 971)%Z /\ r = S754_finite false mf ef \/
     (971 < ef)%Z /\ r = S754_infinity false).

(** [r] is the positive real [v] rounded to nearest, ties to even. *)
Definition rounds_to (v : R) (r : spec_float) : Prop :=
  exists c m l,
    cexp_of v c /\ pos_of (v * bpow (- c))%R m l /\ (0 <= m)%Z /\
    result_of (round_nearest_even m l) c r.

(** ** Pooled samples and classes of values

    [pooled data] lists the values of all series of a container mapping, in
    the order of the mapping; it is what [np.concatenate] hands to
    [np.percentile].  A list [has_nan] when one of its values is a NaN.  A
    [plain] float is +0, positive or +infinity: the only floats that compare
    equal without being the same float are +0 and -0, so that the order is
    antisymmetric on plain floats.  A [finite] float is neither an infinity
    nor a NaN.  A list is [sorted] when it is in the order [np.sort] leaves
    it in, NaNs last. *)
Definition pooled (data : ContainerData) : list float :=
  concat (map column1 (dict_values data)).

Definition has_nan (l : list float) : Prop :=
  Exists (fun x => PrimFloat.is_nan x = true) l.

Definition plain (x : float) : Prop := nonneg x /\ x <> PrimFloat.neg_zero.

Definition finite (x : float) : Prop :=
  (PrimFloat.abs x <? PrimFloat.infinity)%float = true.

Definition sorted (l : list float) : Prop :=
  StronglySorted (fun a b => sort_le a b = true) l.

(** The same on [spec_float]: a zero or a finite float; and +0 or a positive
    finite float of value at most [B]. *)
Definition SFfinite (x : spec_float) : Prop :=
  match x with
  | S754_zero _ | S754_finite _ _ _ => True
  | _ => False
  end.

Definition small_nonneg (B : R) (x : spec_float) : Prop :=
  x = S754_zero false \/
  exists m e, x = S754_finite false m e /\
              SpecFloat.bounded prec emax m e = true /\ (fval m e <= B)%R.

(** A container whose series has at least one row. *)
Definition has_samples (item : string * ndarray) : bool :=
  match snd item with
  | [] => false
  | _ :: _ => true
  end.

(** ** The linear-interpolated percentile

    The percentile the spec names, linear interpolation between closest
    ranks, stated without the functions of the numpy model above.  The
    values are put in ascending order, [s]; the rank of the [p]-th
    percentile among [n] values is [h = (n - 1) * (p / 100)]; with [k] the
    integer part of [h], the result lies on the line from the value of rank
    [k] to the value of rank [k + 1], at [h - k]; from the top rank [n - 1]
    on, both ends are the last value of [s].  The point on the line is
    computed from the nearer end, as numpy does. *)
Definition ascending (s : list float) : Prop :=
  StronglySorted (fun x y => (x <=? y)%float = true) s.

(** [k] is the integer part of a float [h] that is zero or a positive finite
    number: [k <= h < k + 1] over the reals. *)
Definition integer_part (h : float) (k : Z) : Prop :=
  match Prim2SF h with
  | S754_zero _ => k = 0%Z
  | S754_finite false m e => (IZR k <= fval m e < IZR k + 1)%R
  | _ => False
  end.

Definition linear_percentile (a : list float) (p : float) (r : float) : Prop :=
  let top := float_of_Z (len a - 1) in
  let h := (top * (p / 100))%float in
  exists (s : list float) (lo hi g : float),
    Permutation s a /\ ascending s /\
    ((top <=? h)%float = true /\
     lo = last s PrimFloat.nan /\ hi = last s PrimFloat.nan /\
     g = (h - (-1))%float
     \/
     (top <=? h)%float = false /\
     exists k : Z,
       integer_part h k /\ (0 <= k)%Z /\
       ((len a <= 2 ^ 53)%Z -> (k + 1 < len a)%Z) /\
       lo = nth (Z.to_nat k) s PrimFloat.nan /\
       hi = nth (Z.to_nat (k + 1)) s PrimFloat.nan /\
       g = (h - float_of_Z k)%float) /\
    r = (if (0.5 <=? g)%float
         then hi - (hi - lo) * (1 - g)
         else lo + (hi - lo) * g)%float.

(** * Basic facts *)

Lemma len_nil_iff {A : Type} (l : list A) : (len l =? 0)%Z = true <-> l = [].
Proof.
  unfold len. destruct l as [|a l]; simpl; split; intro H;
    try reflexivity; try discriminate.
Qed.

Lemma len_cons {A : Type} (a : A) (l : list A) : len (a :: l) = (len l + 1)%Z.
Proof. unfold len. simpl length. lia. Qed.

Lemma len_nonneg {A : Type} (l : list A) : (0 <= len l)%Z.
Proof. unfold len. lia. Qed.

Lemma comprehension_length {A B : Type} (f : A -> result B) (l : list A) bs :
  comprehension f l = Ok bs -> length bs = length l.
Proof.
  revert bs. induction l as [|a l IH]; simpl; intros bs H.
  - injection H as <-. reflexivity.
  - destruct (f a) as [b|e]; simpl in H; [|discriminate].
    destruct (comprehension f l) as [bs'|e]; simpl in H; [|discriminate].
    injection H as <-. simpl. f_equal. apply IH. reflexivity.
Qed.

Lemma comprehension_ok {A B : Type} (f : A -> result B) (l : list A) :
  Forall (fun a => exists b, f a = Ok b) l ->
  exists bs, comprehension f l = Ok bs.
Proof.
  induction 1 as [|a l [b Hb] _ [bs Hbs]]; simpl.
  - eexists. reflexivity.
  - rewrite Hb, Hbs. simpl. eexists. reflexivity.
Qed.

Lemma comprehension_raises {A B : Type} (f : A -> result B) (l : list A) :
  Exists (fun a => raises (f a)) l -> raises (comprehension f l).
Proof.
  induction 1 as [a l [e He]|a l _ [e He]]; simpl.
  - rewrite He. exists e. reflexivity.
  - destruct (f a) as [b|e']; simpl.
    + rewrite He. exists e. reflexivity.
    + exists e'. reflexivity.
Qed.

Lemma comprehension_map {A B C : Type} (g : A -> B) (f : B -> result C) l :
  comprehension f (map g l) = comprehension (fun a => f (g a)) l.
Proof.
  induction l as [|a l IH]; simpl; [reflexivity|]. rewrite IH. reflexivity.
Qed.

Lemma calculate_cpu_proposal_columns self data :
  calculate_cpu_proposal self data =
  cpu_of_columns self (map column1 (dict_values data)).
Proof.
  unfold calculate_cpu_proposal, cpu_of_columns, len, dict_values.
  rewrite !length_map.
  destruct data as [|[id values] data]; reflexivity.
Qed.

Lemma calculate_memory_proposal_columns self data :
  calculate_memory_proposal self data =
  memory_of_columns self (map column1 (dict_values data)).
Proof.
  unfold calculate_memory_proposal, memory_of_columns.
  rewrite comprehension_map. reflexivity.
Qed.

Lemma value_columns_columns data :
  map snd (value_columns data) = map column1 (dict_values data).
Proof.
  unfold value_columns, dict_values. rewrite !map_map. reflexivity.
Qed.

Lemma ltb_leb (x y : float) : (x <? y)%float = true -> (x <=? y)%float = true.
Proof.
  rewrite ltb_spec, leb_spec. unfold SFltb, SFleb.
  destruct (SFcompare (Prim2SF x) (Prim2SF y)) as [[| |]|];
    intro H; try discriminate; reflexivity.
Qed.

Lemma cpu_of_columns_cons self c columns :
  cpu_of_columns self (c :: columns) =
  np_percentile (concat (c :: columns)) (cpu_percentile self).
Proof.
  unfold cpu_of_columns. rewrite len_cons.
  destruct (len columns + 1 =? 0)%Z eqn:E.
  - pose proof (len_nonneg columns). lia.
  - destruct columns as [|c' columns].
    + simpl. rewrite app_nil_r. reflexivity.
    + rewrite len_cons.
      replace (1 <? len columns + 1 + 1)%Z with true
        by (pose proof (len_nonneg columns); symmetry; apply Z.ltb_lt; lia).
      reflexivity.
Qed.

Lemma concat_nonempty {A : Type} (c : list A) (columns : list (list A)) :
  c <> [] -> concat (c :: columns) <> [].
Proof. destruct c; [contradiction|discriminate]. Qed.

Lemma Forall_columns (P : list float -> Prop) (data : ContainerData) :
  Forall (fun item => P (column1 (snd item))) data <->
  Forall P (map column1 (dict_values data)).
Proof.
  unfold dict_values. rewrite map_map, Forall_map. reflexivity.
Qed.

Lemma Exists_columns (P : list float -> Prop) (data : ContainerData) :
  Exists (fun item => P (column1 (snd item))) data <->
  Exists P (map column1 (dict_values data)).
Proof.
  unfold dict_values. rewrite map_map, Exists_map. reflexivity.
Qed.

Lemma column1_nil (values : ndarray) : column1 values = [] <-> values = [].
Proof. destruct values; simpl; split; intro; try reflexivity; discriminate. Qed.

(** The pooled samples of a container mapping. *)
Lemma calculate_cpu_proposal_pooled (self : SimpleStrategySettings)
  (data : ContainerData) :
  data <> [] ->
  calculate_cpu_proposal self data =
  np_percentile (pooled data) (cpu_percentile self).
Proof.
  intro Hne. rewrite calculate_cpu_proposal_columns. unfold pooled.
  destruct data as [|[id values] data]; [contradiction|].
  simpl map. apply cpu_of_columns_cons.
Qed.

Lemma pooled_nil (data : ContainerData) :
  pooled data = [] <-> Forall (fun item => snd item = []) data.
Proof.
  unfold pooled, dict_values. induction data as [|[id values] data IH]; simpl.
  - split; constructor.
  - split.
    + intro H. apply app_eq_nil in H as [H1 H2].
      constructor; [apply column1_nil, H1|apply IH, H2].
    + intro H. inversion H as [|? ? Hv Hd]; subst. simpl in Hv. subst.
      simpl. apply IH, Hd.
Qed.

Lemma pooled_has_samples (data : ContainerData) :
  pooled (filter has_samples data) = pooled data.
Proof.
  unfold pooled, dict_values.
  induction data as [|[id values] data IH]; [reflexivity|].
  destruct values as [|row values]; simpl; [exact IH|].
  rewrite IH. reflexivity.
Qed.

Lemma filter_has_samples (data : ContainerData) :
  Forall (fun item => snd item <> []) (filter has_samples data).
Proof.
  apply Forall_forall. intros [id values] H. apply filter_In in H as [_ H].
  destruct values; [discriminate H|discriminate].
Qed.

Lemma filter_has_samples_not_nil (data : ContainerData) :
  Exists (fun item => snd item <> []) data -> filter has_samples data <> [].
Proof.
  intros H E. apply Exists_exists in H as ([id values] & Hin & Hv).
  assert (Hf : In (id, values) (filter has_samples data)).
  { apply filter_In. split; [exact Hin|].
    destruct values; [contradiction|reflexivity]. }
  rewrite E in Hf. contradiction.
Qed.

(** * The order of binary64 numbers *)

Ltac cmp_cases :=
  repeat match goal with
    | |- context [Z.compare ?a ?b] => destruct (Z.compare_spec a b)
    | |- context [Pos.compare_cont Eq ?a ?b] =>
        change (Pos.compare_cont Eq a b) with (Pos.compare a b);
        destruct (Pos.compare_spec a b)
    end.

Ltac cmp_finish :=
  simpl; try (intros; reflexivity); try (intros; discriminate);
  try (intros; contradiction); try (intros; exfalso; subst; lia).

Lemma SFeqb_refl (x : spec_float) : SFeqb x x = true <-> x <> S754_nan.
Proof.
  unfold SFeqb.
  destruct x as [[]|[]| |[] m e]; simpl; cmp_cases; simpl;
    split; intro Hx; try reflexivity; try discriminate;
    try contradiction; try (exfalso; lia).
Qed.

Lemma SFleb_refl (x : spec_float) : x <> S754_nan -> SFleb x x = true.
Proof.
  unfold SFleb. destruct x as [[]|[]| |[] m e]; simpl; cmp_cases; cmp_finish.
Qed.

Lemma SFleb_trans (x y z : spec_float) :
  SFleb x y = true -> SFleb y z = true -> SFleb x z = true.
Proof.
  unfold SFleb.
  destruct x as [[]|[]| |[] m1 e1], y as [[]|[]| |[] m2 e2],
    z as [[]|[]| |[] m3 e3]; simpl; cmp_finish; cmp_cases; cmp_finish.
Qed.

Lemma SFltb_false_leb (x y : spec_float) :
  x <> S754_nan -> y <> S754_nan -> SFltb x y = false -> SFleb y x = true.
Proof.
  unfold SFleb, SFltb.
  destruct x as [[]|[]| |[] m1 e1], y as [[]|[]| |[] m2 e2];
    simpl; cmp_finish; cmp_cases; cmp_finish.
Qed.

Lemma SFleb_false_leb (x y : spec_float) :
  x <> S754_nan -> y <> S754_nan -> SFleb x y = false -> SFleb y x = true.
Proof.
  unfold SFleb.
  destruct x as [[]|[]| |[] m1 e1], y as [[]|[]| |[] m2 e2];
    simpl; cmp_finish; cmp_cases; cmp_finish.
Qed.

Lemma SFleb_not_nan (x y : spec_float) :
  SFleb x y = true -> x <> S754_nan /\ y <> S754_nan.
Proof.
  unfold SFleb.
  destruct x as [[]|[]| |[] m1 e1], y as [[]|[]| |[] m2 e2];
    simpl; intro H; try discriminate H; split; discriminate.
Qed.

Lemma is_nan_false (x : float) :
  PrimFloat.is_nan x = false <-> Prim2SF x <> S754_nan.
Proof.
  unfold PrimFloat.is_nan. rewrite eqb_spec, negb_false_iff.
  apply SFeqb_refl.
Qed.

Lemma leb_refl (x : float) : not_nan x -> (x <=? x)%float = true.
Proof. unfold not_nan. rewrite is_nan_false, leb_spec. apply SFleb_refl. Qed.

Lemma leb_trans (x y z : float) :
  (x <=? y)%float = true -> (y <=? z)%float = true -> (x <=? z)%float = true.
Proof. rewrite !leb_spec. apply SFleb_trans. Qed.

Lemma ltb_false_leb (x y : float) :
  not_nan x -> not_nan y -> (x <? y)%float = false -> (y <=? x)%float = true.
Proof.
  unfold not_nan. rewrite !is_nan_false, ltb_spec, leb_spec.
  apply SFltb_false_leb.
Qed.

Lemma leb_false_leb (x y : float) :
  not_nan x -> not_nan y -> (x <=? y)%float = false -> (y <=? x)%float = true.
Proof.
  unfold not_nan. rewrite !is_nan_false, !leb_spec. apply SFleb_false_leb.
Qed.

Lemma leb_not_nan (x y : float) :
  (x <=? y)%float = true -> not_nan x /\ not_nan y.
Proof.
  unfold not_nan. rewrite !is_nan_false, leb_spec. apply SFleb_not_nan.
Qed.

(** ** Maxima *)

Section FoldMaximum.

Variable step : float -> float -> float.

Hypothesis step_choice : forall a b, step a b = a \/ step a b = b.
Hypothesis step_left :
  forall a b, not_nan a -> not_nan b -> (a <=? step a b)%float = true.
Hypothesis step_right :
  forall a b, not_nan a -> not_nan b -> (b <=? step a b)%float = true.

Lemma fold_left_maximum (xs : list float) (x : float) :
  Forall not_nan (x :: xs) ->
  maximum_of (x :: xs) (fold_left step xs x).
Proof.
  revert x. induction xs as [|y xs IH]; intros x H.
  - inversion H as [|? ? Hx _]; subst. split; [left; reflexivity|].
    constructor; [apply leb_refl; assumption|constructor].
  - inversion H as [|? ? Hx H']; subst. inversion H' as [|? ? Hy Hxs]; subst.
    simpl fold_left.
    assert (Hs : not_nan (step x y))
      by (destruct (step_choice x y) as [-> | ->]; assumption).
    destruct (IH (step x y)) as [Hin Hall]; [constructor; assumption|].
    split.
    + destruct Hin as [Hin|Hin]; [|right; right; exact Hin].
      rewrite <- Hin.
      destruct (step_choice x y) as [-> | ->];
        [left|right; left]; reflexivity.
    + inversion Hall as [|? ? Hstep Hrest]; subst.
      constructor; [|constructor]; try assumption.
      * apply (leb_trans _ (step x y)); [apply step_left; assumption|exact Hstep].
      * apply (leb_trans _ (step x y)); [apply step_right; assumption|exact Hstep].
Qed.

End FoldMaximum.

Lemma np_max_maximum (a : list float) (m : float) :
  Forall not_nan a -> np_max a = Ok m -> maximum_of a m.
Proof.
  destruct a as [|x xs]; [discriminate|]. intros H [= <-].
  apply fold_left_maximum; try assumption; unfold np_maximum; intros a b.
  - destruct ((b <=? a)%float || PrimFloat.is_nan a); [left|right]; reflexivity.
  - intros Ha Hb. rewrite Ha, orb_false_r.
    destruct (b <=? a)%float eqn:E; [apply leb_refl; assumption|].
    apply leb_false_leb; assumption.
  - intros Ha Hb. rewrite Ha, orb_false_r.
    destruct (b <=? a)%float eqn:E; [assumption|apply leb_refl; assumption].
Qed.

Lemma py_max_maximum (l : list float) (m : float) :
  Forall not_nan l -> py_max l = Ok m -> maximum_of l m.
Proof.
  destruct l as [|x xs]; [discriminate|]. intros H [= <-].
  apply fold_left_maximum; try assumption; intros a b.
  - destruct (a <? b)%float; [right|left]; reflexivity.
  - intros Ha Hb.
    destruct (a <? b)%float eqn:E; [apply ltb_leb; assumption|].
    apply leb_refl; assumption.
  - intros Ha Hb.
    destruct (a <? b)%float eqn:E; [apply leb_refl; assumption|].
    apply ltb_false_leb; assumption.
Qed.

Lemma maximum_of_not_nan (l : list float) (m : float) :
  maximum_of l m -> not_nan m.
Proof.
  intros [Hin Hall]. rewrite Forall_forall in Hall.
  apply (leb_not_nan m m). apply Hall. exact Hin.
Qed.

Lemma comprehension_np_max_maxima (columns : list (list float))
  (peaks : list float) :
  Forall (Forall not_nan) columns ->
  comprehension np_max columns = Ok peaks ->
  Forall2 maximum_of columns peaks /\ Forall not_nan peaks.
Proof.
  revert peaks. induction columns as [|c columns IH]; simpl; intros peaks H E.
  - injection E as <-. split; constructor.
  - inversion H as [|? ? Hc Hcs]; subst.
    destruct (np_max c) as [p|e] eqn:Ep; simpl in E; [|discriminate].
    destruct (comprehension np_max columns) as [ps|e]; simpl in E;
      [|discriminate].
    injection E as <-. destruct (IH ps Hcs eq_refl) as [IH1 IH2].
    pose proof (np_max_maximum c p Hc Ep) as Hmax.
    split; constructor; try assumption.
    eapply maximum_of_not_nan, Hmax.
Qed.

(** * Rounding to nearest in binary64

    Every operation of [SpecFloat] on two positive finite floats goes through
    [binary_round_aux].  It is shown to round the exact real result to
    nearest ([rounds_to]), and rounding is monotone; so multiplying, adding a
    positive constant and dividing by a positive constant keep the order of
    non-negative floats. *)

Section Rounding.

Local Open Scope R_scope.

(** ** Powers of two *)

Lemma bpow_pos e : 0 < bpow e.
Proof. apply powerRZ_lt. lra. Qed.

Lemma bpow_add a b : bpow (a + b) = bpow a * bpow b.
Proof. apply powerRZ_add. lra. Qed.

Lemma bpow_0 : bpow 0 = 1.
Proof. reflexivity. Qed.

Lemma bpow_1 : bpow 1 = 2.
Proof. unfold bpow. simpl. lra. Qed.

Lemma bpow_succ e : bpow (e + 1) = 2 * bpow e.
Proof. rewrite bpow_add, bpow_1. lra. Qed.

Lemma bpow_opp e : bpow (- e) * bpow e = 1.
Proof. rewrite <- bpow_add. replace (- e + e)%Z with 0%Z by lia. reflexivity. Qed.

Lemma bpow_le a b : (a <= b)%Z -> bpow a <= bpow b.
Proof.
  intro H. replace b with (a + (b - a))%Z by lia.
  rewrite bpow_add.
  assert (1 <= bpow (b - a)).
  { assert (Hz : (0 <= b - a)%Z) by lia. revert Hz.
    generalize (b - a)%Z. intros z Hz.
    apply (natlike_ind (fun z => 1 <= bpow z)); try assumption.
    - rewrite bpow_0. lra.
    - intros x Hx IH. unfold Z.succ. rewrite bpow_succ. lra. }
  pose proof (bpow_pos a). nra.
Qed.

Lemma bpow_lt a b : (a < b)%Z -> bpow a < bpow b.
Proof.
  intro H. assert (bpow (a + 1) <= bpow b) by (apply bpow_le; lia).
  rewrite bpow_succ in H0. pose proof (bpow_pos a). lra.
Qed.

Lemma bpow_IZR (n : Z) : (0 <= n)%Z -> bpow n = IZR (2 ^ n).
Proof.
  intro H. pattern n. apply natlike_ind; try assumption.
  - reflexivity.
  - intros x Hx IH. unfold Z.succ. rewrite bpow_succ, IH, Z.pow_add_r by lia.
    rewrite mult_IZR. change (2 ^ 1)%Z with 2%Z. lra.
Qed.

Lemma bpow_lt_inv a b : bpow a < bpow b -> (a < b)%Z.
Proof.
  intro H. destruct (Z.lt_ge_cases a b) as [|Hge]; [assumption|].
  apply bpow_le in Hge. lra.
Qed.

(** ** The number of binary digits of a mantissa *)

Lemma digits2_pos_bounds (m : positive) :
  (2 ^ (Zpos (digits2_pos m) - 1) <= Zpos m < 2 ^ Zpos (digits2_pos m))%Z.
Proof.
  induction m as [m IH|m IH|]; simpl digits2_pos.
  - rewrite Pos2Z.inj_succ. replace (Z.succ (Zpos (digits2_pos m)) - 1)%Z
      with (Zpos (digits2_pos m) - 1 + 1)%Z by lia.
    unfold Z.succ. rewrite !Z.pow_add_r by lia. change (2 ^ 1)%Z with 2%Z. lia.
  - rewrite Pos2Z.inj_succ. replace (Z.succ (Zpos (digits2_pos m)) - 1)%Z
      with (Zpos (digits2_pos m) - 1 + 1)%Z by lia.
    unfold Z.succ. rewrite !Z.pow_add_r by lia. change (2 ^ 1)%Z with 2%Z. lia.
  - simpl. lia.
Qed.

Lemma digits2_pos_bpow (m : positive) :
  bpow (Zpos (digits2_pos m) - 1) <= IZR (Zpos m) /\
  IZR (Zpos m) + 1 <= bpow (Zpos (digits2_pos m)).
Proof.
  destruct (digits2_pos_bounds m) as [H1 H2].
  rewrite !bpow_IZR by lia. split.
  - apply IZR_le. exact H1.
  - rewrite <- plus_IZR. apply IZR_le. lia.
Qed.

(** ** Shifting a mantissa to the right

    [shr_1] halves the scaled value and keeps track of where it lies. *)

Lemma IZR_xO p : IZR (Zpos p~0) = 2 * IZR (Zpos p).
Proof. rewrite Pos2Z.inj_xO, mult_IZR. reflexivity. Qed.

Lemma IZR_xI p : IZR (Zpos p~1) = 2 * IZR (Zpos p) + 1.
Proof. rewrite Pos2Z.inj_xI, plus_IZR, mult_IZR. reflexivity. Qed.

Lemma shr_1_spec (t : R) (mrs : shr_record) :
  (0 <= shr_m mrs)%Z -> pos_rec t mrs ->
  pos_rec (t / 2) (shr_1 mrs) /\ (0 <= shr_m (shr_1 mrs))%Z.
Proof.
  destruct mrs as [m r s]. unfold pos_rec.
  intros Hm H. split.
  - destruct m as [|[p|p|]|p]; [| | | |exfalso; simpl in Hm; lia];
      destruct r, s; cbn [shr_1 shr_m loc_of_shr_record pos_of orb] in *;
      rewrite ?(IZR_xO p), ?(IZR_xI p) in *; lra.
  - destruct m as [|[p|p|]|p]; [| | | |exfalso; simpl in Hm; lia];
      destruct r, s; cbn [shr_1 shr_m orb]; lia.
Qed.

Lemma pos_of_bounds t m l : pos_of t m l -> IZR m <= t < IZR m + 1.
Proof. destruct l as [|[]]; simpl; lra. Qed.

Lemma bpow_opp_succ e : bpow (- (e + 1)) = bpow (- e) / 2.
Proof.
  pose proof (bpow_opp (e + 1)) as H1. pose proof (bpow_opp e) as H2.
  rewrite bpow_succ in H1. pose proof (bpow_pos e).
  apply (Rmult_eq_reg_r (bpow e)); [|lra].
  replace (bpow (- e) / 2 * bpow e) with (bpow (- e) * bpow e / 2) by lra.
  rewrite H2. lra.
Qed.

Lemma iter_shr_1_spec (n : positive) : forall (t : R) (mrs : shr_record),
  (0 <= shr_m mrs)%Z -> pos_rec t mrs ->
  pos_rec (t * bpow (- Zpos n)) (SpecFloat.iter_pos shr_1 n mrs) /\
  (0 <= shr_m (SpecFloat.iter_pos shr_1 n mrs))%Z.
Proof.
  induction n as [n IH|n IH|]; intros t mrs Hm H; cbn [SpecFloat.iter_pos].
  - destruct (shr_1_spec t mrs Hm H) as [H1 Hm1].
    destruct (IH _ _ Hm1 H1) as [H2 Hm2].
    destruct (IH _ _ Hm2 H2) as [H3 Hm3]. split; [|exact Hm3].
    replace (t * bpow (- Zpos n~1)) with (t / 2 * bpow (- Zpos n) * bpow (- Zpos n));
      [exact H3|].
    rewrite Pos2Z.inj_xI.
    replace (- (2 * Zpos n + 1))%Z with (- (Zpos n + Zpos n + 1))%Z by lia.
    rewrite bpow_opp_succ.
    replace (- (Zpos n + Zpos n))%Z with (- Zpos n + - Zpos n)%Z by lia.
    rewrite bpow_add. lra.
  - destruct (IH _ _ Hm H) as [H2 Hm2].
    destruct (IH _ _ Hm2 H2) as [H3 Hm3]. split; [|exact Hm3].
    replace (t * bpow (- Zpos n~0)) with (t * bpow (- Zpos n) * bpow (- Zpos n));
      [exact H3|].
    rewrite Pos2Z.inj_xO.
    replace (- (2 * Zpos n))%Z with (- Zpos n + - Zpos n)%Z by lia.
    rewrite bpow_add. lra.
  - destruct (shr_1_spec t mrs Hm H) as [H1 Hm1]. split; [|exact Hm1].
    replace (t * bpow (Z.opp 1)) with (t / 2); [exact H1|].
    change (Z.opp 1) with (- (0 + 1))%Z. rewrite bpow_opp_succ.
    change (- 0)%Z with 0%Z. rewrite bpow_0. lra.
Qed.

Lemma shr_spec (v : R) (mrs : shr_record) (e n : Z) :
  (0 <= shr_m mrs)%Z -> located v mrs e ->
  located v (fst (shr mrs e n)) (snd (shr mrs e n)) /\
  (0 <= shr_m (fst (shr mrs e n)))%Z /\
  snd (shr mrs e n) = (e + Z.max n 0)%Z.
Proof.
  intros Hm H. unfold shr. destruct n as [|p|p]; cbn [fst snd].
  - repeat split; try assumption. lia.
  - unfold located in *.
    destruct (iter_shr_1_spec p _ _ Hm H) as [H1 H2].
    split; [|split; [exact H2|lia]].
    replace (- (e + Zpos p))%Z with (- e + - Zpos p)%Z by lia.
    rewrite bpow_add, <- Rmult_assoc. exact H1.
  - repeat split; try assumption. lia.
Qed.

(** ** Rounding a located value *)

Lemma fexp64 (e : Z) : fexp prec emax e = Z.max (e - 53) (-1074).
Proof. reflexivity. Qed.

Lemma canonical64 (m : positive) (e : Z) :
  canonical_mantissa prec emax m e = true <->
  Z.max (Zpos (digits2_pos m) + e - 53) (-1074) = e.
Proof. unfold canonical_mantissa. rewrite fexp64, Z.eqb_eq. reflexivity. Qed.

Lemma digits2_pos_le (m : positive) (k : Z) :
  (0 <= k)%Z -> (Zpos m < 2 ^ k)%Z -> (Zpos (digits2_pos m) <= k)%Z.
Proof.
  intros Hk H. destruct (digits2_pos_bounds m) as [H1 _].
  destruct (Z.le_gt_cases (Zpos (digits2_pos m)) k) as [|Hgt]; [assumption|].
  assert (2 ^ k <= 2 ^ (Zpos (digits2_pos m) - 1))%Z
    by (apply Z.pow_le_mono_r; lia).
  lia.
Qed.

Lemma digits2_pos_gt (m : positive) (k : Z) :
  (0 <= k)%Z -> (2 ^ k <= Zpos m)%Z -> (k < Zpos (digits2_pos m))%Z.
Proof.
  intros Hk H. destruct (digits2_pos_bounds m) as [_ H2].
  destruct (Z.lt_ge_cases k (Zpos (digits2_pos m))) as [|Hge]; [assumption|].
  assert (2 ^ Zpos (digits2_pos m) <= 2 ^ k)%Z
    by (apply Z.pow_le_mono_r; lia).
  lia.
Qed.

Lemma rne_bounds (m : Z) (l : location) :
  (m <= round_nearest_even m l <= m + 1)%Z.
Proof. destruct l as [|[]]; simpl; try destruct (Z.even m); lia. Qed.

Lemma rne_mono (t1 t2 : R) (m1 m2 : Z) (l1 l2 : location) :
  pos_of t1 m1 l1 -> pos_of t2 m2 l2 -> t1 <= t2 ->
  (round_nearest_even m1 l1 <= round_nearest_even m2 l2)%Z.
Proof.
  intros H1 H2 Ht.
  pose proof (pos_of_bounds _ _ _ H1) as B1.
  pose proof (pos_of_bounds _ _ _ H2) as B2.
  pose proof (rne_bounds m1 l1). pose proof (rne_bounds m2 l2).
  destruct (Z.lt_trichotomy m1 m2) as [Hlt|[Heq|Hgt]].
  - lia.
  - subst m2. destruct l1 as [|[]], l2 as [|[]]; simpl in *;
      try destruct (Z.even m1); try lia; exfalso; lra.
  - exfalso. assert (IZR m2 + 1 <= IZR m1)
      by (rewrite <- plus_IZR; apply IZR_le; lia).
    lra.
Qed.

Lemma scaled_le (v1 v2 : R) (c : Z) :
  v1 <= v2 -> v1 * bpow c <= v2 * bpow c.
Proof. intro H. pose proof (bpow_pos c). nra. Qed.

Lemma scaled_lt (v1 v2 : R) (c : Z) :
  v1 < v2 -> v1 * bpow c < v2 * bpow c.
Proof. intro H. pose proof (bpow_pos c). nra. Qed.

Lemma unscale (v : R) (c : Z) : v * bpow (- c) * bpow c = v.
Proof. rewrite Rmult_assoc, bpow_opp. lra. Qed.

Lemma cexp_of_lower (v : R) (c : Z) : cexp_of v c -> (-1074 <= c)%Z.
Proof. intros [[_ ->]|[_ H]]; lia. Qed.

Lemma cexp_of_upper (v : R) (c : Z) : cexp_of v c -> v < bpow (c + 53).
Proof. intros [[H ->]|[H _]]; [exact H|lra]. Qed.

Lemma cexp_of_normal (v : R) (c : Z) :
  cexp_of v c -> (-1074 < c)%Z -> bpow (c + 52) <= v.
Proof. intros [[_ ->]|[H _]] Hc; [lia|lra]. Qed.

Lemma IZR_bpow_le (m k : Z) :
  (0 <= k)%Z -> IZR m < bpow k -> (m + 1 <= 2 ^ k)%Z.
Proof.
  intros Hk H. rewrite bpow_IZR in H by assumption. apply lt_IZR in H. lia.
Qed.

Lemma scaled_mantissa_upper (v : R) (c m : Z) (l : location) :
  cexp_of v c -> pos_of (v * bpow (- c)) m l -> (m + 1 <= 2 ^ 53)%Z.
Proof.
  intros Hc Hp. apply IZR_bpow_le; [lia|].
  apply pos_of_bounds in Hp. apply cexp_of_upper in Hc.
  apply (scaled_lt _ _ (- c)) in Hc. rewrite <- bpow_add in Hc.
  replace (c + 53 + - c)%Z with 53%Z in Hc by lia. lra.
Qed.

Lemma scaled_mantissa_lower (v : R) (c m : Z) (l : location) :
  cexp_of v c -> (-1074 < c)%Z -> pos_of (v * bpow (- c)) m l ->
  (2 ^ 52 <= m)%Z.
Proof.
  intros Hc Hn Hp. apply pos_of_bounds in Hp.
  pose proof (cexp_of_normal _ _ Hc Hn) as H.
  apply (scaled_le _ _ (- c)) in H. rewrite <- bpow_add in H.
  replace (c + 52 + - c)%Z with 52%Z in H by lia.
  rewrite bpow_IZR in H by lia.
  assert (IZR (2 ^ 52) < IZR (m + 1)) by (rewrite plus_IZR; lra).
  apply lt_IZR in H0. lia.
Qed.

Lemma rounded_value_mono (v1 v2 : R) (c1 c2 m1 m2 : Z) (l1 l2 : location) :
  cexp_of v1 c1 -> pos_of (v1 * bpow (- c1)) m1 l1 ->
  cexp_of v2 c2 -> pos_of (v2 * bpow (- c2)) m2 l2 ->
  v1 <= v2 ->
  IZR (round_nearest_even m1 l1) * bpow c1 <=
  IZR (round_nearest_even m2 l2) * bpow c2.
Proof.
  intros Hc1 Hp1 Hc2 Hp2 Hv.
  destruct (Z.lt_trichotomy c1 c2) as [Hlt|[Heq|Hgt]].
  - pose proof (scaled_mantissa_upper _ _ _ _ Hc1 Hp1) as U.
    assert (Hn : (-1074 < c2)%Z) by (apply cexp_of_lower in Hc1; lia).
    pose proof (scaled_mantissa_lower _ _ _ _ Hc2 Hn Hp2) as L.
    pose proof (rne_bounds m1 l1). pose proof (rne_bounds m2 l2).
    apply Rle_trans with (bpow (c1 + 53)).
    + rewrite (Z.add_comm c1), bpow_add. apply scaled_le.
      rewrite bpow_IZR by lia. apply IZR_le. lia.
    + apply Rle_trans with (bpow (c2 + 52)); [apply bpow_le; lia|].
      rewrite (Z.add_comm c2), bpow_add. apply scaled_le.
      rewrite bpow_IZR by lia. apply IZR_le. lia.
  - subst c2. apply scaled_le, IZR_le.
    apply (rne_mono (v1 * bpow (- c1)) (v2 * bpow (- c1))); try assumption.
    apply scaled_le. exact Hv.
  - exfalso.
    assert (Hn : (-1074 < c1)%Z) by (apply cexp_of_lower in Hc2; lia).
    pose proof (cexp_of_normal _ _ Hc1 Hn).
    pose proof (cexp_of_upper _ _ Hc2).
    assert (bpow (c2 + 53) <= bpow (c1 + 52)) by (apply bpow_le; lia).
    lra.
Qed.

(** ** Canonical floats and their order *)

Lemma canonical_digits (m : positive) (e : Z) :
  canonical_mantissa prec emax m e = true ->
  (-1074 <= e)%Z /\ (Zpos m < 2 ^ 53)%Z /\ ((-1074 < e)%Z -> (2 ^ 52 <= Zpos m)%Z).
Proof.
  rewrite canonical64. intro H.
  destruct (digits2_pos_bounds m) as [H1 H2].
  assert (Hd : (Zpos (digits2_pos m) <= 53)%Z) by lia.
  split; [lia|]. split.
  - assert (2 ^ Zpos (digits2_pos m) <= 2 ^ 53)%Z
      by (apply Z.pow_le_mono_r; lia). lia.
  - intro Hn. replace (Zpos (digits2_pos m)) with 53%Z in H1 by lia.
    exact H1.
Qed.

Lemma canonical_value_bounds (m : positive) (e : Z) :
  canonical_mantissa prec emax m e = true ->
  IZR (Zpos m) * bpow e < bpow (e + 53) /\
  ((-1074 < e)%Z -> bpow (e + 52) <= IZR (Zpos m) * bpow e).
Proof.
  intro H. destruct (canonical_digits m e H) as (_ & H1 & H2). split.
  - rewrite (Z.add_comm e), bpow_add. apply scaled_lt.
    rewrite bpow_IZR by lia. apply IZR_lt. exact H1.
  - intro Hn. rewrite (Z.add_comm e), bpow_add. apply scaled_le.
    rewrite bpow_IZR by lia. apply IZR_le. exact (H2 Hn).
Qed.

Lemma canonical_compare (m1 m2 : positive) (e1 e2 : Z) :
  canonical_mantissa prec emax m1 e1 = true ->
  canonical_mantissa prec emax m2 e2 = true ->
  IZR (Zpos m1) * bpow e1 <= IZR (Zpos m2) * bpow e2 ->
  (e1 < e2)%Z \/ (e1 = e2 /\ (m1 <= m2)%positive).
Proof.
  intros C1 C2 H.
  destruct (Z.lt_trichotomy e1 e2) as [Hlt|[Heq|Hgt]]; [left; exact Hlt| |].
  - right. split; [exact Heq|]. subst e2.
    pose proof (bpow_pos e1).
    assert (IZR (Zpos m1) <= IZR (Zpos m2)) by nra.
    apply le_IZR in H1. exact H1.
  - exfalso.
    destruct (canonical_digits m2 e2 C2) as (L2 & _).
    destruct (canonical_value_bounds m1 e1 C1) as [_ B1].
    destruct (canonical_value_bounds m2 e2 C2) as [B2 _].
    assert (bpow (e2 + 53) <= bpow (e1 + 52)) by (apply bpow_le; lia).
    assert (bpow (e1 + 52) <= IZR (Zpos m1) * bpow e1) by (apply B1; lia).
    lra.
Qed.

Lemma canonical_value_le (m1 m2 : positive) (e1 e2 : Z) :
  canonical_mantissa prec emax m1 e1 = true ->
  canonical_mantissa prec emax m2 e2 = true ->
  SFleb (S754_finite false m1 e1) (S754_finite false m2 e2) = true ->
  IZR (Zpos m1) * bpow e1 <= IZR (Zpos m2) * bpow e2.
Proof.
  intros C1 C2. unfold SFleb. simpl.
  destruct (Z.compare_spec e1 e2) as [Heq|Hlt|Hgt].
  - subst e2. change (Pos.compare_cont Eq m1 m2) with (Pos.compare m1 m2).
    destruct (Pos.compare_spec m1 m2) as [Hm|Hm|Hm]; intro H;
      try discriminate; apply scaled_le, IZR_le; lia.
  - intros _.
    destruct (canonical_value_bounds m1 e1 C1) as [B1 _].
    destruct (canonical_value_bounds m2 e2 C2) as [_ B2].
    destruct (canonical_digits m1 e1 C1) as (L1 & _).
    assert (bpow (e1 + 53) <= bpow (e2 + 52)) by (apply bpow_le; lia).
    assert (bpow (e2 + 52) <= IZR (Zpos m2) * bpow e2) by (apply B2; lia).
    lra.
  - discriminate.
Qed.

Lemma rounds_to_nonneg (v : R) (r : spec_float) :
  rounds_to v r ->
  r = S754_zero false \/ r = S754_infinity false \/
  exists m e, r = S754_finite false m e /\ SpecFloat.bounded prec emax m e = true /\
              0 < IZR (Zpos m) * bpow e.
Proof.
  intros (c & m & l & _ & _ & _ & [[_ ->]|(mf & ef & _ & C & [[H ->]|[_ ->]])]).
  - left. reflexivity.
  - right. right. exists mf, ef. split; [reflexivity|]. split.
    + unfold SpecFloat.bounded. rewrite C. apply Z.leb_le. exact H.
    + pose proof (bpow_pos ef).
      assert (0 < IZR (Zpos mf)) by (apply IZR_lt; lia). nra.
  - right. left. reflexivity.
Qed.

Lemma rounds_to_mono (v1 v2 : R) (r1 r2 : spec_float) :
  rounds_to v1 r1 -> rounds_to v2 r2 -> v1 <= v2 -> SFleb r1 r2 = true.
Proof.
  intros (c1 & m1 & l1 & Hc1 & Hp1 & _ & R1) (c2 & m2 & l2 & Hc2 & Hp2 & Hm2 & R2) Hv.
  pose proof (rounded_value_mono _ _ _ _ _ _ _ _ Hc1 Hp1 Hc2 Hp2 Hv) as Hval.
  destruct R1 as [[_ ->]|(mf1 & ef1 & V1 & C1 & R1)].
  - destruct R2 as [[_ ->]|(mf2 & ef2 & _ & _ & [[_ ->]|[_ ->]])]; reflexivity.
  - rewrite <- V1 in Hval.
    assert (P1 : 0 < IZR (Zpos mf1) * bpow ef1).
    { pose proof (bpow_pos ef1).
      assert (0 < IZR (Zpos mf1)) by (apply IZR_lt; lia). nra. }
    destruct R2 as [[E0 ->]|(mf2 & ef2 & V2 & C2 & R2)].
    + exfalso. rewrite E0 in Hval. lra.
    + rewrite <- V2 in Hval.
      destruct (canonical_compare _ _ _ _ C1 C2 Hval) as [Hlt|[Heq Hle]];
        destruct R1 as [[B1 ->]|[B1 ->]], R2 as [[B2 ->]|[B2 ->]];
        try reflexivity; try lia; unfold SFleb; simpl.
      * rewrite (proj2 (Z.compare_lt_iff ef1 ef2) Hlt). reflexivity.
      * subst ef2. rewrite Z.compare_refl.
        change (Pos.compare_cont Eq mf1 mf2) with (Pos.compare mf1 mf2).
        destruct (Pos.compare_spec mf1 mf2); try reflexivity. lia.
Qed.

Lemma rounds_to_self (m : positive) (e : Z) :
  SpecFloat.bounded prec emax m e = true ->
  rounds_to (IZR (Zpos m) * bpow e) (S754_finite false m e).
Proof.
  unfold SpecFloat.bounded. intro H. apply andb_prop in H as [C B].
  apply Z.leb_le in B. change (emax - prec)%Z with 971%Z in B.
  exists e, (Zpos m), loc_Exact.
  destruct (canonical_digits m e C) as (L & _).
  destruct (canonical_value_bounds m e C) as [U N].
  split; [|split; [|split]].
  - destruct (Z.eq_dec e (-1074)) as [->|Hne].
    + left. split; [exact U|reflexivity].
    + right. split; [|exact L]. split; [apply N; lia|exact U].
  - simpl. rewrite Rmult_assoc, (Rmult_comm (bpow e)), bpow_opp. lra.
  - lia.
  - right. exists m, e. simpl. split; [reflexivity|]. split; [exact C|].
    left. split; [exact B|reflexivity].
Qed.

(** ** [binary_round_aux] rounds to nearest *)

Lemma record_of_loc (m : Z) (l : location) :
  shr_m (shr_record_of_loc m l) = m /\
  loc_of_shr_record (shr_record_of_loc m l) = l.
Proof. destruct l as [|[]]; split; reflexivity. Qed.

Lemma located_of_loc (v : R) (m e : Z) (l : location) :
  pos_of (v * bpow (- e)) m l -> located v (shr_record_of_loc m l) e.
Proof.
  unfold located, pos_rec. destruct (record_of_loc m l) as [-> ->]. auto.
Qed.

Lemma shr_fexp_spec (v : R) (m e : Z) (l : location) :
  (0 <= m)%Z -> pos_of (v * bpow (- e)) m l ->
  (e <= fexp prec emax (Zdigits2 m + e))%Z ->
  let mrs := fst (shr_fexp prec emax m e l) in
  let c := snd (shr_fexp prec emax m e l) in
  c = fexp prec emax (Zdigits2 m + e) /\
  (0 <= shr_m mrs)%Z /\
  pos_of (v * bpow (- c)) (shr_m mrs) (loc_of_shr_record mrs).
Proof.
  intros Hm Hp He. unfold shr_fexp.
  destruct (shr_spec v (shr_record_of_loc m l) e
              (fexp prec emax (Zdigits2 m + e) - e)) as (H1 & H2 & H3).
  - destruct (record_of_loc m l) as [-> _]. exact Hm.
  - apply located_of_loc. exact Hp.
  - cbv zeta. split; [rewrite H3; lia|]. split; [exact H2|exact H1].
Qed.

Lemma cexp_of_position (v : R) (m e : Z) (l : location) :
  0 < v -> (0 <= m)%Z -> pos_of (v * bpow (- e)) m l ->
  (e <= fexp prec emax (Zdigits2 m + e))%Z ->
  cexp_of v (fexp prec emax (Zdigits2 m + e)).
Proof.
  intros Hv Hm Hp He. apply pos_of_bounds in Hp.
  rewrite fexp64 in *.
  assert (Hval : v = v * bpow (- e) * bpow e) by (symmetry; apply unscale).
  destruct m as [|p|p]; [| |lia].
  - simpl Zdigits2 in *. rewrite Z.add_0_l in *.
    assert (e <= -1074)%Z by lia.
    left. split; [|lia].
    assert (v < bpow e).
    { rewrite Hval. pose proof (bpow_pos e). simpl in Hp. nra. }
    assert (bpow e <= bpow (-1021)) by (apply bpow_le; lia). lra.
  - simpl Zdigits2 in *. destruct (digits2_pos_bpow p) as [D1 D2].
    set (d := Zpos (digits2_pos p)) in *.
    assert (L : bpow (d - 1 + e) <= v).
    { rewrite bpow_add, Hval. apply scaled_le. lra. }
    assert (U : v < bpow (d + e)).
    { rewrite bpow_add, Hval. apply scaled_lt. lra. }
    destruct (Z.le_gt_cases (d + e - 53) (-1074)) as [Hs|Hn].
    + left. split; [|lia].
      assert (bpow (d + e) <= bpow (-1021)) by (apply bpow_le; lia). lra.
    + right. replace (Z.max (d + e - 53) (-1074)) with (d + e - 53)%Z by lia.
      replace (d + e - 53 + 52)%Z with (d - 1 + e)%Z by lia.
      replace (d + e - 53 + 53)%Z with (d + e)%Z by lia.
      split; [split; assumption|lia].
Qed.

Lemma finalize_spec (m c : Z) :
  (-1074 <= c)%Z -> (0 <= m <= 2 ^ 53)%Z ->
  ((-1074 < c)%Z -> (2 ^ 52 <= m)%Z) ->
  result_of m c
    (let '(mrs, e) := shr_fexp prec emax m c loc_Exact in
     match shr_m mrs with
     | Z0 => S754_zero false
     | Zpos p =>
         if (e <=? emax - prec)%Z then S754_finite false p e
         else S754_infinity false
     | Zneg _ => S754_nan
     end).
Proof.
  intros Hc Hm Hn. unfold shr_fexp. rewrite fexp64.
  destruct m as [|p|p]; [| |lia].
  - left. split; [reflexivity|].
    simpl Zdigits2. rewrite Z.add_0_l.
    assert (c = (-1074)%Z) by (destruct (Z.eq_dec c (-1074)); [assumption|lia]).
    subst c. reflexivity.
  - right. simpl Zdigits2. destruct (digits2_pos_bounds p) as [D1 D2].
    destruct (Z.eq_dec (Zpos p) (2 ^ 53)) as [E|NE].
    + injection E as ->. simpl digits2_pos.
      replace (Z.max (54 + c - 53) (-1074) - c)%Z with 1%Z by lia.
      cbn [shr shr_record_of_loc SpecFloat.iter_pos shr_1 shr_m orb].
      exists 4503599627370496%positive, (c + 1)%Z.
      split; [|split].
      * rewrite bpow_succ. lra.
      * apply canonical64. simpl digits2_pos. lia.
      * destruct (Z.leb_spec (c + 1) (emax - prec)) as [H|H];
          change (emax - prec)%Z with 971%Z in H; [left|right]; split;
          try reflexivity; lia.
    + assert (Hlt : (Zpos p < 2 ^ 53)%Z) by lia.
      pose proof (digits2_pos_le p 53 ltac:(lia) Hlt) as Hd.
      assert (Hd' : (-1074 < c)%Z -> (53 <= Zpos (digits2_pos p))%Z).
      { intro H. specialize (Hn H).
        pose proof (digits2_pos_gt p 52 ltac:(lia) Hn). lia. }
      assert (En : (Z.max (Zpos (digits2_pos p) + c - 53) (-1074) - c <= 0)%Z)
        by lia.
      assert (Es : shr (shr_record_of_loc (Zpos p) loc_Exact) c
                     (Z.max (Zpos (digits2_pos p) + c - 53) (-1074) - c) =
                   (shr_record_of_loc (Zpos p) loc_Exact, c)).
      { unfold shr.
        destruct (Z.max (Zpos (digits2_pos p) + c - 53) (-1074) - c)%Z;
          try reflexivity; lia. }
      rewrite Es. cbn [shr_record_of_loc shr_m].
      exists p, c. split; [reflexivity|]. split.
      * apply canonical64. lia.
      * destruct (Z.leb_spec c (emax - prec)) as [H|H];
          change (emax - prec)%Z with 971%Z in H; [left|right]; split;
          try reflexivity; lia.
Qed.

Lemma binary_round_aux_rounds (v : R) (m e : Z) (l : location) :
  0 < v -> (0 <= m)%Z -> pos_of (v * bpow (- e)) m l ->
  (e <= fexp prec emax (Zdigits2 m + e))%Z ->
  rounds_to v (binary_round_aux prec emax false m e l).
Proof.
  intros Hv Hm Hp He.
  pose proof (cexp_of_position v m e l Hv Hm Hp He) as Hc.
  destruct (shr_fexp_spec v m e l Hm Hp He) as (E & Hm' & Hp').
  unfold binary_round_aux.
  destruct (shr_fexp prec emax m e l) as [mrs c] eqn:Es.
  cbn [fst snd] in E, Hm', Hp'. rewrite <- E in Hc.
  exists c, (shr_m mrs), (loc_of_shr_record mrs).
  split; [exact Hc|]. split; [exact Hp'|]. split; [exact Hm'|].
  pose proof (rne_bounds (shr_m mrs) (loc_of_shr_record mrs)) as B.
  pose proof (scaled_mantissa_upper _ _ _ _ Hc Hp') as U.
  apply finalize_spec.
  - apply cexp_of_lower in Hc. exact Hc.
  - lia.
  - intro Hn. pose proof (scaled_mantissa_lower _ _ _ _ Hc Hn Hp'). lia.
Qed.

(** ** The operations on positive finite floats *)

Lemma fval_pos (m : positive) (e : Z) : 0 < fval m e.
Proof.
  unfold fval. pose proof (bpow_pos e).
  assert (0 < IZR (Zpos m)) by (apply IZR_lt; lia). nra.
Qed.

Lemma bounded_canonical (m : positive) (e : Z) :
  SpecFloat.bounded prec emax m e = true ->
  canonical_mantissa prec emax m e = true /\ (e <= 971)%Z.
Proof.
  unfold SpecFloat.bounded. intro H. apply andb_prop in H as [C B].
  apply Z.leb_le in B. split; assumption.
Qed.

Lemma digits2_pos_mul (mx my : positive) :
  (Zpos (digits2_pos mx) + Zpos (digits2_pos my) - 1 <=
   Zpos (digits2_pos (mx * my)))%Z.
Proof.
  destruct (digits2_pos_bounds mx) as [X1 _].
  destruct (digits2_pos_bounds my) as [Y1 _].
  assert (H : (2 ^ (Zpos (digits2_pos mx) - 1 + (Zpos (digits2_pos my) - 1))
               <= Zpos (mx * my))%Z).
  { rewrite Z.pow_add_r by lia. rewrite Pos2Z.inj_mul.
    apply Z.mul_le_mono_nonneg; lia. }
  apply digits2_pos_gt in H; lia.
Qed.

Lemma SFmul_rounds (mx my : positive) (ex ey : Z) :
  SpecFloat.bounded prec emax mx ex = true ->
  SpecFloat.bounded prec emax my ey = true ->
  rounds_to (fval mx ex * fval my ey)
    (SFmul prec emax (S754_finite false mx ex) (S754_finite false my ey)).
Proof.
  intros Bx By. cbn [SFmul xorb].
  destruct (bounded_canonical _ _ Bx) as [Cx _].
  destruct (bounded_canonical _ _ By) as [Cy _].
  apply binary_round_aux_rounds.
  - pose proof (fval_pos mx ex). pose proof (fval_pos my ey). nra.
  - lia.
  - simpl. unfold fval. rewrite Pos2Z.inj_mul, mult_IZR.
    replace (- (ex + ey))%Z with (- ex + - ey)%Z by lia. rewrite bpow_add.
    pose proof (bpow_opp ex). pose proof (bpow_opp ey).
    transitivity (IZR (Zpos mx) * IZR (Zpos my) *
                  (bpow (- ex) * bpow ex) * (bpow (- ey) * bpow ey)); [lra|].
    rewrite H, H0. lra.
  - rewrite fexp64. simpl Zdigits2.
    apply canonical64 in Cx, Cy. pose proof (digits2_pos_mul mx my).
    lia.
Qed.

Lemma iter_xO_spec (m d : positive) :
  Zpos (Pos.iter xO m d) = (Zpos m * 2 ^ Zpos d)%Z /\
  Zpos (digits2_pos (Pos.iter xO m d)) = (Zpos (digits2_pos m) + Zpos d)%Z.
Proof.
  induction d as [|d IH] using Pos.peano_ind.
  - simpl. split; lia.
  - rewrite Pos.iter_succ. destruct IH as [IH1 IH2]. split.
    + rewrite Pos2Z.inj_xO, IH1, Pos2Z.inj_succ, Z.pow_succ_r by lia. lia.
    + simpl digits2_pos. rewrite !Pos2Z.inj_succ, IH2. lia.
Qed.

Lemma shl_align_spec (mx : positive) (ex e' : Z) :
  fval (fst (shl_align mx ex e')) (snd (shl_align mx ex e')) = fval mx ex /\
  snd (shl_align mx ex e') = Z.min ex e' /\
  (Zpos (digits2_pos (fst (shl_align mx ex e'))) + snd (shl_align mx ex e') =
   Zpos (digits2_pos mx) + ex)%Z.
Proof.
  unfold shl_align. destruct (e' - ex)%Z as [|d|d] eqn:E; cbn [fst snd].
  - repeat split; lia.
  - repeat split; lia.
  - destruct (iter_xO_spec mx d) as [H1 H2].
    assert (Hex : ex = (e' + Zpos d)%Z) by lia.
    split; [|split; lia].
    unfold fval. rewrite H1, mult_IZR, <- bpow_IZR by lia.
    rewrite Hex, bpow_add. lra.
Qed.

Lemma binary_round_rounds (m : positive) (e : Z) :
  rounds_to (fval m e) (binary_round prec emax false m e).
Proof.
  unfold binary_round.
  destruct (shl_align_spec m e (fexp prec emax (Zpos (digits2_pos m) + e)))
    as (V & S & D).
  destruct (shl_align m e (fexp prec emax (Zpos (digits2_pos m) + e)))
    as [mz ez]. cbn [fst snd] in V, S, D.
  rewrite <- V. apply binary_round_aux_rounds.
  - apply fval_pos.
  - lia.
  - simpl. unfold fval. rewrite Rmult_assoc, (Rmult_comm (bpow ez)), bpow_opp.
    lra.
  - simpl Zdigits2. rewrite D. lia.
Qed.

Lemma SFadd_rounds (mx my : positive) (ex ey : Z) :
  rounds_to (fval mx ex + fval my ey)
    (SFadd prec emax (S754_finite false mx ex) (S754_finite false my ey)).
Proof.
  cbn [SFadd cond_Zopp].
  destruct (shl_align_spec mx ex (Z.min ex ey)) as (Vx & Sx & _).
  destruct (shl_align_spec my ey (Z.min ex ey)) as (Vy & Sy & _).
  set (ax := fst (shl_align mx ex (Z.min ex ey))) in *.
  set (ay := fst (shl_align my ey (Z.min ex ey))) in *.
  replace (snd (shl_align mx ex (Z.min ex ey))) with (Z.min ex ey) in Vx by lia.
  replace (snd (shl_align my ey (Z.min ex ey))) with (Z.min ex ey) in Vy by lia.
  change (Zpos ax + Zpos ay)%Z with (Zpos (ax + ay)).
  cbn [binary_normalize].
  replace (fval mx ex + fval my ey) with (fval (ax + ay) (Z.min ex ey)).
  - apply binary_round_rounds.
  - rewrite <- Vx, <- Vy. unfold fval. rewrite Pos2Z.inj_add, plus_IZR. lra.
Qed.

Lemma ratio_spec (a M : R) : 0 < M -> a / M * M = a.
Proof. intro H. field. lra. Qed.

Lemma new_location_spec (q r d : Z) (t : R) :
  (0 < d)%Z -> (0 <= r < d)%Z ->
  t = IZR q + IZR r / IZR d ->
  pos_of t q (new_location d r).
Proof.
  intros Hd Hr ->.
  assert (HM : 0 < IZR d) by (apply IZR_lt; lia).
  pose proof (ratio_spec (IZR r) (IZR d) HM) as E.
  set (rho := IZR r / IZR d) in *.
  assert (R0 : 0 <= IZR r) by (apply IZR_le; lia).
  unfold new_location.
  destruct (Z.even d) eqn:Ev.
  - unfold new_location_even. destruct (Z.eqb_spec r 0) as [->|Hne].
    + simpl. change (IZR 0) with 0 in E. nra.
    + assert (0 < IZR r) by (apply IZR_lt; lia).
      destruct (Z.compare_spec (2 * r) d) as [H0|H0|H0]; simpl.
      * apply (f_equal IZR) in H0. rewrite mult_IZR in H0. nra.
      * apply IZR_lt in H0. rewrite mult_IZR in H0. split; nra.
      * apply IZR_lt in H0. rewrite mult_IZR in H0.
        assert (IZR r < IZR d) by (apply IZR_lt; lia). split; nra.
  - unfold new_location_odd. destruct (Z.eqb_spec r 0) as [->|Hne].
    + simpl. change (IZR 0) with 0 in E. nra.
    + assert (0 < IZR r) by (apply IZR_lt; lia).
      assert (Hodd : (2 * r <> d)%Z).
      { intro H0. rewrite <- H0, Z.even_mul in Ev. discriminate. }
      assert (IZR r < IZR d) by (apply IZR_lt; lia).
      destruct (Z.compare_spec (2 * r + 1) d) as [H1|H1|H1]; simpl.
      * assert (H2 : (2 * r < d)%Z) by lia.
        apply IZR_lt in H2. rewrite mult_IZR in H2. split; nra.
      * assert (H2 : (2 * r < d)%Z) by lia.
        apply IZR_lt in H2. rewrite mult_IZR in H2. split; nra.
      * assert (H2 : (d < 2 * r)%Z) by lia.
        apply IZR_lt in H2. rewrite mult_IZR in H2. split; nra.
Qed.

Lemma SFdiv_core_spec (mx my : positive) (ex ey : Z) :
  let '(q, e', l) := SFdiv_core_binary prec emax (Zpos mx) ex (Zpos my) ey in
  (0 <= q)%Z /\
  pos_of (fval mx ex / fval my ey * bpow (- e')) q l /\
  (e' <= fexp prec emax (Zdigits2 q + e'))%Z.
Proof.
  unfold SFdiv_core_binary. cbn [Zdigits2]. rewrite fexp64.
  set (d1 := Zpos (digits2_pos mx)). set (d2 := Zpos (digits2_pos my)).
  set (e' := Z.min (Z.max (d1 + ex - (d2 + ey) - 53) (-1074)) (ex - ey)).
  set (s := (ex - ey - e')%Z).
  assert (Hs : (0 <= s)%Z) by (unfold s, e'; lia).
  set (m' := match s with
             | 0%Z => Zpos mx
             | Zpos _ => Z.shiftl (Zpos mx) s
             | Zneg _ => 0%Z
             end).
  assert (Em : m' = (Zpos mx * 2 ^ s)%Z).
  { unfold m'. destruct s as [|p|p] eqn:E; [simpl; lia| |lia].
    rewrite Z.shiftl_mul_pow2 by lia. reflexivity. }
  pose proof (Z_div_mod m' (Zpos my) ltac:(lia)) as Hdiv.
  destruct (Z.div_eucl m' (Zpos my)) as [q r]. destruct Hdiv as [Eq Hr].
  assert (P2 : (0 < 2 ^ s)%Z) by (apply Z.pow_pos_nonneg; lia).
  assert (Hq : (0 <= q)%Z) by nia.
  split; [exact Hq|]. split.
  - apply new_location_spec; [lia|exact Hr|].
    assert (HM : 0 < IZR (Zpos my)) by (apply IZR_lt; lia).
    assert (E1 : IZR m' = IZR (Zpos my) * IZR q + IZR r)
      by (rewrite Eq, plus_IZR, mult_IZR; reflexivity).
    assert (E2 : IZR m' = IZR (Zpos mx) * bpow s)
      by (rewrite Em, mult_IZR, bpow_IZR by lia; reflexivity).
    assert (E3 : bpow ex = bpow s * bpow ey * bpow e').
    { rewrite <- !bpow_add. f_equal. unfold s. lia. }
    pose proof (bpow_pos ey). pose proof (bpow_pos e').
    pose proof (bpow_opp e') as E4.
    unfold fval. rewrite E3.
    transitivity (IZR (Zpos mx) * bpow s / IZR (Zpos my) *
                  (bpow e' * bpow (- e'))).
    + field. split; lra.
    + rewrite (Rmult_comm (bpow e')), E4, <- E2, E1. field. lra.
  - rewrite fexp64.
    destruct (Z.le_gt_cases (d1 + s) d2) as [Hsmall|Hbig].
    + unfold s in Hsmall. unfold e' in *. lia.
    + destruct (digits2_pos_bounds mx) as [X1 _].
      destruct (digits2_pos_bounds my) as [_ Y2].
      fold d1 in X1. fold d2 in Y2.
      assert (Hj : (2 ^ (d1 + s - 1 - d2) <= q)%Z).
      { assert (P : (2 ^ (d1 + s - 1 - d2) * 2 ^ d2 <= m')%Z).
        { rewrite <- Z.pow_add_r by (unfold d2; lia).
          replace (d1 + s - 1 - d2 + d2)%Z with (d1 - 1 + s)%Z by lia.
          rewrite Z.pow_add_r by (unfold d1; lia). rewrite Em.
          apply Z.mul_le_mono_nonneg_r; lia. }
        assert (P3 : (0 < 2 ^ (d1 + s - 1 - d2))%Z)
          by (apply Z.pow_pos_nonneg; lia).
        destruct (Z.le_gt_cases (2 ^ (d1 + s - 1 - d2)) q) as [|Hlt];
          [assumption|exfalso].
        assert (Zpos my * (q + 1) <= Zpos my * 2 ^ (d1 + s - 1 - d2))%Z
          by (apply Z.mul_le_mono_nonneg_l; lia).
        assert (Zpos my * 2 ^ (d1 + s - 1 - d2) <=
                2 ^ d2 * 2 ^ (d1 + s - 1 - d2))%Z
          by (apply Z.mul_le_mono_nonneg_r; lia).
        lia. }
      assert (P3 : (0 < 2 ^ (d1 + s - 1 - d2))%Z)
        by (apply Z.pow_pos_nonneg; lia).
      destruct q as [|pq|pq]; [lia| |lia]. cbn [Zdigits2].
      apply digits2_pos_gt in Hj; [|lia].
      unfold s in Hj. unfold e' in *. lia.
Qed.

Lemma SFdiv_rounds (mx my : positive) (ex ey : Z) :
  rounds_to (fval mx ex / fval my ey)
    (SFdiv prec emax (S754_finite false mx ex) (S754_finite false my ey)).
Proof.
  cbn [SFdiv xorb]. pose proof (SFdiv_core_spec mx my ex ey) as H.
  destruct (SFdiv_core_binary prec emax (Zpos mx) ex (Zpos my) ey)
    as [[q e'] l].
  destruct H as (Hq & Hp & He).
  apply binary_round_aux_rounds; try assumption.
  pose proof (fval_pos mx ex). pose proof (fval_pos my ey).
  apply Rdiv_lt_0_compat; assumption.
Qed.

(** ** Floats that are zero or above *)

Lemma SFleb_zero_cases (x : spec_float) :
  SFleb (S754_zero false) x = true ->
  (exists s, x = S754_zero s) \/ x = S754_infinity false \/
  exists m e, x = S754_finite false m e.
Proof.
  destruct x as [s|[]| |[] m e]; intro H; try discriminate H.
  - left. exists s. reflexivity.
  - right. left. reflexivity.
  - right. right. exists m, e. reflexivity.
Qed.

Lemma SFltb_zero_cases (x : spec_float) :
  SFltb (S754_zero false) x = true ->
  x = S754_infinity false \/ exists m e, x = S754_finite false m e.
Proof.
  destruct x as [s|[]| |[] m e]; intro H; try discriminate H.
  - left. reflexivity.
  - right. exists m, e. reflexivity.
Qed.

Lemma rounds_to_zero_le (v : R) (r : spec_float) (s : bool) :
  rounds_to v r -> SFleb (S754_zero s) r = true.
Proof.
  intro H.
  destruct (rounds_to_nonneg v r H) as [->|[->|(m & e & -> & _)]];
    reflexivity.
Qed.

Lemma rounds_to_le_inf (v : R) (r : spec_float) :
  rounds_to v r -> SFleb r (S754_infinity false) = true.
Proof.
  intro H.
  destruct (rounds_to_nonneg v r H) as [->|[->|(m & e & -> & _)]];
    reflexivity.
Qed.

Lemma SFleb_ltb_false (x y : spec_float) :
  SFleb x y = true -> SFltb y x = false.
Proof.
  unfold SFleb, SFltb.
  destruct x as [[]|[]| |[] m1 e1], y as [[]|[]| |[] m2 e2];
    simpl; try (intros; reflexivity); try (intros; discriminate);
    destruct (Z.compare_spec e1 e2); destruct (Z.compare_spec e2 e1);
    try lia; simpl; try (intros; reflexivity); try (intros; discriminate);
    change (Pos.compare_cont Eq m1 m2) with (Pos.compare m1 m2);
    change (Pos.compare_cont Eq m2 m1) with (Pos.compare m2 m1);
    destruct (Pos.compare_spec m1 m2); destruct (Pos.compare_spec m2 m1);
    try lia; simpl; try (intros; reflexivity); try (intros; discriminate).
Qed.

Lemma SFltb_nan_r (x : spec_float) : SFltb x S754_nan = false.
Proof. destruct x as [[]|[]| |[] m e]; reflexivity. Qed.

Lemma SFltb_inf_l (x : spec_float) : SFltb (S754_infinity false) x = false.
Proof. destruct x as [[]|[]| |[] m e]; reflexivity. Qed.

Lemma valid_finite (m : positive) (e : Z) :
  valid_binary (S754_finite false m e) = true ->
  SpecFloat.bounded prec emax m e = true.
Proof. auto. Qed.

Lemma finite_value_le (m1 m2 : positive) (e1 e2 : Z) :
  SpecFloat.bounded prec emax m1 e1 = true ->
  SpecFloat.bounded prec emax m2 e2 = true ->
  SFleb (S754_finite false m1 e1) (S754_finite false m2 e2) = true ->
  fval m1 e1 <= fval m2 e2.
Proof.
  intros B1 B2. apply canonical_value_le.
  - apply bounded_canonical, B1.
  - apply bounded_canonical, B2.
Qed.

Lemma SFltb_nan_l (x : spec_float) : SFltb S754_nan x = false.
Proof. reflexivity. Qed.

Lemma rounds_to_not_lt_zero (v : R) (r : spec_float) (s : bool) :
  rounds_to v r -> SFltb r (S754_zero s) = false.
Proof. intro H. apply SFleb_ltb_false. eapply rounds_to_zero_le, H. Qed.

Ltac name_products :=
  repeat match goal with
    | Va : valid_binary (S754_finite false ?m1 ?e1) = true,
      Vb : valid_binary (S754_finite false ?m2 ?e2) = true
      |- context [SFmul prec emax (S754_finite false ?m1 ?e1)
                    (S754_finite false ?m2 ?e2)] =>
        let P := fresh "P" in
        let H := fresh "HP" in
        pose proof (SFmul_rounds m1 m2 e1 e2 (valid_finite _ _ Va)
                      (valid_finite _ _ Vb)) as H;
        set (P := SFmul prec emax (S754_finite false m1 e1)
                    (S754_finite false m2 e2)) in *
    end.

(** ** Order is kept

    Multiplication of floats that are zero or above. *)
Lemma SFmul_mono (a a' b b' : spec_float) :
  valid_binary a = true -> valid_binary a' = true ->
  valid_binary b = true -> valid_binary b' = true ->
  SFleb (S754_zero false) a = true -> SFleb (S754_zero false) b = true ->
  SFleb a a' = true -> SFleb b b' = true ->
  SFltb (SFmul prec emax a' b') (SFmul prec emax a b) = false.
Proof.
  intros Va Va' Vb Vb' Na Nb La Lb.
  assert (Na' : SFleb (S754_zero false) a' = true)
    by (apply (SFleb_trans _ a); assumption).
  assert (Nb' : SFleb (S754_zero false) b' = true)
    by (apply (SFleb_trans _ b); assumption).
  destruct (SFleb_zero_cases a Na) as [[sa ->]|[->|(ma & ea & ->)]];
  destruct (SFleb_zero_cases a' Na') as [[sa' ->]|[->|(ma' & ea' & ->)]];
  destruct (SFleb_zero_cases b Nb) as [[sb ->]|[->|(mb & eb & ->)]];
  destruct (SFleb_zero_cases b' Nb') as [[sb' ->]|[->|(mb' & eb' & ->)]];
  try discriminate La; try discriminate Lb;
  name_products; cbn [SFmul xorb];
  first [ apply SFltb_nan_r
        | apply SFltb_nan_l
        | apply SFltb_inf_l
        | eapply rounds_to_not_lt_zero; eassumption
        | match goal with
          | |- SFltb (S754_zero _) (S754_zero _) = false =>
              unfold SFltb; reflexivity
          end
        | idtac ].
  apply SFleb_ltb_false. eapply rounds_to_mono; try eassumption.
  pose proof (finite_value_le _ _ _ _ (valid_finite _ _ Va)
                (valid_finite _ _ Va') La).
  pose proof (finite_value_le _ _ _ _ (valid_finite _ _ Vb)
                (valid_finite _ _ Vb') Lb).
  pose proof (fval_pos ma ea). pose proof (fval_pos mb eb). nra.
Qed.

(** Division by a positive finite number. *)
Lemma SFdiv_mono (x y : spec_float) (md : positive) (ed : Z) :
  valid_binary x = true -> valid_binary y = true ->
  SFltb (S754_zero false) x = true -> SFleb x y = true ->
  SFleb (SFdiv prec emax x (S754_finite false md ed))
        (SFdiv prec emax y (S754_finite false md ed)) = true /\
  SFleb (S754_zero false) (SFdiv prec emax x (S754_finite false md ed)) = true.
Proof.
  intros Vx Vy Px L.
  assert (Py : SFltb (S754_zero false) y = true).
  { destruct (SFltb_zero_cases x Px) as [->|(m & e & ->)];
      destruct y as [[]|[]| |[] m2 e2]; try discriminate L; reflexivity. }
  destruct (SFltb_zero_cases x Px) as [->|(mx & ex & ->)];
    destruct (SFltb_zero_cases y Py) as [->|(my & ey & ->)];
    try discriminate L.
  - split; reflexivity.
  - pose proof (SFdiv_rounds mx md ex ed) as R.
    split; [|eapply rounds_to_zero_le, R].
    change (SFdiv prec emax (S754_infinity false) (S754_finite false md ed))
      with (S754_infinity false).
    eapply rounds_to_le_inf, R.
  - pose proof (SFdiv_rounds mx md ex ed) as Rx.
    pose proof (SFdiv_rounds my md ey ed) as Ry.
    split; [|eapply rounds_to_zero_le, Rx].
    eapply rounds_to_mono; try eassumption.
    pose proof (finite_value_le _ _ _ _ (valid_finite _ _ Vx)
                  (valid_finite _ _ Vy) L).
    pose proof (fval_pos md ed).
    unfold Rdiv. apply Rmult_le_compat_r; [|assumption].
    apply Rlt_le, Rinv_0_lt_compat. assumption.
Qed.

(** Addition to a positive finite number. *)
Lemma SFadd_mono (x y : spec_float) (ma : positive) (ea : Z) :
  SpecFloat.bounded prec emax ma ea = true ->
  valid_binary x = true -> valid_binary y = true ->
  SFleb (S754_zero false) x = true -> SFleb x y = true ->
  SFleb (SFadd prec emax (S754_finite false ma ea) x)
        (SFadd prec emax (S754_finite false ma ea) y) = true /\
  SFleb (S754_zero false) (SFadd prec emax (S754_finite false ma ea) x) = true.
Proof.
  intros Ba Vx Vy Nx L.
  assert (Ny : SFleb (S754_zero false) y = true)
    by (apply (SFleb_trans _ x); assumption).
  pose proof (rounds_to_self ma ea Ba) as Ra. fold (fval ma ea) in Ra.
  destruct (SFleb_zero_cases x Nx) as [[sx ->]|[->|(mx & ex & ->)]];
    destruct (SFleb_zero_cases y Ny) as [[sy ->]|[->|(my & ey & ->)]];
    try discriminate L.
  - split; [|reflexivity]. cbn [SFadd]. apply SFleb_refl. discriminate.
  - split; reflexivity.
  - split; [|reflexivity].
    change (SFadd prec emax (S754_finite false ma ea) (S754_zero sx))
      with (S754_finite false ma ea).
    eapply rounds_to_mono; [exact Ra|apply SFadd_rounds|].
    pose proof (fval_pos my ey). lra.
  - split; reflexivity.
  - pose proof (SFadd_rounds ma mx ea ex) as Rx.
    split; [|eapply rounds_to_zero_le, Rx].
    change (SFadd prec emax (S754_finite false ma ea) (S754_infinity false))
      with (S754_infinity false).
    eapply rounds_to_le_inf, Rx.
  - pose proof (SFadd_rounds ma mx ea ex) as Rx.
    pose proof (SFadd_rounds ma my ea ey) as Ry.
    split; [|eapply rounds_to_zero_le, Rx].
    eapply rounds_to_mono; try eassumption.
    pose proof (finite_value_le _ _ _ _ (valid_finite _ _ Vx)
                  (valid_finite _ _ Vy) L).
    lra.
Qed.

(** * Binary64 operations on floats *)

Lemma Prim2SF_zero : Prim2SF 0%float = S754_zero false.
Proof. reflexivity. Qed.

Lemma float_mul_mono (a a' b b' : float) :
  (0 <=? a)%float = true -> (0 <=? b)%float = true ->
  (a <=? a')%float = true -> (b <=? b')%float = true ->
  (a' * b' <? a * b)%float = false.
Proof.
  rewrite !leb_spec, ltb_spec, !mul_spec, Prim2SF_zero.
  apply SFmul_mono; apply Prim2SF_valid.
Qed.

Lemma float_div100_mono (x y : float) :
  (0 <? x)%float = true -> (x <=? y)%float = true ->
  (x / 100 <=? y / 100)%float = true /\ (0 <=? x / 100)%float = true.
Proof.
  rewrite !leb_spec, ltb_spec, !div_spec, Prim2SF_zero.
  change (Prim2SF 100%float) with (S754_finite false 7036874417766400 (-46)).
  apply SFdiv_mono; apply Prim2SF_valid.
Qed.

Lemma float_add1_mono (x y : float) :
  (0 <=? x)%float = true -> (x <=? y)%float = true ->
  (1 + x <=? 1 + y)%float = true /\ (0 <=? 1 + x)%float = true.
Proof.
  rewrite !leb_spec, !add_spec, Prim2SF_zero.
  change (Prim2SF 1%float) with (S754_finite false 4503599627370496 (-52)).
  apply SFadd_mono; try apply Prim2SF_valid. reflexivity.
Qed.

End Rounding.

(** * The range check of np.percentile *)

Lemma percentile_in_range (q : float) :
  cpu_percentile_ok q = true ->
  (0 <=? q / 100)%float && (q / 100 <=? 1)%float = true.
Proof.
  unfold cpu_percentile_ok. intro H. apply andb_prop in H as [H0 H100].
  destruct (float_div100_mono q 100 H0 H100) as [Hle Hnn].
  rewrite Hnn. exact Hle.
Qed.

Lemma np_percentile_valid (self : SimpleStrategySettings) (a : list float) :
  valid_settings self -> a <> [] ->
  np_percentile a (cpu_percentile self) =
  Ok (quantile a (cpu_percentile self / 100)%float).
Proof.
  intros [Hp _] Ha. unfold np_percentile.
  rewrite (percentile_in_range _ Hp). simpl.
  destruct a; [contradiction|reflexivity].
Qed.

Lemma np_percentile_empty (self : SimpleStrategySettings) :
  valid_settings self ->
  np_percentile [] (cpu_percentile self) = Raise IndexError.
Proof.
  intros [Hp _]. unfold np_percentile.
  rewrite (percentile_in_range _ Hp). reflexivity.
Qed.

(** * The CPU proposal *)

(** C10. The single-container branch changes nothing: on every non-empty
    mapping [calculate_cpu_proposal] returns what the variant without the
    branch, [always_concatenate], returns. *)
Theorem single_container_branch_redundant
  (self : SimpleStrategySettings) (data : ContainerData) :
  data <> [] ->
  calculate_cpu_proposal self data = always_concatenate self data.
Proof.
  intro Hne. rewrite calculate_cpu_proposal_columns.
  unfold always_concatenate.
  destruct data as [|[id values] data]; [contradiction|].
  simpl map. rewrite cpu_of_columns_cons. reflexivity.
Qed.

Lemma single_container_branch_redundant_witness :
  let self := {| cpu_percentile := 99; memory_buffer_percentage := 5 |} in
  let one := [("app"%string, [(0, 1); (60, 4); (120, 2)]%float)] in
  let two := [("app"%string, [(0, 1); (60, 4)]%float);
              ("sidecar"%string, [(0, 7)]%float)] in
  calculate_cpu_proposal self one = always_concatenate self one /\
  calculate_cpu_proposal self two = always_concatenate self two.
Proof.
  split; apply single_container_branch_redundant; discriminate.
Defined.

(** C8. Timestamps do not matter: two mappings with the same containers and
    the same value columns get the same CPU proposal and the same memory
    proposal, whatever their timestamp columns hold. *)
Theorem proposals_ignore_timestamps
  (self : SimpleStrategySettings) (data1 data2 : ContainerData) :
  value_columns data1 = value_columns data2 ->
  calculate_cpu_proposal self data1 = calculate_cpu_proposal self data2 /\
  calculate_memory_proposal self data1 = calculate_memory_proposal self data2.
Proof.
  intro H. apply (f_equal (map snd)) in H.
  rewrite !value_columns_columns in H.
  rewrite !calculate_cpu_proposal_columns, !calculate_memory_proposal_columns, H.
  split; reflexivity.
Qed.

Lemma proposals_ignore_timestamps_witness :
  let self := {| cpu_percentile := 99; memory_buffer_percentage := 5 |} in
  let data1 := [("app"%string, [(0, 1); (60, 4)]%float);
                ("sidecar"%string, [(0, 7)]%float)] in
  let data2 := [("app"%string, [(1000, 1); (-5, 4)]%float);
                ("sidecar"%string, [(PrimFloat.nan, 7%float)])] in
  calculate_cpu_proposal self data1 = calculate_cpu_proposal self data2 /\
  calculate_memory_proposal self data1 = calculate_memory_proposal self data2.
Proof.
  apply proposals_ignore_timestamps. reflexivity.
Defined.

(** * Settings validation *)

(** C4. Construction fails with a validation error exactly when
    [cpu_percentile] is not in (0, 100] or [memory_buffer_percentage] is not
    above 0, and otherwise yields the settings with the values given; a field
    that is not given takes its default, 99 and 5.  So 0 and 101 are refused
    as [cpu_percentile] while 100 and 0.001 are accepted. *)
Theorem new_settings_validation :
  (forall p b : float,
      new_settings (Some p) (Some b) = Raise ValidationError <->
      ~ ((0 <? p)%float = true /\ (p <=? 100)%float = true) \/
      ~ (0 <? b)%float = true) /\
  (forall p b : float,
      (0 <? p)%float = true /\ (p <=? 100)%float = true /\ (0 <? b)%float = true <->
      new_settings (Some p) (Some b) =
      Ok {| cpu_percentile := p; memory_buffer_percentage := b |}) /\
  (forall b, new_settings None b = new_settings (Some 99%float) b) /\
  (forall p, new_settings p None = new_settings p (Some 5%float)) /\
  new_settings None None =
    Ok {| cpu_percentile := 99; memory_buffer_percentage := 5 |} /\
  new_settings (Some 0%float) None = Raise ValidationError /\
  new_settings (Some 101%float) None = Raise ValidationError /\
  new_settings (Some 100%float) None =
    Ok {| cpu_percentile := 100; memory_buffer_percentage := 5 |} /\
  new_settings (Some 0.001%float) None =
    Ok {| cpu_percentile := 0.001; memory_buffer_percentage := 5 |}.
Proof.
  split; [|split]; [| |repeat split; reflexivity];
    intros p b; unfold new_settings, cpu_percentile_ok,
      memory_buffer_percentage_ok;
    destruct (0 <? p)%float, (p <=? 100)%float, (0 <? b)%float; simpl;
    split; intro H; try reflexivity; try discriminate H;
    try (decompose [and] H; discriminate);
    try (repeat split; reflexivity);
    try (destruct H as [H|H]; exfalso; apply H; repeat split; reflexivity);
    try (left; intros [? ?]; discriminate);
    right; discriminate.
Qed.

(** * The strategy *)

Lemma run_unfold {K : Type} settings history_data (object_data : K) cpu_data
  memory_data cpu_usage memory_usage :
  getitem ResourceType_eqb history_data CPU = Ok cpu_data ->
  calculate_cpu_proposal settings cpu_data = Ok cpu_usage ->
  getitem ResourceType_eqb history_data Memory = Ok memory_data ->
  calculate_memory_proposal settings memory_data = Ok memory_usage ->
  run settings history_data object_data =
  Ok [ (CPU, {| request := Some cpu_usage; limit := None |});
       (Memory, {| request := Some memory_usage; limit := Some memory_usage |}) ].
Proof.
  intros Hc Hcp Hm Hmp. unfold run. rewrite Hc. simpl. rewrite Hcp. simpl.
  rewrite Hm. simpl. rewrite Hmp. reflexivity.
Qed.

(** C5. Whenever [run] returns, its result has exactly the two keys CPU and
    Memory; the CPU entry holds the CPU proposal as request and no limit,
    the Memory entry holds the memory proposal as request and as limit. *)
Theorem run_result_shape {K : Type} (settings : SimpleStrategySettings)
  (history_data : HistoryData) (object_data : K) (r : RunResult) :
  run settings history_data object_data = Ok r ->
  exists cpu_data memory_data cpu_usage memory_usage,
    getitem ResourceType_eqb history_data CPU = Ok cpu_data /\
    calculate_cpu_proposal settings cpu_data = Ok cpu_usage /\
    getitem ResourceType_eqb history_data Memory = Ok memory_data /\
    calculate_memory_proposal settings memory_data = Ok memory_usage /\
    map fst r = [CPU; Memory] /\
    getitem ResourceType_eqb r CPU =
      Ok {| request := Some cpu_usage; limit := None |} /\
    getitem ResourceType_eqb r Memory =
      Ok {| request := Some memory_usage; limit := Some memory_usage |}.
Proof.
  unfold run. intro H.
  destruct (getitem ResourceType_eqb history_data CPU) as [cd|e] eqn:Hcd;
    simpl in H; [|discriminate].
  destruct (calculate_cpu_proposal settings cd) as [c|e] eqn:Hc;
    simpl in H; [|discriminate].
  destruct (getitem ResourceType_eqb history_data Memory) as [md|e] eqn:Hmd;
    simpl in H; [|discriminate].
  destruct (calculate_memory_proposal settings md) as [m|e] eqn:Hm;
    simpl in H; [|discriminate].
  injection H as <-. exists cd, md, c, m.
  repeat split; try assumption; reflexivity.
Qed.

Lemma run_result_shape_witness :
  let settings := {| cpu_percentile := 99; memory_buffer_percentage := 5 |} in
  let cpu := [("app"%string, [(0, 1); (60, 2)]%float);
              ("sidecar"%string, [(0, 3)]%float)] in
  let memory := [("app"%string, [(0, 10); (60, 20)]%float)] in
  let r := [ (CPU, {| request := Some 2.98%float; limit := None |});
             (Memory, {| request := Some 21%float;
                         limit := Some 21%float |}) ] in
  run settings [(Memory, memory); (CPU, cpu)] tt = Ok r /\
  exists cpu_data memory_data cpu_usage memory_usage,
    getitem ResourceType_eqb [(Memory, memory); (CPU, cpu)] CPU = Ok cpu_data /\
    calculate_cpu_proposal settings cpu_data = Ok cpu_usage /\
    getitem ResourceType_eqb [(Memory, memory); (CPU, cpu)] Memory =
      Ok memory_data /\
    calculate_memory_proposal settings memory_data = Ok memory_usage /\
    map fst r = [CPU; Memory] /\
    getitem ResourceType_eqb r CPU =
      Ok {| request := Some cpu_usage; limit := None |} /\
    getitem ResourceType_eqb r Memory =
      Ok {| request := Some memory_usage; limit := Some memory_usage |}.
Proof.
  intros settings cpu memory r.
  assert (Hrun : run settings [(Memory, memory); (CPU, cpu)] tt = Ok r)
    by (vm_compute; reflexivity).
  split; [exact Hrun|].
  exact (run_result_shape settings [(Memory, memory); (CPU, cpu)] tt r Hrun).
Defined.

(** C7. The worked example: one container with CPU values 1, 2, 3 and memory
    values 10, 20, at percentile 100 and with a 5% buffer, gets the CPU
    proposal 3, the memory proposal 21 and the result
    {CPU: (3, no limit), Memory: (21, 21)}, whatever the timestamps and the
    name of the container. *)
Theorem run_worked_example {K : Type} (object_data : K) (A : string)
  (t0 t1 t2 : float) :
  let cpu := [(A, [(t0, 1); (t1, 2); (t2, 3)]%float)] in
  let memory := [(A, [(t0, 10); (t1, 20)]%float)] in
  let settings := {| cpu_percentile := 100; memory_buffer_percentage := 5 |} in
  new_settings (Some 100%float) (Some 5%float) = Ok settings /\
  calculate_cpu_proposal settings cpu = Ok 3%float /\
  calculate_memory_proposal settings memory = Ok 21%float /\
  run settings [(CPU, cpu); (Memory, memory)] object_data =
  Ok [ (CPU, {| request := Some 3%float; limit := None |});
       (Memory, {| request := Some 21%float; limit := Some 21%float |}) ].
Proof.
  intros cpu memory settings.
  assert (Hc : calculate_cpu_proposal settings cpu = Ok 3%float)
    by (vm_compute; reflexivity).
  assert (Hm : calculate_memory_proposal settings memory = Ok 21%float)
    by (vm_compute; reflexivity).
  split; [reflexivity|]. split; [exact Hc|]. split; [exact Hm|].
  apply (run_unfold _ _ _ cpu memory); try assumption; reflexivity.
Qed.

(** C3, as the spec words it, fails: [run] looks a resource type up with
    [history_data[...]], so a history without the CPU entry, or without the
    Memory entry, ends in [KeyError]. *)
Lemma run_absent_resource_type_raises :
  let settings := {| cpu_percentile := 99; memory_buffer_percentage := 5 |} in
  run settings [(Memory, [])] tt = Raise KeyError /\
  run settings [(CPU, [])] tt = Raise KeyError /\
  run settings [] tt = Raise KeyError.
Proof. repeat split. Qed.

(** C3, amended.  When [history_data] has an entry for CPU and one for
    Memory, an empty container mapping is tolerated: the resource whose
    mapping is empty gets NaN (as request for CPU, whose limit stays absent;
    as request and limit for Memory), and [run] returns entries for both
    resource types whenever the proposal for the other resource returns, in
    particular when both mappings are empty; when the other proposal raises,
    [run] raises the same exception.  A resource type with no entry makes
    [run] raise: [KeyError] when the CPU entry is absent; when only the
    Memory entry is absent, [KeyError] if the CPU proposal returns, and
    otherwise the exception of the CPU proposal, which is raised first. *)
Theorem run_tolerates_empty_mappings {K : Type}
  (settings : SimpleStrategySettings) (history_data : HistoryData)
  (object_data : K) :
  (getitem ResourceType_eqb history_data CPU = Ok [] ->
   getitem ResourceType_eqb history_data Memory = Ok [] ->
   run settings history_data object_data =
   Ok [ (CPU, {| request := Some PrimFloat.nan; limit := None |});
        (Memory, {| request := Some PrimFloat.nan;
                    limit := Some PrimFloat.nan |}) ]) /\
  (forall memory_data,
      getitem ResourceType_eqb history_data CPU = Ok [] ->
      getitem ResourceType_eqb history_data Memory = Ok memory_data ->
      (forall memory_usage,
          calculate_memory_proposal settings memory_data = Ok memory_usage ->
          run settings history_data object_data =
          Ok [ (CPU, {| request := Some PrimFloat.nan; limit := None |});
               (Memory, {| request := Some memory_usage;
                           limit := Some memory_usage |}) ]) /\
      (forall e,
          calculate_memory_proposal settings memory_data = Raise e ->
          run settings history_data object_data = Raise e)) /\
  (forall cpu_data,
      getitem ResourceType_eqb history_data CPU = Ok cpu_data ->
      getitem ResourceType_eqb history_data Memory = Ok [] ->
      (forall cpu_usage,
          calculate_cpu_proposal settings cpu_data = Ok cpu_usage ->
          run settings history_data object_data =
          Ok [ (CPU, {| request := Some cpu_usage; limit := None |});
               (Memory, {| request := Some PrimFloat.nan;
                           limit := Some PrimFloat.nan |}) ]) /\
      (forall e,
          calculate_cpu_proposal settings cpu_data = Raise e ->
          run settings history_data object_data = Raise e)) /\
  (getitem ResourceType_eqb history_data CPU = Raise KeyError ->
   run settings history_data object_data = Raise KeyError) /\
  (forall cpu_data,
      getitem ResourceType_eqb history_data CPU = Ok cpu_data ->
      getitem ResourceType_eqb history_data Memory = Raise KeyError ->
      (forall cpu_usage,
          calculate_cpu_proposal settings cpu_data = Ok cpu_usage ->
          run settings history_data object_data = Raise KeyError) /\
      (forall e,
          calculate_cpu_proposal settings cpu_data = Raise e ->
          run settings history_data object_data = Raise e)) /\
  (getitem ResourceType_eqb history_data CPU = Raise KeyError \/
   getitem ResourceType_eqb history_data Memory = Raise KeyError ->
   raises (run settings history_data object_data)).
Proof.
  assert (Habsent : forall cpu_data,
             getitem ResourceType_eqb history_data CPU = Ok cpu_data ->
             getitem ResourceType_eqb history_data Memory = Raise KeyError ->
             (forall cpu_usage,
                 calculate_cpu_proposal settings cpu_data = Ok cpu_usage ->
                 run settings history_data object_data = Raise KeyError) /\
             (forall e,
                 calculate_cpu_proposal settings cpu_data = Raise e ->
                 run settings history_data object_data = Raise e)).
  { intros cd Hc Hm. unfold run. rewrite Hc. simpl. split.
    - intros c Hcp. rewrite Hcp. simpl. rewrite Hm. reflexivity.
    - intros e Hcp. rewrite Hcp. reflexivity. }
  repeat apply conj.
  - intros Hc Hm. apply (run_unfold _ _ _ [] []); auto.
  - intros md Hc Hm. split.
    + intros m Hmp. apply (run_unfold _ _ _ [] md); auto.
    + intros e Hmp. unfold run. rewrite Hc. simpl. rewrite Hm. simpl.
      rewrite Hmp. reflexivity.
  - intros cd Hc Hm. split.
    + intros c Hcp. apply (run_unfold _ _ _ cd []); auto.
    + intros e Hcp. unfold run. rewrite Hc. simpl. rewrite Hcp. reflexivity.
  - intros Hc. unfold run. rewrite Hc. reflexivity.
  - exact Habsent.
  - intros [Hc|Hm].
    + exists KeyError. unfold run. rewrite Hc. reflexivity.
    + destruct (getitem ResourceType_eqb history_data CPU) as [cd|e] eqn:Hc.
      * destruct (Habsent cd eq_refl Hm) as [Hok Hraise].
        destruct (calculate_cpu_proposal settings cd) as [c|e] eqn:Hcp.
        -- exists KeyError. apply (Hok c). reflexivity.
        -- exists e. apply Hraise. reflexivity.
      * exists e. unfold run. rewrite Hc. reflexivity.
Qed.

Lemma run_tolerates_empty_mappings_witness :
  let settings := {| cpu_percentile := 99; memory_buffer_percentage := 5 |} in
  let series := [("app"%string, [(0, 10); (60, 20)]%float)] in
  let hollow := [("app"%string, [])] in
  run settings [(CPU, []); (Memory, [])] tt =
    Ok [ (CPU, {| request := Some PrimFloat.nan; limit := None |});
         (Memory, {| request := Some PrimFloat.nan;
                     limit := Some PrimFloat.nan |}) ] /\
  run settings [(CPU, []); (Memory, series)] tt =
    Ok [ (CPU, {| request := Some PrimFloat.nan; limit := None |});
         (Memory, {| request := Some 21%float; limit := Some 21%float |}) ] /\
  run settings [(CPU, series); (Memory, [])] tt =
    Ok [ (CPU, {| request := Some 19.9%float; limit := None |});
         (Memory, {| request := Some PrimFloat.nan;
                     limit := Some PrimFloat.nan |}) ] /\
  run settings [(CPU, []); (Memory, hollow)] tt = Raise ValueError /\
  run settings [(CPU, hollow); (Memory, [])] tt = Raise IndexError /\
  run settings [(Memory, series)] tt = Raise KeyError /\
  run settings [(CPU, series)] tt = Raise KeyError /\
  run settings [(CPU, hollow)] tt = Raise IndexError /\
  raises (run settings [(CPU, hollow)] tt).
Proof.
  intros settings series hollow. repeat apply conj.
  - apply (run_tolerates_empty_mappings settings [(CPU, []); (Memory, [])] tt);
      reflexivity.
  - destruct (run_tolerates_empty_mappings settings [(CPU, []); (Memory, series)] tt)
      as (_ & H & _).
    destruct (H series eq_refl eq_refl) as [Hok _]. apply Hok. reflexivity.
  - destruct (run_tolerates_empty_mappings settings [(CPU, series); (Memory, [])] tt)
      as (_ & _ & H & _).
    destruct (H series eq_refl eq_refl) as [Hok _]. apply Hok. reflexivity.
  - destruct (run_tolerates_empty_mappings settings [(CPU, []); (Memory, hollow)] tt)
      as (_ & H & _).
    destruct (H hollow eq_refl eq_refl) as [_ Hr]. apply Hr. reflexivity.
  - destruct (run_tolerates_empty_mappings settings [(CPU, hollow); (Memory, [])] tt)
      as (_ & _ & H & _).
    destruct (H hollow eq_refl eq_refl) as [_ Hr]. apply Hr. reflexivity.
  - destruct (run_tolerates_empty_mappings settings [(Memory, series)] tt) as (_ & _ & _ & H & _).
    apply H. reflexivity.
  - destruct (run_tolerates_empty_mappings settings [(CPU, series)] tt) as (_ & _ & _ & _ & H & _).
    destruct (H series eq_refl eq_refl) as [Hok _].
    apply (Hok 19.9%float). reflexivity.
  - destruct (run_tolerates_empty_mappings settings [(CPU, hollow)] tt) as (_ & _ & _ & _ & H & _).
    destruct (H hollow eq_refl eq_refl) as [_ Hr]. apply Hr. reflexivity.
  - apply (run_tolerates_empty_mappings settings [(CPU, hollow)] tt). right. reflexivity.
Defined.

(** * Totality *)

Lemma comprehension_np_max_raises (columns : list (list float)) :
  Exists (fun c => c = []) columns ->
  comprehension np_max columns = Raise ValueError.
Proof.
  induction 1 as [c columns ->|c columns _ IH]; simpl; [reflexivity|].
  destruct c; simpl; [reflexivity|]. rewrite IH. reflexivity.
Qed.

Lemma comprehension_np_max_ok (columns : list (list float)) :
  Forall (fun c => c <> []) columns ->
  exists peaks, comprehension np_max columns = Ok peaks /\
                length peaks = length columns.
Proof.
  intro H.
  destruct (comprehension_ok np_max columns) as [peaks Hp].
  - eapply Forall_impl; [|exact H]. intros [|x xs] Hc; [contradiction|].
    eexists. reflexivity.
  - exists peaks. split; [exact Hp|]. eapply comprehension_length, Hp.
Qed.

Lemma memory_of_columns_ok self (columns : list (list float)) :
  Forall (fun c => c <> []) columns ->
  exists v, memory_of_columns self columns = Ok v.
Proof.
  intro H. destruct (comprehension_np_max_ok columns H) as (peaks & Hp & Hlen).
  unfold memory_of_columns. rewrite Hp. simpl.
  destruct peaks as [|p peaks]; simpl; eexists; reflexivity.
Qed.

(** C9, as worded, fails for the CPU proposal: an empty series next to a
    non-empty one disappears in the concatenation, and the percentile of
    what is left is returned. *)
Lemma calculate_cpu_proposal_empty_series_no_raise :
  let self := {| cpu_percentile := 99; memory_buffer_percentage := 5 |} in
  let data := [("app"%string, []);
               ("sidecar"%string, [(0, 1)]%float)] in
  Exists (fun item => snd item = []) data /\
  calculate_cpu_proposal self data = Ok 1%float /\
  calculate_memory_proposal self data = Raise ValueError.
Proof.
  repeat apply conj; try reflexivity. apply Exists_cons_hd. reflexivity.
Qed.

(** * The memory proposal *)

(** C2. [calculate_memory_proposal] returns NaN on the empty mapping.  On a
    non-empty mapping of non-empty series it returns
    [peak * (1 + memory_buffer_percentage / 100)], where [peak] is what
    Python's [max] finds among the per-container results of [np.max]; when no
    value is a NaN, every such result is the maximum of its container's value
    column and [peak] is the maximum of these maxima.  It is not their sum:
    peaks 10 and 20 with a 5% buffer give 21. *)
Theorem calculate_memory_proposal_peak (self : SimpleStrategySettings) :
  calculate_memory_proposal self [] = Ok PrimFloat.nan /\
  (forall data : ContainerData,
      data <> [] ->
      Forall (fun item => snd item <> []) data ->
      exists peaks peak,
        comprehension np_max (map column1 (dict_values data)) = Ok peaks /\
        py_max peaks = Ok peak /\
        calculate_memory_proposal self data =
          Ok (peak * (1 + memory_buffer_percentage self / 100))%float /\
        (Forall (Forall not_nan) (map column1 (dict_values data)) ->
         Forall2 maximum_of (map column1 (dict_values data)) peaks /\
         maximum_of peaks peak)) /\
  (forall id1 id2 t0 t1 t2 p,
      calculate_memory_proposal
        {| cpu_percentile := p; memory_buffer_percentage := 5 |}
        [(id1, [(t0, 10); (t1, 4)]%float); (id2, [(t2, 20%float)])] =
      Ok 21%float).
Proof.
  split; [reflexivity|]. split; [|intros; vm_compute; reflexivity].
  intros data Hne Hseries.
  destruct (comprehension_np_max_ok (map column1 (dict_values data)))
    as (peaks & Hp & Hlen).
  { apply Forall_columns. eapply Forall_impl; [|exact Hseries].
    intros [id values] Hv. simpl in *. rewrite column1_nil. exact Hv. }
  destruct peaks as [|p peaks].
  { destruct data; [contradiction|discriminate Hlen]. }
  eexists. eexists. split; [exact Hp|]. split; [reflexivity|]. split.
  - rewrite calculate_memory_proposal_columns. unfold memory_of_columns.
    rewrite Hp. reflexivity.
  - intro Hnan.
    destruct (comprehension_np_max_maxima _ _ Hnan Hp) as [H1 H2].
    split; [exact H1|]. apply py_max_maximum; [exact H2|reflexivity].
Qed.

Lemma calculate_memory_proposal_peak_witness :
  let self := {| cpu_percentile := 99; memory_buffer_percentage := 5 |} in
  let data := [("app"%string, [(0, 10); (60, 40); (120, 30)]%float);
               ("sidecar"%string, [(0, 7); (60, 20)]%float)] in
  exists peaks peak,
    comprehension np_max (map column1 (dict_values data)) = Ok peaks /\
    py_max peaks = Ok peak /\
    calculate_memory_proposal self data =
      Ok (peak * (1 + memory_buffer_percentage self / 100))%float /\
    (Forall (Forall not_nan) (map column1 (dict_values data)) ->
     Forall2 maximum_of (map column1 (dict_values data)) peaks /\
     maximum_of peaks peak).
Proof.
  intros self data.
  apply (calculate_memory_proposal_peak self).
  - discriminate.
  - repeat constructor; discriminate.
Defined.

(** * Monotonicity of the memory proposal *)

Lemma nonneg_not_nan (x : float) : nonneg x -> not_nan x.
Proof. intro H. apply (leb_not_nan 0 x H). Qed.

Lemma Forall_nonneg_not_nan (l : list float) :
  Forall nonneg l -> Forall not_nan l.
Proof. apply Forall_impl, nonneg_not_nan. Qed.

Lemma maximum_of_nonneg (l : list float) (m : float) :
  Forall nonneg l -> maximum_of l m -> nonneg m.
Proof.
  intros H [Hin _]. rewrite Forall_forall in H. apply H, Hin.
Qed.

Lemma maximum_of_mono (l l' : list float) (m m' : float) :
  Forall2 (fun x y => (x <=? y)%float = true) l l' ->
  maximum_of l m -> maximum_of l' m' -> (m <=? m')%float = true.
Proof.
  intros H [Hin _] [_ Hall]. rewrite Forall_forall in Hall.
  induction H as [|x y l l' Hxy _ IH]; [contradiction|].
  destruct Hin as [->|Hin].
  - apply (leb_trans _ y); [exact Hxy|]. apply Hall. left. reflexivity.
  - apply IH; [exact Hin|]. intros z Hz. apply Hall. right. exact Hz.
Qed.

Lemma multiplier_mono (b1 b2 : float) :
  (0 <? b1)%float = true -> (b1 <=? b2)%float = true ->
  (multiplier b1 <=? multiplier b2)%float = true /\ nonneg (multiplier b1).
Proof.
  intros H0 H. destruct (float_div100_mono b1 b2 H0 H) as [Hd Hn].
  apply float_add1_mono; assumption.
Qed.

Lemma multiplier_nonneg (b : float) :
  (0 <? b)%float = true -> nonneg (multiplier b).
Proof.
  intro H0. apply (multiplier_mono b b H0).
  apply leb_refl. apply (leb_not_nan 0 b). apply ltb_leb. exact H0.
Qed.

(** The peak behind a proposal: the maxima of the columns and their
    maximum, with the value [memory_of_columns] returns. *)
Lemma memory_of_columns_peak (columns : list (list float)) :
  columns <> [] -> Forall (fun c => c <> []) columns ->
  exists peaks peak,
    comprehension np_max columns = Ok peaks /\
    py_max peaks = Ok peak /\
    (forall self, memory_of_columns self columns =
                  Ok (peak * multiplier (memory_buffer_percentage self))%float) /\
    (Forall (Forall not_nan) columns ->
     Forall2 maximum_of columns peaks /\ maximum_of peaks peak).
Proof.
  intros Hne Hseries.
  destruct (comprehension_np_max_ok columns Hseries) as (peaks & Hp & Hlen).
  destruct peaks as [|p peaks].
  { destruct columns; [contradiction|discriminate Hlen]. }
  eexists. eexists. split; [exact Hp|]. split; [reflexivity|]. split.
  - intro self. unfold memory_of_columns. rewrite Hp. reflexivity.
  - intro Hnan.
    destruct (comprehension_np_max_maxima _ _ Hnan Hp) as [H1 H2].
    split; [exact H1|]. apply py_max_maximum; [exact H2|reflexivity].
Qed.

Lemma peaks_nonneg (columns : list (list float)) (peaks : list float) :
  Forall (Forall nonneg) columns -> Forall2 maximum_of columns peaks ->
  Forall nonneg peaks.
Proof.
  intros H F. induction F as [|c p columns peaks Hm _ IH]; [constructor|].
  inversion H; subst. constructor; [|apply IH; assumption].
  eapply maximum_of_nonneg; eassumption.
Qed.

Lemma peaks_mono (columns columns' : list (list float))
  (peaks peaks' : list float) :
  Forall2 (Forall2 (fun x y => (x <=? y)%float = true)) columns columns' ->
  Forall2 maximum_of columns peaks -> Forall2 maximum_of columns' peaks' ->
  Forall2 (fun x y => (x <=? y)%float = true) peaks peaks'.
Proof.
  intro H. revert peaks peaks'.
  induction H as [|c c' columns columns' Hc _ IH]; intros peaks peaks' F F'.
  - inversion F; inversion F'; subst. constructor.
  - inversion F; inversion F'; subst. constructor.
    + eapply maximum_of_mono; eassumption.
    + apply IH; assumption.
Qed.

Lemma pointwise_le_nonneg (l l' : list float) :
  Forall nonneg l -> Forall2 (fun x y => (x <=? y)%float = true) l l' ->
  Forall nonneg l'.
Proof.
  intros H F. induction F as [|x y l l' Hxy _ IH]; [constructor|].
  inversion H; subst. constructor; [|apply IH; assumption].
  unfold nonneg in *. apply (leb_trans _ x); assumption.
Qed.

Lemma pointwise_le_refl (l : list float) :
  Forall nonneg l -> Forall2 (fun x y => (x <=? y)%float = true) l l.
Proof.
  induction 1 as [|x l Hx _ IH]; constructor; [|exact IH].
  apply leb_refl, nonneg_not_nan, Hx.
Qed.

Lemma memory_of_columns_mono_buffer (self1 self2 : SimpleStrategySettings)
  (columns : list (list float)) :
  Forall (fun c => c <> []) columns -> Forall (Forall nonneg) columns ->
  (0 <? memory_buffer_percentage self1)%float = true ->
  (memory_buffer_percentage self1 <=? memory_buffer_percentage self2)%float
    = true ->
  exists r1 r2,
    memory_of_columns self1 columns = Ok r1 /\
    memory_of_columns self2 columns = Ok r2 /\
    (r2 <? r1)%float = false.
Proof.
  intros Hseries Hnn H0 Hb.
  destruct columns as [|c columns].
  { exists PrimFloat.nan, PrimFloat.nan. repeat split. }
  destruct (memory_of_columns_peak (c :: columns)) as
    (peaks & peak & Hp & Hpeak & Hval & Hmax); [discriminate|exact Hseries|].
  destruct Hmax as [Hmaxs Hmax].
  { eapply Forall_impl; [|exact Hnn]. apply Forall_nonneg_not_nan. }
  assert (Hpn : nonneg peak).
  { eapply maximum_of_nonneg; [|exact Hmax].
    eapply peaks_nonneg; eassumption. }
  destruct (multiplier_mono _ _ H0 Hb) as [Hm Hmn].
  eexists. eexists. split; [apply Hval|]. split; [apply Hval|].
  apply float_mul_mono; try assumption.
  apply leb_refl, nonneg_not_nan, Hpn.
Qed.

Lemma memory_of_columns_mono_values (self : SimpleStrategySettings)
  (columns columns' : list (list float)) :
  Forall (fun c => c <> []) columns -> Forall (Forall nonneg) columns ->
  Forall2 (Forall2 (fun x y => (x <=? y)%float = true)) columns columns' ->
  (0 <? memory_buffer_percentage self)%float = true ->
  exists r r',
    memory_of_columns self columns = Ok r /\
    memory_of_columns self columns' = Ok r' /\
    (r' <? r)%float = false.
Proof.
  intros Hseries Hnn Hle H0.
  destruct Hle as [|c c' columns columns' Hc Hcs].
  { exists PrimFloat.nan, PrimFloat.nan. repeat split. }
  assert (Hle : Forall2 (Forall2 (fun x y => (x <=? y)%float = true))
                  (c :: columns) (c' :: columns')) by (constructor; assumption).
  assert (Hseries' : Forall (fun c => c <> []) (c' :: columns')).
  { clear - Hseries Hle. induction Hle as [|x y l l' Hxy _ IH]; [constructor|].
    inversion Hseries; subst. constructor; [|apply IH; assumption].
    destruct Hxy; [contradiction|discriminate]. }
  assert (Hnn' : Forall (Forall nonneg) (c' :: columns')).
  { clear - Hnn Hle. induction Hle as [|x y l l' Hxy _ IH]; [constructor|].
    inversion Hnn; subst. constructor; [|apply IH; assumption].
    eapply pointwise_le_nonneg; eassumption. }
  destruct (memory_of_columns_peak (c :: columns)) as
    (peaks & peak & Hp & Hpeak & Hval & Hmax); [discriminate|exact Hseries|].
  destruct (memory_of_columns_peak (c' :: columns')) as
    (peaks' & peak' & Hp' & Hpeak' & Hval' & Hmax');
    [discriminate|exact Hseries'|].
  destruct Hmax as [Hmaxs Hmax].
  { eapply Forall_impl; [|exact Hnn]. apply Forall_nonneg_not_nan. }
  destruct Hmax' as [Hmaxs' Hmax'].
  { eapply Forall_impl; [|exact Hnn']. apply Forall_nonneg_not_nan. }
  assert (Hpn : nonneg peak).
  { eapply maximum_of_nonneg; [|exact Hmax].
    apply (peaks_nonneg (c :: columns)); assumption. }
  pose proof (multiplier_nonneg _ H0) as Hmn.
  eexists. eexists. split; [apply Hval|]. split; [apply Hval'|].
  apply float_mul_mono; try assumption.
  - eapply maximum_of_mono; [|exact Hmax|exact Hmax'].
    apply (peaks_mono (c :: columns) (c' :: columns')); assumption.
  - apply leb_refl, nonneg_not_nan, Hmn.
Qed.

Lemma columns_with_sample pre id rows_before t v rows_after post :
  map column1 (dict_values (with_sample pre id rows_before t v rows_after post)) =
  map column1 (dict_values pre) ++
  (column1 rows_before ++ v :: column1 rows_after) ::
  map column1 (dict_values post).
Proof.
  unfold with_sample, dict_values, column1.
  rewrite !map_app. simpl. rewrite !map_app. reflexivity.
Qed.

Lemma columns_le_refl (columns : list (list float)) :
  Forall (Forall nonneg) columns ->
  Forall2 (Forall2 (fun x y => (x <=? y)%float = true)) columns columns.
Proof.
  induction 1 as [|c columns Hc _ IH]; constructor; [|exact IH].
  apply pointwise_le_refl, Hc.
Qed.

Lemma ltb_false_leb_result (r r' : float) :
  (r' <? r)%float = false -> not_nan r -> not_nan r' ->
  (r <=? r')%float = true.
Proof. intros H Hr Hr'. apply ltb_false_leb; assumption. Qed.

(** C6. With values that are zero or above, as memory samples are, and
    every series non-empty, [calculate_memory_proposal] returns a value
    and (1) a larger valid buffer never yields a smaller proposal on the same
    data; (2) replacing one sample value by a larger one, all else fixed,
    never yields a smaller proposal.  Whenever the two proposals are
    numbers (not NaN), the first is below or equal to the second. *)
Theorem calculate_memory_proposal_monotone :
  (forall (self1 self2 : SimpleStrategySettings) (data : ContainerData),
      Forall (fun item => snd item <> []) data ->
      Forall (fun item => Forall nonneg (column1 (snd item))) data ->
      valid_settings self1 -> valid_settings self2 ->
      (memory_buffer_percentage self1 <=? memory_buffer_percentage self2)%float
        = true ->
      exists r1 r2,
        calculate_memory_proposal self1 data = Ok r1 /\
        calculate_memory_proposal self2 data = Ok r2 /\
        (r2 <? r1)%float = false /\
        (not_nan r1 -> not_nan r2 -> (r1 <=? r2)%float = true)) /\
  (forall (self : SimpleStrategySettings) pre id rows_before t v v'
          rows_after post,
      let data := with_sample pre id rows_before t v rows_after post in
      let data' := with_sample pre id rows_before t v' rows_after post in
      Forall (fun item => snd item <> []) data ->
      Forall (fun item => Forall nonneg (column1 (snd item))) data ->
      valid_settings self ->
      (v <=? v')%float = true ->
      exists r r',
        calculate_memory_proposal self data = Ok r /\
        calculate_memory_proposal self data' = Ok r' /\
        (r' <? r)%float = false /\
        (not_nan r -> not_nan r' -> (r <=? r')%float = true)).
Proof.
  split.
  - intros self1 self2 data Hseries Hnn [_ V1] _ Hb.
    rewrite !calculate_memory_proposal_columns.
    destruct (memory_of_columns_mono_buffer self1 self2
                (map column1 (dict_values data))) as (r1 & r2 & E1 & E2 & H);
      try assumption.
    + apply Forall_columns. eapply Forall_impl; [|exact Hseries].
      intros [i values] Hv. simpl in *. rewrite column1_nil. exact Hv.
    + apply Forall_columns. exact Hnn.
    + exists r1, r2. repeat split; try assumption.
      apply ltb_false_leb_result, H.
  - intros self pre id rows_before t v v' rows_after post data data'
      Hseries Hnn [_ V] Hv.
    rewrite !calculate_memory_proposal_columns.
    assert (Hcols : Forall (Forall nonneg) (map column1 (dict_values data)))
      by (apply Forall_columns; exact Hnn).
    destruct (memory_of_columns_mono_values self
                (map column1 (dict_values data))
                (map column1 (dict_values data'))) as (r & r' & E & E' & H);
      try assumption.
    + apply Forall_columns. eapply Forall_impl; [|exact Hseries].
      intros [i values] Hi. simpl in *. rewrite column1_nil. exact Hi.
    + unfold data, data' in *. rewrite columns_with_sample in Hcols.
      rewrite !columns_with_sample.
      apply Forall_app in Hcols as [Hpre Hrest].
      inversion Hrest as [|? ? Hrow Hpost]; subst.
      apply Forall_app in Hrow as [Hbefore Hafter].
      inversion Hafter as [|? ? Hv0 Hafter']; subst.
      apply Forall2_app; [apply columns_le_refl, Hpre|].
      constructor; [|apply columns_le_refl, Hpost].
      apply Forall2_app; [apply pointwise_le_refl, Hbefore|].
      constructor; [exact Hv|apply pointwise_le_refl, Hafter'].
    + exists r, r'. repeat split; try assumption.
      apply ltb_false_leb_result, H.
Qed.

Lemma calculate_memory_proposal_monotone_witness :
  let low := {| cpu_percentile := 99; memory_buffer_percentage := 5 |} in
  let high := {| cpu_percentile := 99; memory_buffer_percentage := 7.5 |} in
  let app := [(0, 10); (60, 20)]%float in
  (exists r1 r2,
      calculate_memory_proposal low
        [("app"%string, app); ("sidecar"%string, [(0, 25)]%float)] = Ok r1 /\
      calculate_memory_proposal high
        [("app"%string, app); ("sidecar"%string, [(0, 25)]%float)] = Ok r2 /\
      (r2 <? r1)%float = false /\
      (not_nan r1 -> not_nan r2 -> (r1 <=? r2)%float = true)) /\
  (exists r r',
      calculate_memory_proposal low
        (with_sample [("app"%string, app)] "sidecar"%string
           [(0, 25)]%float 60%float 3%float [] []) = Ok r /\
      calculate_memory_proposal low
        (with_sample [("app"%string, app)] "sidecar"%string
           [(0, 25)]%float 60%float 30%float [] []) = Ok r' /\
      (r' <? r)%float = false /\
      (not_nan r -> not_nan r' -> (r <=? r')%float = true)).
Proof.
  intros low high app. split.
  - apply (proj1 calculate_memory_proposal_monotone low high);
      try (split; reflexivity); try reflexivity;
      repeat constructor; discriminate.
  - apply (proj2 calculate_memory_proposal_monotone low);
      try (split; reflexivity); try reflexivity;
      repeat constructor; discriminate.
Defined.

(** * Pooled samples

    The proposals read a container mapping through [pooled]: the memory
    proposal through the largest pooled value, the CPU proposal through the
    percentile of the pooled values. *)

Lemma comprehension_app {A B : Type} (f : A -> result B) (l1 l2 : list A) :
  comprehension f (l1 ++ l2) =
  (bs1 <- comprehension f l1 ;;
   bs2 <- comprehension f l2 ;;
   Ok (bs1 ++ bs2)).
Proof.
  induction l1 as [|a l1 IH]; simpl.
  - destruct (comprehension f l2); reflexivity.
  - destruct (f a) as [b|e]; simpl; [|reflexivity]. rewrite IH.
    destruct (comprehension f l1) as [bs1|e]; simpl; [|reflexivity].
    destruct (comprehension f l2) as [bs2|e]; reflexivity.
Qed.

Lemma Forall_concat {A : Type} (P : A -> Prop) (ls : list (list A)) :
  Forall (Forall P) ls <-> Forall P (concat ls).
Proof.
  induction ls as [|l ls IH]; simpl.
  - split; constructor.
  - rewrite Forall_app, <- IH. split.
    + intro H. inversion H; subst. split; assumption.
    + intros [H1 H2]. constructor; assumption.
Qed.

Lemma below_some_peak (columns : list (list float)) (peaks : list float)
  (x : float) :
  Forall2 maximum_of columns peaks -> In x (concat columns) ->
  exists p, In p peaks /\ (x <=? p)%float = true.
Proof.
  induction 1 as [|c p columns peaks [_ Hc] _ IH]; intro Hx; [contradiction|].
  simpl in Hx. apply in_app_or in Hx as [Hx|Hx].
  - exists p. split; [left; reflexivity|].
    rewrite Forall_forall in Hc. apply Hc, Hx.
  - destruct (IH Hx) as (q & Hq & Hle). exists q. split; [right|]; assumption.
Qed.

Lemma peak_is_sample (columns : list (list float)) (peaks : list float)
  (p : float) :
  Forall2 maximum_of columns peaks -> In p peaks -> In p (concat columns).
Proof.
  induction 1 as [|c q columns peaks [Hc _] _ IH]; intro Hp; [contradiction|].
  simpl. apply in_or_app.
  destruct Hp as [->|Hp]; [left; exact Hc|right; exact (IH Hp)].
Qed.

Lemma maximum_of_concat (columns : list (list float)) (peaks : list float)
  (peak : float) :
  Forall2 maximum_of columns peaks -> maximum_of peaks peak ->
  maximum_of (concat columns) peak.
Proof.
  intros F [Hin Hall]. split.
  - eapply peak_is_sample; eassumption.
  - rewrite Forall_forall in Hall. apply Forall_forall. intros x Hx.
    destruct (below_some_peak _ _ _ F Hx) as (p & Hp & Hle).
    apply (leb_trans _ p); [exact Hle|apply Hall, Hp].
Qed.

Lemma columns_nonempty (data : ContainerData) :
  Forall (fun item => snd item <> []) data ->
  Forall (fun c => c <> []) (map column1 (dict_values data)).
Proof.
  intro H. apply Forall_columns. eapply Forall_impl; [|exact H].
  intros [i v] Hv. simpl in *. rewrite column1_nil. exact Hv.
Qed.

Lemma columns_not_nil (data : ContainerData) :
  data <> [] -> map column1 (dict_values data) <> [].
Proof. destruct data; [contradiction|discriminate]. Qed.

Lemma memory_of_columns_pooled (self : SimpleStrategySettings)
  (columns : list (list float)) :
  columns <> [] -> Forall (fun c => c <> []) columns ->
  Forall not_nan (concat columns) ->
  exists peak,
    maximum_of (concat columns) peak /\
    memory_of_columns self columns =
      Ok (peak * (1 + memory_buffer_percentage self / 100))%float.
Proof.
  intros Hne Hseries Hnan.
  destruct (memory_of_columns_peak columns Hne Hseries)
    as (peaks & peak & _ & _ & Hval & Hmax).
  destruct Hmax as [F M]; [apply Forall_concat, Hnan|].
  exists peak. split; [eapply maximum_of_concat; eassumption|apply Hval].
Qed.

Lemma pooled_not_nil (data : ContainerData) :
  data <> [] -> Forall (fun item => snd item <> []) data -> pooled data <> [].
Proof.
  intros Hne Hs E. apply pooled_nil in E.
  destruct data as [|item data]; [contradiction|].
  inversion Hs; inversion E; subst. contradiction.
Qed.

(** * NaN samples

    [np.max] hands a NaN on; Python's [max] keeps its first item when that is
    a NaN and steps over a NaN that comes later, as every comparison with a
    NaN is false. *)

Lemma is_nan_true (x : float) :
  PrimFloat.is_nan x = true <-> Prim2SF x = S754_nan.
Proof.
  split; intro H.
  - destruct (Prim2SF x) eqn:E; try reflexivity;
      assert (N : PrimFloat.is_nan x = false)
        by (apply is_nan_false; rewrite E; discriminate);
      rewrite N in H; discriminate.
  - destruct (PrimFloat.is_nan x) eqn:N; [reflexivity|].
    apply is_nan_false in N. contradiction.
Qed.

Lemma ltb_nan_r (x n : float) :
  PrimFloat.is_nan n = true -> (x <? n)%float = false.
Proof.
  rewrite is_nan_true, ltb_spec. intros ->. apply SFltb_nan_r.
Qed.

Lemma ltb_nan_l (x n : float) :
  PrimFloat.is_nan n = true -> (n <? x)%float = false.
Proof. rewrite is_nan_true, ltb_spec. intros ->. reflexivity. Qed.

Lemma leb_nan_l (x n : float) :
  PrimFloat.is_nan n = true -> (n <=? x)%float = false.
Proof. rewrite is_nan_true, leb_spec. intros ->. reflexivity. Qed.

Lemma mul_nan_l (n x : float) :
  PrimFloat.is_nan n = true -> PrimFloat.is_nan (n * x)%float = true.
Proof.
  rewrite !is_nan_true, mul_spec. intros ->. reflexivity.
Qed.

Lemma fold_np_maximum_nan_acc (xs : list float) (n : float) :
  PrimFloat.is_nan n = true -> fold_left np_maximum xs n = n.
Proof.
  intro H. induction xs as [|x xs IH]; [reflexivity|]. simpl.
  unfold np_maximum at 2. rewrite H, orb_true_r. exact IH.
Qed.

Lemma fold_np_maximum_nan (xs : list float) (x : float) :
  has_nan (x :: xs) -> PrimFloat.is_nan (fold_left np_maximum xs x) = true.
Proof.
  revert x. induction xs as [|y xs IH]; intros x H.
  - inversion H as [? ? Hx|? ? Hx]; [exact Hx|inversion Hx].
  - simpl. destruct (PrimFloat.is_nan x) eqn:Nx.
    + unfold np_maximum at 2. rewrite Nx, orb_true_r.
      rewrite fold_np_maximum_nan_acc; assumption.
    + apply IH. inversion H as [? ? Hx|? ? Hx]; [congruence|].
      inversion Hx as [? ? Hy|? ? Hy].
      * apply Exists_cons_hd. unfold np_maximum.
        rewrite Nx, orb_false_r, (leb_nan_l x y Hy). exact Hy.
      * apply Exists_cons_tl. exact Hy.
Qed.

Lemma np_max_nan (a : list float) :
  has_nan a -> exists n, np_max a = Ok n /\ PrimFloat.is_nan n = true.
Proof.
  destruct a as [|x xs]; intro H; [inversion H|].
  eexists. split; [reflexivity|]. apply fold_np_maximum_nan, H.
Qed.

Lemma fold_py_step_nan_acc (xs : list float) (n : float) :
  PrimFloat.is_nan n = true ->
  fold_left (fun acc item => if (acc <? item)%float then item else acc) xs n = n.
Proof.
  intro H. induction xs as [|x xs IH]; [reflexivity|]. simpl.
  rewrite (ltb_nan_l x n H). exact IH.
Qed.

Lemma py_max_skips_nan (x n : float) (l1 l2 : list float) :
  PrimFloat.is_nan n = true ->
  py_max (x :: l1 ++ n :: l2) = py_max (x :: l1 ++ l2).
Proof.
  intro H. unfold py_max. f_equal. rewrite !fold_left_app. simpl.
  rewrite (ltb_nan_r _ n H). reflexivity.
Qed.

(** * Plain floats

    On floats that are +0, positive or +infinity the order is antisymmetric,
    so that a list of them has one maximum. *)

Lemma SFleb_antisym_nonneg (x y : spec_float) :
  SFleb (S754_zero false) x = true -> SFleb (S754_zero false) y = true ->
  x <> S754_zero true -> y <> S754_zero true ->
  SFleb x y = true -> SFleb y x = true -> x = y.
Proof.
  intros Nx Ny Zx Zy.
  destruct (SFleb_zero_cases x Nx) as [[[] ->]|[->|(mx & ex & ->)]];
    destruct (SFleb_zero_cases y Ny) as [[[] ->]|[->|(my & ey & ->)]];
    try contradiction; try reflexivity; try discriminate;
    try (intros H; discriminate H); try (intros _ H; discriminate H).
  unfold SFleb. simpl.
  destruct (Z.compare_spec ex ey) as [E|L|G];
    destruct (Z.compare_spec ey ex) as [E'|L'|G']; try lia;
    try (intros H; discriminate H); try (intros _ H; discriminate H).
  subst ey.
  change (Pos.compare_cont Eq mx my) with (Pos.compare mx my).
  change (Pos.compare_cont Eq my mx) with (Pos.compare my mx).
  destruct (Pos.compare_spec mx my); destruct (Pos.compare_spec my mx);
    try lia; try (intros H1; discriminate H1);
    try (intros _ H1; discriminate H1).
  subst. reflexivity.
Qed.

Lemma plain_spec (x : float) :
  plain x ->
  SFleb (S754_zero false) (Prim2SF x) = true /\ Prim2SF x <> S754_zero true.
Proof.
  intros [Hn Hz]. unfold nonneg in Hn. rewrite leb_spec in Hn. split.
  - exact Hn.
  - intro E. apply Hz. apply Prim2SF_inj. rewrite E. reflexivity.
Qed.

Lemma leb_antisym_plain (x y : float) :
  plain x -> plain y ->
  (x <=? y)%float = true -> (y <=? x)%float = true -> x = y.
Proof.
  intros Px Py. destruct (plain_spec x Px) as [Nx Zx].
  destruct (plain_spec y Py) as [Ny Zy]. rewrite !leb_spec. intros H1 H2.
  apply Prim2SF_inj. apply SFleb_antisym_nonneg; assumption.
Qed.

Lemma plain_not_nan (x : float) : plain x -> not_nan x.
Proof. intros [H _]. apply nonneg_not_nan, H. Qed.

Lemma plain_pos (x : float) : (0 <? x)%float = true -> plain x.
Proof.
  intro H. split; [apply ltb_leb, H|]. intros ->. discriminate H.
Qed.

Lemma maximum_of_unique (l l' : list float) (m m' : float) :
  Forall plain l -> Permutation l l' ->
  maximum_of l m -> maximum_of l' m' -> m = m'.
Proof.
  intros Hp Hperm [Hin Hall] [Hin' Hall'].
  rewrite Forall_forall in Hp, Hall, Hall'.
  assert (Hm' : In m' l) by (apply (Permutation_in _ (Permutation_sym Hperm)), Hin').
  assert (Hm : In m l') by (apply (Permutation_in _ Hperm), Hin).
  apply leb_antisym_plain; auto.
Qed.

(** * Finite floats *)

Lemma finite_spec (x : float) :
  finite x ->
  (exists s, Prim2SF x = S754_zero s) \/
  (exists s m e, Prim2SF x = S754_finite s m e).
Proof.
  unfold finite. rewrite ltb_spec, abs_spec.
  change (Prim2SF PrimFloat.infinity) with (S754_infinity false).
  destruct (Prim2SF x) as [s|s| |s m e]; intro H; try discriminate H.
  - left. exists s. reflexivity.
  - right. exists s, m, e. reflexivity.
Qed.

Lemma finite_not_nan (x : float) : finite x -> not_nan x.
Proof.
  intro H. apply is_nan_false.
  destruct (finite_spec x H) as [[s ->]|(s & m & e & ->)]; discriminate.
Qed.

Lemma plain_finite_spec (M : float) :
  plain M -> finite M ->
  Prim2SF M = S754_zero false \/ exists m e, Prim2SF M = S754_finite false m e.
Proof.
  intros Hp Hf. destruct (plain_spec M Hp) as [N Z].
  destruct (SFleb_zero_cases _ N) as [[[] E]|[E|(m & e & E)]].
  - contradiction.
  - left. exact E.
  - apply finite_spec in Hf. rewrite E in Hf.
    destruct Hf as [[s Hs]|(s & m & e & Hs)]; discriminate.
  - right. exists m, e. exact E.
Qed.

Lemma SFsub_diag (x : spec_float) :
  (exists s, x = S754_zero s) \/ (exists s m e, x = S754_finite s m e) ->
  SFsub prec emax x x = S754_zero false.
Proof.
  intros [[[] ->]|(s & m & e & ->)]; try reflexivity.
  cbn [SFsub]. rewrite Z.sub_diag. reflexivity.
Qed.

Lemma SFsub_zero_r (x : spec_float) :
  (exists s, x = S754_zero s) \/ (exists s m e, x = S754_finite s m e) ->
  SFsub prec emax x (S754_zero false) = x.
Proof. intros [[[] ->]|(s & m & e & ->)]; reflexivity. Qed.

Lemma SFmul_zero_finite (t : spec_float) :
  SFfinite t -> exists s, SFmul prec emax (S754_zero false) t = S754_zero s.
Proof.
  destruct t as [s|s| |s m e]; intro H; try contradiction.
  - exists (xorb false s). reflexivity.
  - exists (xorb false s). reflexivity.
Qed.

(** * Sorting

    [np_sort] gives a sorted permutation of its argument; sorted lists of
    plain floats with the same elements are the same list. *)

Lemma sort_le_total (x y : float) : sort_le x y = false -> sort_le y x = true.
Proof.
  unfold sort_le. destruct (PrimFloat.is_nan y) eqn:Ny; [discriminate|].
  destruct (PrimFloat.is_nan x) eqn:Nx; [reflexivity|].
  apply leb_false_leb; assumption.
Qed.

Lemma sort_le_trans (x y z : float) :
  sort_le x y = true -> sort_le y z = true -> sort_le x z = true.
Proof.
  unfold sort_le.
  destruct (PrimFloat.is_nan z) eqn:Nz; [reflexivity|].
  destruct (PrimFloat.is_nan y) eqn:Ny; [discriminate|].
  destruct (PrimFloat.is_nan x) eqn:Nx; [discriminate|].
  apply leb_trans.
Qed.

Lemma insert_sorted_perm (x : float) (l : list float) :
  Permutation (insert_sorted x l) (x :: l).
Proof.
  induction l as [|y l IH]; simpl; [reflexivity|].
  destruct (sort_le x y); [reflexivity|].
  rewrite IH. apply perm_swap.
Qed.

Lemma np_sort_perm (a : list float) : Permutation (np_sort a) a.
Proof.
  induction a as [|x a IH]; simpl; [reflexivity|].
  unfold np_sort in *. simpl. rewrite insert_sorted_perm, IH. reflexivity.
Qed.

Lemma insert_sorted_sorted (x : float) (l : list float) :
  sorted l -> sorted (insert_sorted x l).
Proof.
  unfold sorted. induction 1 as [|y l Hs IH Hy]; simpl.
  - constructor; constructor.
  - destruct (sort_le x y) eqn:E.
    + constructor; [constructor; assumption|].
      constructor; [exact E|].
      eapply Forall_impl; [|exact Hy]. intros z Hz.
      eapply sort_le_trans; eassumption.
    + constructor; [exact IH|].
      apply (Permutation_Forall (Permutation_sym (insert_sorted_perm x l))).
      constructor; [apply sort_le_total, E|exact Hy].
Qed.

Lemma np_sort_sorted (a : list float) : sorted (np_sort a).
Proof.
  induction a as [|x a IH]; [constructor|].
  apply insert_sorted_sorted, IH.
Qed.

Lemma sorted_unique (l l' : list float) :
  sorted l -> sorted l' -> Permutation l l' ->
  (forall x y, In x l -> In y l ->
               sort_le x y = true -> sort_le y x = true -> x = y) ->
  l = l'.
Proof.
  unfold sorted. intros Hs. revert l'.
  induction Hs as [|x l Hs IH Hx]; intros l' Hs' Hp Hanti.
  - apply Permutation_nil in Hp. subst. reflexivity.
  - destruct Hs' as [|y l' Hs' Hy].
    + apply Permutation_sym, Permutation_nil in Hp. discriminate.
    + assert (E : x = y).
      { rewrite Forall_forall in Hx, Hy.
        assert (Hyin : In y (x :: l))
          by (apply (Permutation_in _ (Permutation_sym Hp)); left; reflexivity).
        assert (Hxin : In x (y :: l'))
          by (apply (Permutation_in _ Hp); left; reflexivity).
        destruct Hyin as [->|Hyin]; [reflexivity|].
        destruct Hxin as [->|Hxin]; [reflexivity|].
        apply Hanti; [left; reflexivity|right; exact Hyin|apply Hx, Hyin|
                       apply Hy, Hxin]. }
      subst y. f_equal. apply IH; [exact Hs'| |].
      * eapply Permutation_cons_inv, Hp.
      * intros a b Ha Hb. apply Hanti; right; assumption.
Qed.

Lemma sort_le_plain (x y : float) :
  plain x -> plain y -> sort_le x y = (x <=? y)%float.
Proof.
  intros Px Py. unfold sort_le.
  rewrite (plain_not_nan y Py), (plain_not_nan x Px). reflexivity.
Qed.

Lemma np_sort_permutation (a a' : list float) :
  Forall plain a -> Permutation a a' -> np_sort a = np_sort a'.
Proof.
  intros Hp Hperm. apply sorted_unique; try apply np_sort_sorted.
  - apply (Permutation_trans (np_sort_perm a)).
    apply (Permutation_trans Hperm). apply Permutation_sym, np_sort_perm.
  - rewrite Forall_forall in Hp. intros x y Hx Hy.
    apply (Permutation_in _ (np_sort_perm a)) in Hx, Hy.
    rewrite !sort_le_plain by auto. apply leb_antisym_plain; auto.
Qed.

Lemma np_percentile_permutation (a a' : list float) (q : float) :
  Forall plain a -> Permutation a a' ->
  np_percentile a q = np_percentile a' q.
Proof.
  intros Hp Hperm. unfold np_percentile, quantile.
  rewrite (np_sort_permutation a a' Hp Hperm).
  unfold len. rewrite (Permutation_length Hperm).
  destruct a as [|x a], a' as [|x' a']; try reflexivity.
  - apply Permutation_nil in Hperm. discriminate.
  - apply Permutation_sym, Permutation_nil in Hperm. discriminate.
Qed.

Lemma nth_pred_length (l : list float) (d : float) :
  nth (length l - 1) l d = last l d.
Proof.
  induction l as [|x l IH]; [reflexivity|].
  destruct l as [|y l]; [reflexivity|].
  change (last (x :: y :: l) d) with (last (y :: l) d). rewrite <- IH.
  simpl length. rewrite !Nat.sub_succ, !Nat.sub_0_r. reflexivity.
Qed.

Lemma take_last (l : list float) : take l (-1) = last l PrimFloat.nan.
Proof.
  rewrite <- nth_pred_length. unfold take, len.
  change (-1 <? 0)%Z with true. cbv iota. f_equal. lia.
Qed.

Lemma sorted_last_nan (l : list float) :
  sorted l -> has_nan l -> PrimFloat.is_nan (last l PrimFloat.nan) = true.
Proof.
  unfold sorted, has_nan. induction 1 as [|x l Hs IH Hx]; intro H.
  - inversion H.
  - destruct l as [|y l].
    + inversion H as [? ? Hn|? ? Hn]; [exact Hn|inversion Hn].
    + change (last (x :: y :: l) PrimFloat.nan)
        with (last (y :: l) PrimFloat.nan).
      apply IH. inversion H as [? ? Hn|? ? Hn]; [|exact Hn].
      inversion Hx as [|? ? Hxy _]; subst.
      apply Exists_cons_hd. unfold sort_le in Hxy.
      destruct (PrimFloat.is_nan y); [reflexivity|].
      rewrite Hn in Hxy. discriminate.
Qed.

Lemma sorted_last_maximum (l : list float) :
  sorted l -> Forall not_nan l -> l <> [] ->
  maximum_of l (last l PrimFloat.nan).
Proof.
  unfold sorted. induction 1 as [|x l Hs IH Hx]; intros Hn Hne;
    [contradiction|].
  inversion Hn as [|? ? Nx Nl]; subst.
  destruct l as [|y l].
  - split; [left; reflexivity|]. constructor; [apply leb_refl, Nx|constructor].
  - change (last (x :: y :: l) PrimFloat.nan) with (last (y :: l) PrimFloat.nan).
    destruct (IH Nl ltac:(discriminate)) as [Hin Hall]. split.
    + right. exact Hin.
    + constructor; [|exact Hall].
      rewrite Forall_forall in Hx, Nl.
      specialize (Hx _ Hin). unfold sort_le in Hx.
      rewrite (Nl _ Hin), Nx in Hx. exact Hx.
Qed.

(** * Rounding bounds

    Rounding a real below 2^1023 gives a finite float, whose value is at most
    twice the real plus one; multiplying a float that is zero or above by 1
    gives the float back. *)

Section RoundingBounds.

Local Open Scope R_scope.

Lemma rounds_to_unique (v : R) (r1 r2 : spec_float) :
  rounds_to v r1 -> rounds_to v r2 -> r1 = r2.
Proof.
  intros H1 H2.
  pose proof (rounds_to_mono v v r1 r2 H1 H2 (Rle_refl v)) as L12.
  pose proof (rounds_to_mono v v r2 r1 H2 H1 (Rle_refl v)) as L21.
  apply SFleb_antisym_nonneg; try assumption.
  - eapply rounds_to_zero_le, H1.
  - eapply rounds_to_zero_le, H2.
  - destruct (rounds_to_nonneg v r1 H1) as [->|[->|(m & e & -> & _)]];
      discriminate.
  - destruct (rounds_to_nonneg v r2 H2) as [->|[->|(m & e & -> & _)]];
      discriminate.
Qed.

Lemma fval_one : fval 4503599627370496 (-52) = 1%R.
Proof.
  unfold fval. pose proof (bpow_opp 52) as H.
  rewrite (bpow_IZR 52) in H by lia.
  change (2 ^ 52)%Z with 4503599627370496%Z in H.
  change (- (52))%Z with (-52)%Z in H. lra.
Qed.

Lemma SFmul_one (x : spec_float) :
  valid_binary x = true -> SFleb (S754_zero false) x = true ->
  SFmul prec emax x (S754_finite false 4503599627370496 (-52)) = x.
Proof.
  intros V N.
  destruct (SFleb_zero_cases x N) as [[[] ->]|[->|(m & e & ->)]];
    try reflexivity.
  apply (rounds_to_unique (fval m e)).
  - replace (fval m e) with (fval m e * fval 4503599627370496 (-52))%R
      by (rewrite fval_one; lra).
    apply SFmul_rounds; [exact V|reflexivity].
  - apply rounds_to_self. exact V.
Qed.

Lemma rounds_to_value_upper (v : R) (m : positive) (e : Z) :
  rounds_to v (S754_finite false m e) -> fval m e <= 2 * v + 1.
Proof.
  intros (c & n & l & Hc & Hp & Hn & [[_ H]|(mf & ef & V & _ & [[_ H]|[_ H]])]);
    try discriminate H.
  injection H as <- <-. unfold fval. rewrite V.
  pose proof (rne_bounds n l) as B. pose proof (pos_of_bounds _ _ _ Hp) as P.
  pose proof (bpow_pos c) as Pc.
  assert (Hv : IZR n * bpow c <= v).
  { rewrite <- (unscale v c). apply scaled_le. lra. }
  assert (Hr : IZR (round_nearest_even n l) <= IZR n + 1).
  { rewrite <- plus_IZR. apply IZR_le. lia. }
  assert (Hb : bpow c <= v + 1).
  { destruct Hc as [[H1 ->]|[[H1 _] H2]].
    - assert (bpow (-1074) <= bpow 0) by (apply bpow_le; lia).
      rewrite bpow_0 in H.
      assert (0 <= v); [|lra].
      apply Rle_trans with (IZR n * bpow (-1074)); [|exact Hv].
      apply Rmult_le_pos; [apply IZR_le; lia|lra].
    - assert (bpow c <= bpow (c + 52)) by (apply bpow_le; lia). lra. }
  nra.
Qed.

Lemma rounds_to_finite (v : R) (r : spec_float) :
  rounds_to v r -> v < bpow 1023 -> r <> S754_infinity false.
Proof.
  intros (c & n & l & Hc & Hp & Hn & [[_ ->]|(mf & ef & V & C & [[_ ->]|[B _]])]);
    intros Hv; try discriminate.
  exfalso.
  destruct (canonical_value_bounds mf ef C) as [_ L].
  assert (L' : bpow (ef + 52) <= IZR (Zpos mf) * bpow ef) by (apply L; lia).
  pose proof (scaled_mantissa_upper _ _ _ _ Hc Hp) as U.
  pose proof (rne_bounds n l) as Bn.
  assert (Hr : IZR (round_nearest_even n l) * bpow c <= bpow (c + 53)).
  { rewrite (Z.add_comm c), bpow_add. apply scaled_le.
    rewrite bpow_IZR by lia. apply IZR_le. lia. }
  rewrite V in L'.
  assert (ef + 52 <= c + 53)%Z.
  { destruct (Z.le_gt_cases (ef + 52) (c + 53)) as [|G]; [assumption|].
    apply bpow_lt in G. lra. }
  assert (Hn' : (-1074 < c)%Z) by lia.
  pose proof (cexp_of_normal _ _ Hc Hn').
  assert (bpow 1023 <= bpow (c + 52)) by (apply bpow_le; lia). lra.
Qed.

Lemma rounds_to_small (v B : R) (r : spec_float) :
  rounds_to v r -> 2 * v + 1 <= B -> B < bpow 1023 -> small_nonneg B r.
Proof.
  intros H HB HB'. pose proof (bpow_pos 1023) as P.
  pose proof (rounds_to_finite v r H ltac:(lra)) as Hfin.
  destruct (rounds_to_nonneg v r H) as [->|[->|(m & e & -> & Hb & _)]].
  - left. reflexivity.
  - contradiction.
  - right. exists m, e. split; [reflexivity|]. split; [exact Hb|].
    pose proof (rounds_to_value_upper v m e H). lra.
Qed.

Lemma float_of_Z_small (z : Z) :
  (0 <= z)%Z -> small_nonneg (bpow 65) (Prim2SF (float_of_Z z)).
Proof.
  intro Hz. destruct z as [|p|p]; [left; reflexivity| |lia].
  unfold float_of_Z. rewrite of_uint63_spec.
  pose proof (Uint63.to_Z_bounded (Uint63.of_Z (Zpos p))) as Hb.
  destruct (Uint63Axioms.to_Z (Uint63.of_Z (Zpos p))) as [|n|n];
    [left; reflexivity| |lia].
  cbn [binary_normalize].
  apply (rounds_to_small (fval n 0)); [apply binary_round_rounds| |].
  - unfold fval. rewrite bpow_0, Rmult_1_r.
    assert (IZR (Zpos n) <= IZR (2 ^ 63)).
    { apply IZR_le. change Uint63Axioms.wB with (2 ^ 63)%Z in Hb. lia. }
    rewrite <- bpow_IZR in H by lia.
    replace 65%Z with (63 + 1 + 1)%Z by lia. rewrite !bpow_succ.
    pose proof (bpow_pos 63).
    assert (1 <= bpow 63); [|lra].
    change 1 with (bpow 0). apply bpow_le. lia.
  - apply bpow_lt. lia.
Qed.

Lemma small_nonneg_nonneg (B : R) (x : float) :
  small_nonneg B (Prim2SF x) -> nonneg x.
Proof.
  unfold nonneg. rewrite leb_spec. change (Prim2SF 0%float) with (S754_zero false).
  intros [->|(m & e & -> & _)]; reflexivity.
Qed.

Lemma small_nonneg_finite (B : R) (x : spec_float) :
  small_nonneg B x -> SFfinite x.
Proof. intros [->|(m & e & -> & _)]; simpl; auto. Qed.

Lemma gamma_small (x : spec_float) :
  small_nonneg (bpow 65) x ->
  small_nonneg (bpow 67)
    (SFsub prec emax x (S754_finite true 4503599627370496 (-52))).
Proof.
  intros [->|(m & e & -> & Hb & Hv)].
  - right. exists 4503599627370496%positive, (-52)%Z.
    split; [reflexivity|]. split; [reflexivity|].
    rewrite fval_one. change 1 with (bpow 0). apply bpow_le. lia.
  - change (SFsub prec emax (S754_finite false m e)
              (S754_finite true 4503599627370496 (-52)))
      with (SFadd prec emax (S754_finite false m e)
              (S754_finite false 4503599627370496 (-52))).
    apply (rounds_to_small (fval m e + fval 4503599627370496 (-52)));
      [apply SFadd_rounds| |apply bpow_lt; lia].
    rewrite fval_one. replace 67%Z with (65 + 1 + 1)%Z by lia.
    rewrite !bpow_succ. pose proof (bpow_pos 65).
    assert (2 <= bpow 65); [|lra].
    rewrite <- bpow_1. apply bpow_le. lia.
Qed.

Lemma binary_round_sign (m : positive) (e : Z) :
  binary_round prec emax true m e =
  SFopp (binary_round prec emax false m e).
Proof.
  unfold binary_round. destruct (shl_align m e _) as [mz ez].
  unfold binary_round_aux. destruct (shr_fexp prec emax (Zpos mz) ez loc_Exact)
    as [mrs e'].
  destruct (shr_fexp prec emax _ e' loc_Exact) as [mrs' e''].
  destruct (shr_m mrs') as [|p|p]; try reflexivity.
  destruct (e'' <=? emax - prec)%Z; reflexivity.
Qed.

Lemma binary_round_finite (m : positive) (e : Z) (s : bool) :
  fval m e < bpow 1023 -> SFfinite (binary_round prec emax s m e).
Proof.
  intro H. pose proof (binary_round_rounds m e) as Hr.
  pose proof (rounds_to_finite _ _ Hr H) as Hfin.
  assert (Hf : SFfinite (binary_round prec emax false m e)).
  { destruct (rounds_to_nonneg _ _ Hr) as [E|[E|(m' & e' & E & _)]];
      rewrite E in *; simpl; auto. }
  destruct s; [|exact Hf]. rewrite binary_round_sign.
  destruct (binary_round prec emax false m e); simpl in *; auto.
Qed.

Lemma one_minus_finite (x : spec_float) :
  small_nonneg (bpow 67) x ->
  SFfinite (SFsub prec emax (S754_finite false 4503599627370496 (-52)) x).
Proof.
  intros [->|(m & e & -> & Hb & Hv)]; [simpl; auto|].
  cbn [SFsub cond_Zopp].
  destruct (shl_align_spec 4503599627370496 (-52) (Z.min (-52) e))
    as (V1 & S1 & _).
  destruct (shl_align_spec m e (Z.min (-52) e)) as (V2 & S2 & _).
  set (a := fst (shl_align 4503599627370496 (-52) (Z.min (-52) e))) in *.
  set (b := fst (shl_align m e (Z.min (-52) e))) in *.
  replace (snd (shl_align 4503599627370496 (-52) (Z.min (-52) e)))
    with (Z.min (-52) e) in V1 by lia.
  replace (snd (shl_align m e (Z.min (-52) e)))
    with (Z.min (-52) e) in V2 by lia.
  rewrite fval_one in V1.
  assert (Hbig : bpow 67 + 1 < bpow 1023).
  { assert (bpow 68 < bpow 1023) by (apply bpow_lt; lia).
    replace 68%Z with (67 + 1)%Z in H by lia. rewrite bpow_succ in H.
    assert (1 <= bpow 67); [|lra].
    change 1 with (bpow 0). apply bpow_le. lia. }
  pose proof (bpow_pos (Z.min (-52) e)) as Pz.
  destruct (Zpos a - Zpos b)%Z as [|p|p] eqn:E; cbn [binary_normalize];
    [simpl; auto| |]; apply binary_round_finite; unfold fval in *.
  - assert (IZR (Zpos p) = IZR (Zpos a) - IZR (Zpos b))
      by (rewrite <- E, minus_IZR; reflexivity).
    assert (0 < IZR (Zpos b)) by (apply IZR_lt; lia). nra.
  - assert (IZR (Zpos p) = IZR (Zpos b) - IZR (Zpos a)).
    { change (Zpos p) with (- Zneg p)%Z. rewrite <- E, opp_IZR, minus_IZR. lra. }
    assert (0 < IZR (Zpos a)) by (apply IZR_lt; lia). nra.
Qed.

End RoundingBounds.

Lemma float_mul_one (x : float) : nonneg x -> (x * 1)%float = x.
Proof.
  unfold nonneg. rewrite leb_spec. intro N.
  apply Prim2SF_inj. rewrite mul_spec.
  change (Prim2SF 1%float) with (S754_finite false 4503599627370496 (-52)).
  apply SFmul_one; [apply Prim2SF_valid|exact N].
Qed.

Lemma one_le_multiplier (b : float) :
  (0 <? b)%float = true -> (1 <=? multiplier b)%float = true.
Proof.
  intro H0.
  assert (Hb : (b <=? b)%float = true).
  { apply leb_refl. apply (leb_not_nan 0 b). apply ltb_leb. exact H0. }
  destruct (float_div100_mono b b H0 Hb) as [_ Hn].
  destruct (float_add1_mono 0 (b / 100) eq_refl Hn) as [H _].
  exact H.
Qed.

(** * Interpolation at the ends *)

Lemma lerp_same_upper (v : float) :
  finite v -> (v - (v - v) * 0)%float = v.
Proof.
  intro H. apply finite_spec in H. apply Prim2SF_inj.
  rewrite sub_spec, mul_spec, sub_spec.
  change (Prim2SF 0%float) with (S754_zero false).
  unfold SF64sub. rewrite (SFsub_diag _ H).
  change (SF64mul (S754_zero false) (S754_zero false)) with (S754_zero false).
  apply SFsub_zero_r, H.
Qed.

Lemma lerp_same (M t : float) :
  plain M -> finite M ->
  SFfinite (Prim2SF t) -> SFfinite (Prim2SF (1 - t)%float) ->
  lerp M M t = M.
Proof.
  intros Hp Hf Ht Ht'. unfold lerp.
  assert (Hd : Prim2SF (M - M)%float = S754_zero false).
  { rewrite sub_spec. apply SFsub_diag. apply finite_spec, Hf. }
  pose proof (plain_finite_spec M Hp Hf) as HM.
  destruct (0.5 <=? t)%float; apply Prim2SF_inj.
  - rewrite sub_spec, mul_spec, Hd. unfold SF64mul, SF64sub.
    destruct (SFmul_zero_finite _ Ht') as [s ->].
    destruct HM as [->|(m & e & ->)]; destruct s; reflexivity.
  - rewrite add_spec, mul_spec, Hd. unfold SF64mul, SF64add.
    destruct (SFmul_zero_finite _ Ht) as [s ->].
    destruct HM as [->|(m & e & ->)]; destruct s; reflexivity.
Qed.

Lemma zero_mul_quantile (q : float) :
  nonneg q -> (q <=? 1)%float = true ->
  exists s, Prim2SF (0 * q)%float = S754_zero s.
Proof.
  unfold nonneg. rewrite !leb_spec, mul_spec.
  change (Prim2SF 0%float) with (S754_zero false).
  change (Prim2SF 1%float) with (S754_finite false 4503599627370496 (-52)).
  intros N L.
  destruct (SFleb_zero_cases _ N) as [[s E]|[E|(m & e & E)]];
    rewrite E in *.
  - exists s. reflexivity.
  - discriminate L.
  - exists false. reflexivity.
Qed.

Lemma quantile_single (v q : float) :
  finite v -> nonneg q -> (q <=? 1)%float = true -> quantile [v] q = v.
Proof.
  intros Hv Hq H1. unfold quantile.
  change (len [v]) with 1%Z. change (float_of_Z (1 - 1)) with 0%float.
  destruct (zero_mul_quantile q Hq H1) as [s Hs].
  set (virtual_index := (0 * q)%float) in *.
  assert (Hidx : get_indexes virtual_index 1 = ((-1)%Z, (-1)%Z)).
  { unfold get_indexes.
    replace (PrimFloat.is_nan virtual_index) with false
      by (symmetry; apply is_nan_false; rewrite Hs; discriminate).
    change (float_of_Z (1 - 1)) with 0%float.
    rewrite ltb_spec, leb_spec, Hs.
    change (Prim2SF 0%float) with (S754_zero false).
    destruct s; reflexivity. }
  rewrite Hidx. change (np_sort [v]) with [v].
  change (take [v] (-1)) with v. rewrite (finite_not_nan v Hv).
  assert (Hgamma : (virtual_index - float_of_Z (-1))%float = 1%float).
  { apply Prim2SF_inj. rewrite sub_spec, Hs. destruct s; reflexivity. }
  rewrite Hgamma. unfold lerp.
  change (0.5 <=? 1)%float with true. cbv iota.
  change (1 - 1)%float with 0%float. apply lerp_same_upper, Hv.
Qed.

Lemma quantile_top (a : list float) :
  a <> [] -> Forall plain a -> Forall finite a ->
  quantile a 1 = last (np_sort a) PrimFloat.nan /\
  maximum_of a (last (np_sort a) PrimFloat.nan).
Proof.
  intros Hne Hp Hf.
  assert (Hperm : Permutation (np_sort a) a) by apply np_sort_perm.
  assert (Hmax : maximum_of (np_sort a) (last (np_sort a) PrimFloat.nan)).
  { apply sorted_last_maximum; [apply np_sort_sorted| |].
    - apply (Permutation_Forall (Permutation_sym Hperm)).
      eapply Forall_impl; [|exact Hp]. apply plain_not_nan.
    - intro E. rewrite E in Hperm. apply Permutation_nil in Hperm.
      contradiction. }
  set (M := last (np_sort a) PrimFloat.nan) in *.
  assert (HinM : In M a) by (apply (Permutation_in _ Hperm), Hmax).
  split.
  2:{ destruct Hmax as [_ Hall]. split; [exact HinM|].
      apply (Permutation_Forall Hperm), Hall. }
  rewrite Forall_forall in Hp, Hf.
  unfold quantile.
  assert (Hlen : (0 <= len a - 1)%Z).
  { destruct a; [contradiction|]. rewrite len_cons.
    pose proof (len_nonneg a). lia. }
  pose proof (float_of_Z_small _ Hlen) as Hsmall.
  set (top := float_of_Z (len a - 1)) in *.
  pose proof (small_nonneg_nonneg _ _ Hsmall) as Hnn.
  rewrite (float_mul_one top Hnn).
  assert (Hidx : get_indexes top (len a) = ((-1)%Z, (-1)%Z)).
  { unfold get_indexes. fold top.
    rewrite (nonneg_not_nan top Hnn).
    replace (top <? 0)%float with false.
    - rewrite (leb_refl top (nonneg_not_nan top Hnn)). reflexivity.
    - symmetry. unfold nonneg in Hnn. rewrite leb_spec in Hnn.
      rewrite ltb_spec. apply SFleb_ltb_false, Hnn. }
  rewrite Hidx, take_last. fold M.
  rewrite (plain_not_nan M (Hp M HinM)).
  pose proof (gamma_small _ Hsmall) as Hg.
  apply lerp_same; [apply Hp, HinM|apply Hf, HinM| |].
  - rewrite sub_spec. eapply small_nonneg_finite, Hg.
  - rewrite sub_spec, sub_spec. apply one_minus_finite, Hg.
Qed.

(** * When the proposals raise *)

Lemma series_dec (data : ContainerData) :
  Forall (fun item => snd item <> []) data \/
  Exists (fun item => snd item = []) data.
Proof.
  induction data as [|[id values] data [IH|IH]].
  - left. constructor.
  - destruct values as [|row values].
    + right. apply Exists_cons_hd. reflexivity.
    + left. constructor; [discriminate|exact IH].
  - right. apply Exists_cons_tl, IH.
Qed.

Lemma all_empty_dec (data : ContainerData) :
  Forall (fun item => snd item = []) data \/ pooled data <> [].
Proof.
  destruct (pooled data) eqn:E.
  - left. apply pooled_nil, E.
  - right. discriminate.
Qed.

Lemma cpu_proposal_raises_iff (self : SimpleStrategySettings)
  (data : ContainerData) :
  valid_settings self ->
  (raises (calculate_cpu_proposal self data) <->
   data <> [] /\ Forall (fun item => snd item = []) data).
Proof.
  intro Hvalid. destruct data as [|item data].
  - split; [intros [e He]; discriminate He|intros [H _]; contradiction].
  - rewrite calculate_cpu_proposal_pooled by discriminate.
    destruct (all_empty_dec (item :: data)) as [Hall|Hsome].
    + rewrite (proj2 (pooled_nil _) Hall), (np_percentile_empty self Hvalid).
      split; [intros _; split; [discriminate|exact Hall]|].
      intros _. exists IndexError. reflexivity.
    + rewrite (np_percentile_valid self _ Hvalid Hsome). split.
      * intros [e He]. discriminate He.
      * intros [_ Hall]. apply pooled_nil in Hall. contradiction.
Qed.

Lemma memory_proposal_raises_iff (self : SimpleStrategySettings)
  (data : ContainerData) :
  raises (calculate_memory_proposal self data) <->
  Exists (fun item => snd item = []) data.
Proof.
  rewrite calculate_memory_proposal_columns.
  destruct (series_dec data) as [Hall|Hex].
  - destruct (memory_of_columns_ok self _ (columns_nonempty data Hall))
      as [v Hv]. rewrite Hv. split.
    + intros [e He]. discriminate He.
    + intro Hex. exfalso. apply Exists_exists in Hex as (x & Hin & Hx).
      rewrite Forall_forall in Hall. exact (Hall x Hin Hx).
  - split; [intros _; exact Hex|]. intros _. exists ValueError.
    unfold memory_of_columns. rewrite comprehension_np_max_raises;
      [reflexivity|].
    apply Exists_columns. eapply Exists_impl; [|exact Hex].
    intros [i v] Hv. simpl in *. subst. reflexivity.
Qed.

Lemma result_cases {A : Type} (r : result A) :
  (exists a, r = Ok a) \/ raises r.
Proof. destruct r as [a|e]; [left; exists a|right; exists e]; reflexivity. Qed.

(** * The CPU proposal as a linear-interpolated percentile

    What numpy's [floor] leaves of a rank is its integer part; integers
    below 2^53 are floats; on values without a NaN, [quantile] is the
    linear-interpolated percentile. *)

Section IntegerPart.

Local Open Scope R_scope.

Lemma floor_index_spec (m : positive) (e : Z) (h : float) :
  Prim2SF h = S754_finite false m e ->
  IZR (floor_index h) <= fval m e < IZR (floor_index h) + 1.
Proof.
  intro E. unfold floor_index. rewrite E. unfold fval.
  destruct e as [|p|p].
  - rewrite Z.shiftl_0_r, bpow_0. lra.
  - rewrite Z.shiftl_mul_pow2 by lia. rewrite mult_IZR, <- bpow_IZR by lia. lra.
  - change (Z.opp (Zneg p)) with (Zpos p).
    rewrite Z.shiftr_div_pow2 by lia.
    pose proof (bpow_opp (Zpos p)) as Ho. change (- Zpos p)%Z with (Zneg p) in Ho.
    rewrite (bpow_IZR (Zpos p)) in Ho by lia.
    assert (Hd : (0 < 2 ^ Zpos p)%Z) by (apply Z.pow_pos_nonneg; lia).
    pose proof (Z.div_mod (Zpos m) (2 ^ Zpos p) ltac:(lia)) as Hdm.
    pose proof (Z.mod_pos_bound (Zpos m) (2 ^ Zpos p) Hd) as Hr.
    set (q := (Zpos m / 2 ^ Zpos p)%Z) in *.
    set (d := (2 ^ Zpos p)%Z) in *.
    assert (H1 : (d * q <= Zpos m)%Z) by lia.
    assert (H2 : (Zpos m < d * (q + 1))%Z) by lia.
    apply IZR_le in H1. apply IZR_lt in H2.
    rewrite mult_IZR in H1, H2. rewrite plus_IZR in H2.
    assert (Pd : 0 < IZR d) by (apply IZR_lt; exact Hd).
    pose proof (bpow_pos (Zneg p)) as Pb.
    assert (Hq : forall x, IZR d * x * bpow (Zneg p) = x).
    { intro x. transitivity (x * (bpow (Zneg p) * IZR d)); [ring|].
      rewrite Ho. ring. }
    split.
    + rewrite <- (Hq (IZR q)). apply Rmult_le_compat_r; lra.
    + rewrite <- (Hq (IZR q + 1)). apply Rmult_lt_compat_r; lra.
Qed.

Lemma rounds_to_integer (z : Z) (r : spec_float) :
  (0 < z < 2 ^ 53)%Z -> rounds_to (IZR z) r ->
  exists m e, r = S754_finite false m e /\
              SpecFloat.bounded prec emax m e = true /\ fval m e = IZR z.
Proof.
  intros Hz (c & n & l & Hc & Hp & Hn & Hres).
  assert (Hc0 : (c <= 0)%Z).
  { destruct Hc as [[_ ->]|[[L _] _]]; [lia|].
    assert (IZR z < bpow 53).
    { rewrite bpow_IZR by lia. apply IZR_lt. lia. }
    assert (bpow (c + 52) < bpow 53) by lra.
    apply bpow_lt_inv in H0. lia. }
  assert (Ht : IZR z * bpow (- c) = IZR (z * 2 ^ (- c))).
  { rewrite mult_IZR, bpow_IZR by lia. reflexivity. }
  rewrite Ht in Hp.
  assert (Hl : l = loc_Exact /\ n = (z * 2 ^ (- c))%Z).
  { destruct l as [|[]]; simpl in Hp.
    - split; [reflexivity|]. apply eq_IZR in Hp. symmetry. exact Hp.
    - exfalso.
      assert (IZR (2 * (z * 2 ^ (- c))) = IZR (2 * n + 1)).
      { rewrite (mult_IZR 2 (z * 2 ^ (- c))), plus_IZR, (mult_IZR 2 n). lra. }
      apply eq_IZR in H. lia.
    - exfalso. destruct Hp as [H1 H2]. apply lt_IZR in H1.
      assert (H3 : IZR (z * 2 ^ (- c)) < IZR (n + 1))
        by (rewrite plus_IZR; lra).
      apply lt_IZR in H3. lia.
    - exfalso. destruct Hp as [H1 H2].
      assert (H0 : IZR n < IZR (z * 2 ^ (- c))) by lra.
      apply lt_IZR in H0.
      rewrite <- plus_IZR in H2. apply lt_IZR in H2. lia. }
  destruct Hl as [-> ->]. cbn [round_nearest_even] in Hres.
  assert (Hpos : (0 < z * 2 ^ (- c))%Z).
  { apply Z.mul_pos_pos; [lia|]. apply Z.pow_pos_nonneg; lia. }
  assert (Hval : IZR (z * 2 ^ (- c)) * bpow c = IZR z).
  { rewrite <- Ht. apply unscale. }
  destruct Hres as [[E0 _]|(mf & ef & V & C & Hr)]; [lia|].
  rewrite Hval in V.
  destruct Hr as [[B ->]|[B ->]].
  - exists mf, ef. split; [reflexivity|]. split; [|exact V].
    unfold SpecFloat.bounded. rewrite C. apply Z.leb_le. exact B.
  - exfalso. destruct (canonical_value_bounds mf ef C) as [_ L].
    assert (bpow (ef + 52) <= IZR (Zpos mf) * bpow ef) by (apply L; lia).
    assert (IZR z < bpow 53).
    { rewrite bpow_IZR by lia. apply IZR_lt. lia. }
    assert (bpow (ef + 52) < bpow 53) by lra.
    apply bpow_lt_inv in H1. lia.
Qed.

Lemma float_of_Z_exact (z : Z) :
  (0 < z < 2 ^ 53)%Z ->
  exists m e, Prim2SF (float_of_Z z) = S754_finite false m e /\
              SpecFloat.bounded prec emax m e = true /\ fval m e = IZR z.
Proof.
  intro Hz. destruct z as [|p|p]; try lia.
  unfold float_of_Z. rewrite of_uint63_spec, Uint63.of_Z_spec.
  rewrite Z.mod_small
    by (change Uint63Axioms.wB with (2 ^ 63)%Z;
        assert (2 ^ 53 < 2 ^ 63)%Z by (apply Z.pow_lt_mono_r; lia); lia).
  cbn [binary_normalize].
  apply (rounds_to_integer (Zpos p)); [exact Hz|].
  replace (IZR (Zpos p)) with (fval p 0)
    by (unfold fval; rewrite bpow_0; lra).
  apply binary_round_rounds.
Qed.

(** The order of two positive finite floats is the order of their values. *)
Lemma finite_value_lt (m1 m2 : positive) (e1 e2 : Z) :
  SpecFloat.bounded prec emax m1 e1 = true ->
  SpecFloat.bounded prec emax m2 e2 = true ->
  SFleb (S754_finite false m1 e1) (S754_finite false m2 e2) = false ->
  fval m2 e2 < fval m1 e1.
Proof.
  intros B1 B2 H. apply Rnot_le_lt. intro Hle.
  rewrite (rounds_to_mono _ _ _ _ (rounds_to_self m1 e1 B1)
             (rounds_to_self m2 e2 B2) Hle) in H.
  discriminate H.
Qed.

Lemma SFmul_small_nonneg (B : R) (x q : spec_float) :
  small_nonneg B x -> valid_binary q = true ->
  SFleb (S754_zero false) q = true ->
  SFleb q (S754_finite false 4503599627370496 (-52)) = true ->
  SFleb (S754_zero false) (SFmul prec emax x q) = true.
Proof.
  intros Hx Vq N L.
  destruct (SFleb_zero_cases q N) as [[s ->]|[->|(m & e & ->)]];
    [|discriminate L|].
  - destruct Hx as [->|(mx & ex & -> & _)]; destruct s; reflexivity.
  - destruct Hx as [->|(mx & ex & -> & Bx & _)]; [reflexivity|].
    eapply rounds_to_zero_le. apply SFmul_rounds; [exact Bx|].
    apply valid_finite, Vq.
Qed.

End IntegerPart.

Lemma sorted_ascending (l : list float) :
  sorted l -> Forall not_nan l -> ascending l.
Proof.
  unfold sorted, ascending. induction 1 as [|x l Hs IH Hx]; intro Hn.
  - constructor.
  - inversion Hn as [|? ? Nx Nl]; subst. constructor; [apply IH, Nl|].
    rewrite Forall_forall in *. intros y Hy. specialize (Hx y Hy).
    unfold sort_le in Hx. rewrite (Nl y Hy), Nx in Hx. exact Hx.
Qed.

Lemma last_In (l : list float) (d : float) : l <> [] -> In (last l d) l.
Proof.
  induction l as [|x l IH]; [contradiction|]. intros _.
  destruct l as [|y l]; [left; reflexivity|].
  right. apply IH. discriminate.
Qed.

Lemma take_nonneg (s : list float) (k : Z) :
  (0 <= k)%Z -> take s k = nth (Z.to_nat k) s PrimFloat.nan.
Proof.
  intro H. unfold take. replace (k <? 0)%Z with false; [reflexivity|].
  symmetry. apply Z.ltb_ge. exact H.
Qed.

Lemma integer_part_nonneg (h : float) (k : Z) : integer_part h k -> (0 <= k)%Z.
Proof.
  unfold integer_part. destruct (Prim2SF h) as [s|s| |[] m e]; try contradiction.
  - intros ->. lia.
  - intros [_ H]. pose proof (fval_pos m e) as P.
    assert (H0 : (IZR (-1) < IZR k)%R) by (simpl; lra).
    apply lt_IZR in H0. lia.
Qed.

Lemma floor_index_integer_part (top h : float) (B : R) :
  small_nonneg B (Prim2SF top) ->
  SFleb (S754_zero false) (Prim2SF h) = true ->
  (top <=? h)%float = false ->
  integer_part h (floor_index h).
Proof.
  intros Ht Hh Hle. rewrite leb_spec in Hle. unfold integer_part.
  destruct (SFleb_zero_cases _ Hh) as [[s E]|[E|(m & e & E)]].
  - rewrite E. unfold floor_index. rewrite E. reflexivity.
  - exfalso. rewrite E in Hle.
    destruct Ht as [Et|(mt & et & Et & _)]; rewrite Et in Hle;
      discriminate Hle.
  - rewrite E. apply floor_index_spec, E.
Qed.

Lemma integer_part_range (n : Z) (h : float) (k : Z) :
  (1 <= n <= 2 ^ 53)%Z ->
  SFleb (S754_zero false) (Prim2SF h) = true ->
  (float_of_Z (n - 1) <=? h)%float = false ->
  integer_part h k -> (k + 1 < n)%Z.
Proof.
  intros Hn Hh Hle Hk. rewrite leb_spec in Hle.
  destruct (Z.eq_dec n 1) as [->|Hn1].
  { exfalso. change (Prim2SF (float_of_Z (1 - 1))) with (S754_zero false) in Hle.
    rewrite Hh in Hle. discriminate Hle. }
  destruct (float_of_Z_exact (n - 1)) as (mt & et & Et & Bt & Vt); [lia|].
  rewrite Et in Hle. unfold integer_part in Hk.
  pose proof (Prim2SF_valid h) as Vh.
  destruct (Prim2SF h) as [s|s| |[] m e]; try contradiction.
  - subst k. lia.
  - pose proof (finite_value_lt _ _ _ _ Bt (valid_finite _ _ Vh) Hle) as Hlt.
    rewrite Vt in Hlt.
    assert (H0 : (IZR k < IZR (n - 1))%R) by lra.
    apply lt_IZR in H0. lia.
Qed.

Lemma quantile_linear_percentile (a : list float) (p : float) :
  cpu_percentile_ok p = true -> a <> [] -> Forall not_nan a ->
  linear_percentile a p (quantile a (p / 100)).
Proof.
  intros Hp Hne Hnan.
  pose proof (percentile_in_range p Hp) as Hq.
  apply andb_prop in Hq as [Hq0 Hq1].
  assert (Hlen : (0 <= len a - 1)%Z).
  { destruct a; [contradiction|]. rewrite len_cons.
    pose proof (len_nonneg a). lia. }
  pose proof (float_of_Z_small _ Hlen) as Hsmall.
  unfold linear_percentile, quantile.
  set (top := float_of_Z (len a - 1)) in *.
  set (h := (top * (p / 100))%float).
  assert (Hh : SFleb (S754_zero false) (Prim2SF h) = true).
  { unfold h. rewrite mul_spec. rewrite !leb_spec in Hq0, Hq1.
    eapply SFmul_small_nonneg; [exact Hsmall|apply Prim2SF_valid|exact Hq0|exact Hq1]. }
  assert (Hperm : Permutation (np_sort a) a) by apply np_sort_perm.
  assert (Hn' : Forall not_nan (np_sort a))
    by (apply (Permutation_Forall (Permutation_sym Hperm)), Hnan).
  assert (Hs : np_sort a <> []).
  { intro E. rewrite E in Hperm. apply Permutation_nil in Hperm.
    contradiction. }
  assert (Hlast : PrimFloat.is_nan (take (np_sort a) (-1)) = false).
  { rewrite take_last. rewrite Forall_forall in Hn'.
    apply Hn', last_In, Hs. }
  assert (Hhn : PrimFloat.is_nan h = false).
  { apply is_nan_false. intro E. rewrite E in Hh. discriminate Hh. }
  assert (Hh0 : (h <? 0)%float = false).
  { rewrite ltb_spec. apply SFleb_ltb_false, Hh. }
  unfold get_indexes. fold top. rewrite Hhn, Hh0.
  destruct (top <=? h)%float eqn:Htop; rewrite Hlast.
  - exists (np_sort a), (last (np_sort a) PrimFloat.nan),
      (last (np_sort a) PrimFloat.nan), (h - (-1))%float.
    split; [exact Hperm|]. split; [apply sorted_ascending;
                                   [apply np_sort_sorted|exact Hn']|].
    split; [left; repeat split; reflexivity|].
    rewrite take_last. reflexivity.
  - pose proof (floor_index_integer_part top h _ Hsmall Hh Htop) as Hk.
    pose proof (integer_part_nonneg _ _ Hk) as Hk0.
    exists (np_sort a), (nth (Z.to_nat (floor_index h)) (np_sort a) PrimFloat.nan),
      (nth (Z.to_nat (floor_index h + 1)) (np_sort a) PrimFloat.nan),
      (h - float_of_Z (floor_index h))%float.
    split; [exact Hperm|]. split; [apply sorted_ascending;
                                   [apply np_sort_sorted|exact Hn']|].
    split.
    + right. split; [reflexivity|]. exists (floor_index h).
      split; [exact Hk|]. split; [exact Hk0|].
      split; [|repeat split; reflexivity].
      intro Hbig. apply (integer_part_range (len a) h); try assumption. lia.
    + rewrite !take_nonneg by lia. reflexivity.
Qed.

(** On plain values there is one linear-interpolated percentile. *)
Lemma ascending_sorted (l : list float) : ascending l -> sorted l.
Proof.
  unfold ascending, sorted. induction 1 as [|x l Hs IH Hx]; constructor.
  - exact IH.
  - eapply Forall_impl; [|exact Hx]. intros y Hy. unfold sort_le.
    destruct (leb_not_nan x y Hy) as [Nx Ny]. unfold not_nan in *.
    rewrite Ny, Nx. exact Hy.
Qed.

Lemma integer_part_unique (h : float) (k k' : Z) :
  integer_part h k -> integer_part h k' -> k = k'.
Proof.
  unfold integer_part. destruct (Prim2SF h) as [s|s| |[] m e]; try contradiction.
  - intros -> ->. reflexivity.
  - intros [L U] [L' U'].
    assert (H1 : (IZR k < IZR (k' + 1))%R) by (rewrite plus_IZR; lra).
    assert (H2 : (IZR k' < IZR (k + 1))%R) by (rewrite plus_IZR; lra).
    apply lt_IZR in H1, H2. lia.
Qed.

Lemma ascending_unique (a s s' : list float) :
  Forall plain a -> Permutation s a -> Permutation s' a ->
  ascending s -> ascending s' -> s = s'.
Proof.
  intros Hp P P' A A'.
  apply sorted_unique; [apply ascending_sorted, A|apply ascending_sorted, A'| |].
  - apply (Permutation_trans P). apply Permutation_sym, P'.
  - rewrite Forall_forall in Hp. intros x y Hx Hy.
    apply (Permutation_in _ P) in Hx, Hy.
    rewrite !sort_le_plain by auto. apply leb_antisym_plain; auto.
Qed.

Lemma linear_percentile_unique (a : list float) (p r r' : float) :
  Forall plain a ->
  linear_percentile a p r -> linear_percentile a p r' -> r = r'.
Proof.
  intros Hp (s & lo & hi & g & P & A & Hrank & ->)
    (s' & lo' & hi' & g' & P' & A' & Hrank' & ->).
  assert (E : s = s') by (eapply ascending_unique; eassumption).
  subst s'.
  destruct Hrank as [(T & -> & -> & ->)|(T & k & Hk & _ & _ & -> & -> & ->)];
    destruct Hrank' as [(T' & -> & -> & ->)|(T' & k' & Hk' & _ & _ & -> & -> & ->)];
    try congruence.
  rewrite (integer_part_unique _ _ _ Hk Hk'). reflexivity.
Qed.

(** C1. [calculate_cpu_proposal] returns NaN on the empty mapping,
    [np.percentile] of the value column at [cpu_percentile] when there is
    one container, and [np.percentile] of the concatenation of all value
    columns when there are two or more.  With valid settings and non-empty
    series it returns a value, and on values without a NaN that value is the
    [cpu_percentile]-th linear-interpolated percentile of the column, or of
    the concatenation: with the values in ascending order and the rank
    [h = (n - 1) * (cpu_percentile / 100)], the point at [h - k] on the line
    from the value of rank [k] to the value of rank [k + 1], [k] being the
    integer part of [h]; for plain values there is one such percentile.
    The pooled percentile is neither the average nor the maximum of the
    per-container percentiles: for the series [1, 2, 3] and [10] at the 50th
    percentile the pooled value is 2.5, the two percentiles are 2 and 10.
    On unsorted values: the 99th percentile of [1, 4, 2] is 3.96, that of
    [1, 4, 2] pooled with [7] is 6.909999999999999, and the 75th percentile
    of [40, 10, 30, 20] is 32.5. *)
Theorem calculate_cpu_proposal_cases (self : SimpleStrategySettings) :
  calculate_cpu_proposal self [] = Ok PrimFloat.nan /\
  (forall id values,
      calculate_cpu_proposal self [(id, values)] =
      np_percentile (column1 values) (cpu_percentile self)) /\
  (forall c1 c2 rest,
      calculate_cpu_proposal self (c1 :: c2 :: rest) =
      np_percentile (concat (map column1 (dict_values (c1 :: c2 :: rest))))
        (cpu_percentile self)) /\
  (valid_settings self ->
   (forall id values,
       values <> [] ->
       exists r,
         calculate_cpu_proposal self [(id, values)] = Ok r /\
         (Forall not_nan (column1 values) ->
          linear_percentile (column1 values) (cpu_percentile self) r)) /\
   (forall c1 c2 rest,
       Forall (fun item => snd item <> []) (c1 :: c2 :: rest) ->
       exists r,
         calculate_cpu_proposal self (c1 :: c2 :: rest) = Ok r /\
         (Forall not_nan (pooled (c1 :: c2 :: rest)) ->
          linear_percentile (pooled (c1 :: c2 :: rest))
            (cpu_percentile self) r))) /\
  (forall a p r r',
      Forall plain a ->
      linear_percentile a p r -> linear_percentile a p r' -> r = r') /\
  (forall id1 id2 t0 t1 t2 t3 b,
      let s := {| cpu_percentile := 50; memory_buffer_percentage := b |} in
      let S1 := [(t0, 1); (t1, 2); (t2, 3)]%float in
      let S2 := [(t3, 10%float)] in
      calculate_cpu_proposal s [(id1, S1); (id2, S2)] = Ok 2.5%float /\
      calculate_cpu_proposal s [(id1, S1)] = Ok 2%float /\
      calculate_cpu_proposal s [(id2, S2)] = Ok 10%float /\
      (2.5 =? average2 2 10)%float = false /\
      (2.5 =? py_max2 2 10)%float = false) /\
  (forall id1 id2 t0 t1 t2 t3 b,
      let s := {| cpu_percentile := 99; memory_buffer_percentage := b |} in
      let S1 := [(t0, 1); (t1, 4); (t2, 2)]%float in
      let S2 := [(t3, 7%float)] in
      calculate_cpu_proposal s [(id1, S1)] = Ok 3.96%float /\
      calculate_cpu_proposal s [(id1, S1); (id2, S2)] =
        Ok 6.909999999999999%float /\
      calculate_cpu_proposal
        {| cpu_percentile := 75; memory_buffer_percentage := b |}
        [(id1, [(t0, 40); (t1, 10); (t2, 30); (t3, 20)]%float)] =
        Ok 32.5%float).
Proof.
  assert (H1 : forall id values,
             calculate_cpu_proposal self [(id, values)] =
             np_percentile (column1 values) (cpu_percentile self)).
  { intros id values. rewrite calculate_cpu_proposal_columns.
    simpl map. rewrite cpu_of_columns_cons. simpl. rewrite app_nil_r.
    reflexivity. }
  assert (H2 : forall c1 c2 rest,
             calculate_cpu_proposal self (c1 :: c2 :: rest) =
             np_percentile
               (concat (map column1 (dict_values (c1 :: c2 :: rest))))
               (cpu_percentile self)).
  { intros c1 c2 rest. rewrite calculate_cpu_proposal_columns.
    simpl map. rewrite cpu_of_columns_cons. reflexivity. }
  split; [reflexivity|]. split; [exact H1|]. split; [exact H2|]. split.
  - intro Hvalid. split.
    + intros id values Hne.
      assert (Hc : column1 values <> []) by (rewrite column1_nil; exact Hne).
      eexists. split.
      * rewrite H1. apply np_percentile_valid; [exact Hvalid|exact Hc].
      * intro Hnan. apply quantile_linear_percentile;
          [apply Hvalid|exact Hc|exact Hnan].
    + intros [id1 values1] c2 rest Hne.
      assert (Hc : pooled ((id1, values1) :: c2 :: rest) <> []).
      { unfold pooled. simpl map. apply concat_nonempty.
        rewrite column1_nil. inversion Hne; assumption. }
      eexists. split.
      * rewrite H2. apply np_percentile_valid; [exact Hvalid|exact Hc].
      * intro Hnan. apply quantile_linear_percentile;
          [apply Hvalid|exact Hc|exact Hnan].
  - split; [intros a p r r'; apply linear_percentile_unique|].
    split; intros; repeat split; vm_compute; reflexivity.
Qed.

Lemma calculate_cpu_proposal_cases_witness :
  let self := {| cpu_percentile := 99; memory_buffer_percentage := 5 |} in
  let app := ("app"%string, [(0, 1); (60, 4); (120, 2)]%float) in
  let sidecar := ("sidecar"%string, [(0, 7)]%float) in
  (exists r,
      calculate_cpu_proposal self [app] = Ok r /\
      linear_percentile [1; 4; 2]%float 99 r) /\
  (exists r,
      calculate_cpu_proposal self [app; sidecar] = Ok r /\
      linear_percentile [1; 4; 2; 7]%float 99 r) /\
  calculate_cpu_proposal self [app] = Ok 3.96%float /\
  calculate_cpu_proposal self [app; sidecar] = Ok 6.909999999999999%float.
Proof.
  intros self app sidecar.
  assert (Hvalid : valid_settings self) by (split; reflexivity).
  destruct (calculate_cpu_proposal_cases self) as (_ & _ & _ & H & _ & _ & Hex).
  destruct (H Hvalid) as [Hone Hmany].
  destruct (Hex "app"%string "sidecar"%string 0%float 60%float 120%float
              0%float 5%float) as (E1 & E2 & _).
  split; [|split; [|split; [exact E1|exact E2]]].
  - destruct (Hone "app"%string (snd app)) as (r & E & L); [discriminate|].
    exists r. split; [exact E|]. apply L. repeat constructor.
  - destruct (Hmany app sidecar []) as (r & E & L);
      [repeat constructor; discriminate|].
    exists r. split; [exact E|]. apply L. repeat constructor.
Defined.

(** * Empty series *)

(** C9, amended.  With valid settings, both proposal functions return a value
    on every mapping whose series are all non-empty.  When some series is
    empty, [calculate_memory_proposal] raises ([np.max] of an empty array,
    [ValueError]); [calculate_cpu_proposal] raises exactly when the mapping
    is not empty and all its series are, the percentile of an empty array
    ending in [IndexError]; when at least one series is non-empty it returns
    the percentile of the remaining values: the value it returns for the
    mapping without the empty series, which, on values without a NaN, is
    the linear-interpolated percentile of the values that are left.  The
    NaN of either function is for the empty mapping only. *)
Theorem proposals_total_on_nonempty_series
  (self : SimpleStrategySettings) (data : ContainerData) :
  valid_settings self ->
  (Forall (fun item => snd item <> []) data ->
   (exists v, calculate_cpu_proposal self data = Ok v) /\
   (exists v, calculate_memory_proposal self data = Ok v)) /\
  (Exists (fun item => snd item = []) data ->
   calculate_memory_proposal self data = Raise ValueError) /\
  (data <> [] -> Forall (fun item => snd item = []) data ->
   calculate_cpu_proposal self data = Raise IndexError) /\
  (Exists (fun item => snd item <> []) data ->
   exists v,
     calculate_cpu_proposal self data = Ok v /\
     calculate_cpu_proposal self (filter has_samples data) = Ok v /\
     (Forall not_nan (pooled data) ->
      linear_percentile (pooled (filter has_samples data))
        (cpu_percentile self) v)) /\
  (data = [] ->
   calculate_cpu_proposal self data = Ok PrimFloat.nan /\
   calculate_memory_proposal self data = Ok PrimFloat.nan).
Proof.
  intro Hvalid.
  assert (Hsome : Exists (fun item => snd item <> []) data ->
                  exists v,
                    calculate_cpu_proposal self data = Ok v /\
                    calculate_cpu_proposal self (filter has_samples data) =
                      Ok v /\
                    (Forall not_nan (pooled data) ->
                     linear_percentile (pooled (filter has_samples data))
                       (cpu_percentile self) v)).
  { intro H.
    pose proof (filter_has_samples_not_nil data H) as Hf.
    assert (Hd : data <> []) by (intros ->; inversion H).
    assert (Hp : pooled (filter has_samples data) <> []).
    { intro E. apply pooled_nil in E.
      pose proof (filter_has_samples data) as F.
      destruct (filter has_samples data) as [|item rest]; [contradiction|].
      inversion E; inversion F; subst. contradiction. }
    rewrite (calculate_cpu_proposal_pooled self _ Hf).
    rewrite (calculate_cpu_proposal_pooled self _ Hd).
    rewrite <- (pooled_has_samples data).
    rewrite (np_percentile_valid self _ Hvalid Hp).
    eexists. split; [reflexivity|]. split; [reflexivity|].
    intro Hnan. apply quantile_linear_percentile;
      [apply Hvalid|exact Hp|exact Hnan]. }
  repeat apply conj.
  - intro H. split.
    + destruct data as [|item data]; [eexists; reflexivity|].
      destruct Hsome as (v & E & _); [|exists v; exact E].
      apply Exists_cons_hd. inversion H; assumption.
    + rewrite calculate_memory_proposal_columns.
      apply memory_of_columns_ok. apply Forall_columns.
      eapply Forall_impl; [|exact H]. intros [id values] Hv.
      simpl in *. rewrite column1_nil. exact Hv.
  - intro H. rewrite calculate_memory_proposal_columns.
    unfold memory_of_columns.
    rewrite comprehension_np_max_raises; [reflexivity|].
    apply Exists_columns. eapply Exists_impl; [|exact H].
    intros [id values] Hv. simpl in *. subst. reflexivity.
  - intros Hne H. rewrite (calculate_cpu_proposal_pooled self _ Hne).
    rewrite (proj2 (pooled_nil data) H).
    apply np_percentile_empty, Hvalid.
  - exact Hsome.
  - intros ->. split; reflexivity.
Qed.

Lemma proposals_total_on_nonempty_series_witness :
  let self := {| cpu_percentile := 99; memory_buffer_percentage := 5 |} in
  let full := [("app"%string, [(0, 1); (60, 4)]%float);
               ("sidecar"%string, [(0, 7)]%float)] in
  let hollow := [("app"%string, []); ("sidecar"%string, [])] in
  let mixed := [("app"%string, []);
                ("sidecar"%string, [(0, 1); (60, 3)]%float)] in
  ((exists v, calculate_cpu_proposal self full = Ok v) /\
   (exists v, calculate_memory_proposal self full = Ok v)) /\
  calculate_memory_proposal self hollow = Raise ValueError /\
  calculate_cpu_proposal self hollow = Raise IndexError /\
  calculate_memory_proposal self mixed = Raise ValueError /\
  (exists v,
      calculate_cpu_proposal self mixed = Ok v /\
      calculate_cpu_proposal self
        [("sidecar"%string, [(0, 1); (60, 3)]%float)] = Ok v /\
      linear_percentile [1; 3]%float 99 v).
Proof.
  intros self full hollow mixed.
  assert (Hvalid : valid_settings self) by (split; reflexivity).
  repeat apply conj.
  - apply (proposals_total_on_nonempty_series self full Hvalid).
    repeat constructor; discriminate.
  - apply (proposals_total_on_nonempty_series self full Hvalid).
    repeat constructor; discriminate.
  - apply (proposals_total_on_nonempty_series self hollow Hvalid).
    apply Exists_cons_hd. reflexivity.
  - apply (proposals_total_on_nonempty_series self hollow Hvalid).
    + discriminate.
    + repeat constructor.
  - apply (proposals_total_on_nonempty_series self mixed Hvalid).
    apply Exists_cons_hd. reflexivity.
  - destruct (proposals_total_on_nonempty_series self mixed Hvalid)
      as (_ & _ & _ & H & _).
    destruct H as (v & E & E' & L);
      [apply Exists_cons_tl, Exists_cons_hd; discriminate|].
    exists v. split; [exact E|]. split; [exact E'|].
    apply L. repeat constructor.
Defined.

(** * The memory proposal and the pooled samples *)

(** X1. On a non-empty mapping of non-empty series without a NaN,
    [calculate_memory_proposal] returns [peak * (1 + memory_buffer_percentage
    / 100)] where [peak] is the largest of all values of all containers: the
    maximum over the per-container maxima is the maximum of the pooled
    values. *)
Theorem memory_proposal_pooled_peak (self : SimpleStrategySettings)
  (data : ContainerData) :
  data <> [] ->
  Forall (fun item => snd item <> []) data ->
  Forall not_nan (pooled data) ->
  exists peak,
    maximum_of (pooled data) peak /\
    calculate_memory_proposal self data =
      Ok (peak * (1 + memory_buffer_percentage self / 100))%float.
Proof.
  intros Hne Hseries Hnan. rewrite calculate_memory_proposal_columns.
  apply memory_of_columns_pooled.
  - apply columns_not_nil, Hne.
  - apply columns_nonempty, Hseries.
  - exact Hnan.
Qed.

Lemma memory_proposal_pooled_peak_witness :
  let self := {| cpu_percentile := 99; memory_buffer_percentage := 5 |} in
  let data := [("app"%string, [(0, 10); (60, 30)]%float);
               ("sidecar"%string, [(0, 20)]%float)] in
  exists peak,
    maximum_of (pooled data) peak /\
    calculate_memory_proposal self data =
      Ok (peak * (1 + memory_buffer_percentage self / 100))%float.
Proof.
  intros self data. apply memory_proposal_pooled_peak.
  - discriminate.
  - repeat constructor; discriminate.
  - unfold data, pooled. simpl. repeat constructor.
Defined.

(** X2. With valid settings, on a non-empty mapping of non-empty series
    whose values are zero or above, the memory proposal is never below a
    sample: no value of any container is greater than the result, and when
    the result is not a NaN every value is below or equal to it. *)
Theorem memory_proposal_covers_samples (self : SimpleStrategySettings)
  (data : ContainerData) :
  valid_settings self -> data <> [] ->
  Forall (fun item => snd item <> []) data ->
  Forall nonneg (pooled data) ->
  exists r,
    calculate_memory_proposal self data = Ok r /\
    Forall (fun v => (r <? v)%float = false) (pooled data) /\
    (not_nan r -> Forall (fun v => (v <=? r)%float = true) (pooled data)).
Proof.
  intros [_ Hb] Hne Hseries Hnn.
  rewrite calculate_memory_proposal_columns. unfold pooled in *.
  destruct (memory_of_columns_pooled self (map column1 (dict_values data)))
    as (peak & [Hin Hall] & E);
    [apply columns_not_nil, Hne|apply columns_nonempty, Hseries| |].
  { eapply Forall_impl; [|exact Hnn]. apply nonneg_not_nan. }
  eexists. split; [exact E|].
  assert (Hlt : Forall (fun v => (peak * (1 + memory_buffer_percentage self / 100)
                               <? v)%float = false)
                  (concat (map column1 (dict_values data)))).
  { rewrite Forall_forall in *. intros v Hv.
    rewrite <- (float_mul_one v (Hnn v Hv)).
    apply float_mul_mono.
    - apply Hnn, Hv.
    - reflexivity.
    - apply Hall, Hv.
    - apply one_le_multiplier, Hb. }
  split; [exact Hlt|]. intro Hr.
  rewrite Forall_forall in *. intros v Hv.
  apply ltb_false_leb; [exact Hr|apply nonneg_not_nan, Hnn, Hv|apply Hlt, Hv].
Qed.

Lemma memory_proposal_covers_samples_witness :
  let self := {| cpu_percentile := 99; memory_buffer_percentage := 5 |} in
  let data := [("app"%string, [(0, 10); (60, 30)]%float);
               ("sidecar"%string, [(0, 20)]%float)] in
  exists r,
    calculate_memory_proposal self data = Ok r /\
    Forall (fun v => (r <? v)%float = false) (pooled data) /\
    (not_nan r -> Forall (fun v => (v <=? r)%float = true) (pooled data)).
Proof.
  intros self data. apply memory_proposal_covers_samples.
  - split; reflexivity.
  - discriminate.
  - repeat constructor; discriminate.
  - unfold data, pooled. simpl. repeat constructor.
Defined.

(** X3. More samples never lower the memory proposal: with valid settings
    and values that are zero or above, when every value of [data] is among
    the values of [data'] (series made longer, containers added), the
    proposal for [data'] is not below the one for [data]. *)
Theorem memory_proposal_grows_with_pool (self : SimpleStrategySettings)
  (data data' : ContainerData) :
  valid_settings self -> data <> [] ->
  Forall (fun item => snd item <> []) data ->
  Forall (fun item => snd item <> []) data' ->
  Forall nonneg (pooled data') ->
  incl (pooled data) (pooled data') ->
  exists r r',
    calculate_memory_proposal self data = Ok r /\
    calculate_memory_proposal self data' = Ok r' /\
    (r' <? r)%float = false.
Proof.
  intros [_ Hb] Hne Hs Hs' Hnn' Hincl.
  assert (Hnn : Forall nonneg (pooled data)).
  { rewrite Forall_forall in *. intros v Hv. apply Hnn', Hincl, Hv. }
  assert (Hne' : data' <> []).
  { intros ->. pose proof (pooled_not_nil data Hne Hs) as P.
    destruct (pooled data) as [|v l]; [contradiction|].
    apply (Hincl v). left. reflexivity. }
  rewrite !calculate_memory_proposal_columns.
  destruct (memory_of_columns_pooled self (map column1 (dict_values data)))
    as (peak & [Hin Hall] & E);
    [apply columns_not_nil, Hne|apply columns_nonempty, Hs| |].
  { eapply Forall_impl; [|exact Hnn]. apply nonneg_not_nan. }
  destruct (memory_of_columns_pooled self (map column1 (dict_values data')))
    as (peak' & [Hin' Hall'] & E');
    [apply columns_not_nil, Hne'|apply columns_nonempty, Hs'| |].
  { eapply Forall_impl; [|exact Hnn']. apply nonneg_not_nan. }
  eexists. eexists. split; [exact E|]. split; [exact E'|].
  pose proof (multiplier_nonneg _ Hb) as Hm.
  rewrite Forall_forall in Hnn, Hall'.
  apply float_mul_mono.
  - apply Hnn, Hin.
  - exact Hm.
  - apply Hall', Hincl, Hin.
  - apply leb_refl, nonneg_not_nan, Hm.
Qed.

Lemma memory_proposal_grows_with_pool_witness :
  let self := {| cpu_percentile := 99; memory_buffer_percentage := 5 |} in
  let data := [("app"%string, [(0, 10)]%float)] in
  let data' := [("app"%string, [(0, 10); (60, 30)]%float);
                ("sidecar"%string, [(0, 20)]%float)] in
  exists r r',
    calculate_memory_proposal self data = Ok r /\
    calculate_memory_proposal self data' = Ok r' /\
    (r' <? r)%float = false.
Proof.
  intros self data data'. apply memory_proposal_grows_with_pool.
  - split; reflexivity.
  - discriminate.
  - repeat constructor; discriminate.
  - repeat constructor; discriminate.
  - unfold data', pooled. simpl. repeat constructor.
  - unfold data, data', pooled. simpl. intros v [<-|[]]. left. reflexivity.
Defined.

(** X4. The memory proposal depends on the pooled values only: two
    non-empty mappings of non-empty series whose values are plain and are
    the same up to order give the same result, however the values are
    spread over containers and rows. *)
Theorem memory_proposal_depends_on_pool (self : SimpleStrategySettings)
  (data data' : ContainerData) :
  data <> [] -> data' <> [] ->
  Forall (fun item => snd item <> []) data ->
  Forall (fun item => snd item <> []) data' ->
  Forall plain (pooled data) ->
  Permutation (pooled data) (pooled data') ->
  calculate_memory_proposal self data = calculate_memory_proposal self data'.
Proof.
  intros Hne Hne' Hs Hs' Hp Hperm.
  assert (Hp' : Forall plain (pooled data'))
    by (eapply Permutation_Forall; eassumption).
  rewrite !calculate_memory_proposal_columns.
  destruct (memory_of_columns_pooled self (map column1 (dict_values data)))
    as (m & Hm & E);
    [apply columns_not_nil, Hne|apply columns_nonempty, Hs| |].
  { eapply Forall_impl; [|exact Hp]. apply plain_not_nan. }
  destruct (memory_of_columns_pooled self (map column1 (dict_values data')))
    as (m' & Hm' & E');
    [apply columns_not_nil, Hne'|apply columns_nonempty, Hs'| |].
  { eapply Forall_impl; [|exact Hp']. apply plain_not_nan. }
  rewrite E, E'. rewrite (maximum_of_unique _ _ _ _ Hp Hperm Hm Hm').
  reflexivity.
Qed.

Lemma memory_proposal_depends_on_pool_witness :
  let self := {| cpu_percentile := 99; memory_buffer_percentage := 5 |} in
  calculate_memory_proposal self
    [("app"%string, [(0, 1); (60, 2)]%float);
     ("sidecar"%string, [(0, 3)]%float)] =
  calculate_memory_proposal self
    [("sidecar"%string, [(0, 3)]%float);
     ("app"%string, [(30, 2); (90, 1)]%float)].
Proof.
  intros self. apply memory_proposal_depends_on_pool.
  - discriminate.
  - discriminate.
  - repeat constructor; discriminate.
  - repeat constructor; discriminate.
  - unfold pooled. simpl. repeat constructor; apply plain_pos; reflexivity.
  - apply (Permutation_rev [1; 2; 3]%float).
Defined.

(** X5. A container that is not the first and has a NaN among its values
    does not count: [np.max] of its series is a NaN, which Python's [max]
    steps over, so that the memory proposal is the one of the mapping
    without that container. *)
Theorem memory_proposal_skips_later_nan (self : SimpleStrategySettings)
  (pre post : ContainerData) (id : string) (values : ndarray) :
  pre <> [] -> has_nan (column1 values) ->
  calculate_memory_proposal self (pre ++ (id, values) :: post) =
  calculate_memory_proposal self (pre ++ post).
Proof.
  intros Hpre Hnan. rewrite !calculate_memory_proposal_columns.
  unfold memory_of_columns, dict_values. rewrite !map_app. simpl map.
  rewrite !comprehension_app.
  destruct (comprehension np_max (map column1 (map snd pre)))
    as [peaks1|e] eqn:E1; simpl; [|reflexivity].
  destruct (np_max_nan _ Hnan) as (n & En & Hn). rewrite En. simpl.
  destruct (comprehension np_max (map column1 (map snd post)))
    as [peaks2|e] eqn:E2; simpl; [|reflexivity].
  destruct peaks1 as [|p peaks1].
  { destruct pre; [contradiction|].
    apply comprehension_length in E1. discriminate E1. }
  cbn [app]. rewrite !len_cons.
  destruct (len (peaks1 ++ n :: peaks2) + 1 =? 0)%Z eqn:L1;
    [pose proof (len_nonneg (peaks1 ++ n :: peaks2)); lia|].
  destruct (len (peaks1 ++ peaks2) + 1 =? 0)%Z eqn:L2;
    [pose proof (len_nonneg (peaks1 ++ peaks2)); lia|].
  rewrite (py_max_skips_nan p n peaks1 peaks2 Hn). reflexivity.
Qed.

Lemma memory_proposal_skips_later_nan_witness :
  let self := {| cpu_percentile := 99; memory_buffer_percentage := 5 |} in
  calculate_memory_proposal self
    ([("app"%string, [(0, 10)]%float)] ++
     ("sidecar"%string, [(0, 50); (60, PrimFloat.nan)]%float) ::
     [("proxy"%string, [(0, 20)]%float)]) =
  calculate_memory_proposal self
    ([("app"%string, [(0, 10)]%float)] ++
     [("proxy"%string, [(0, 20)]%float)]).
Proof.
  intros self. apply memory_proposal_skips_later_nan.
  - discriminate.
  - apply Exists_cons_tl, Exists_cons_hd. reflexivity.
Defined.

(** X6. When the first container has a NaN among its values and no other
    series is empty, the memory proposal is a NaN, whatever the other
    containers hold: Python's [max] keeps a NaN that comes first. *)
Theorem memory_proposal_first_nan (self : SimpleStrategySettings)
  (id : string) (values : ndarray) (rest : ContainerData) :
  has_nan (column1 values) ->
  Forall (fun item => snd item <> []) rest ->
  exists r, calculate_memory_proposal self ((id, values) :: rest) = Ok r /\
            PrimFloat.is_nan r = true.
Proof.
  intros Hnan Hrest. rewrite calculate_memory_proposal_columns.
  unfold memory_of_columns. simpl map. cbn [comprehension].
  destruct (np_max_nan _ Hnan) as (n & En & Hn). rewrite En. simpl.
  destruct (comprehension_np_max_ok (map column1 (dict_values rest)))
    as (peaks & Ep & _).
  { apply Forall_columns. eapply Forall_impl; [|exact Hrest].
    intros [i v] Hv. simpl in *. rewrite column1_nil. exact Hv. }
  rewrite Ep. simpl. rewrite (fold_py_step_nan_acc peaks n Hn).
  eexists. split; [reflexivity|]. apply mul_nan_l, Hn.
Qed.

Lemma memory_proposal_first_nan_witness :
  let self := {| cpu_percentile := 99; memory_buffer_percentage := 5 |} in
  exists r,
    calculate_memory_proposal self
      (("app"%string, [(0, PrimFloat.nan); (60, 10)]%float) ::
       [("sidecar"%string, [(0, 20)]%float)]) = Ok r /\
    PrimFloat.is_nan r = true.
Proof.
  intros self. apply memory_proposal_first_nan.
  - apply Exists_cons_hd. reflexivity.
  - repeat constructor; discriminate.
Defined.

(** * The CPU proposal and the pooled samples *)

(** X7. The CPU proposal depends on the pooled values only: two non-empty
    mappings whose values are plain and are the same up to order give the
    same result, however the values are spread over containers and rows. *)
Theorem cpu_proposal_depends_on_pool (self : SimpleStrategySettings)
  (data data' : ContainerData) :
  data <> [] -> data' <> [] ->
  Forall plain (pooled data) ->
  Permutation (pooled data) (pooled data') ->
  calculate_cpu_proposal self data = calculate_cpu_proposal self data'.
Proof.
  intros Hne Hne' Hp Hperm.
  rewrite !calculate_cpu_proposal_pooled by assumption.
  apply np_percentile_permutation; assumption.
Qed.

Lemma cpu_proposal_depends_on_pool_witness :
  let self := {| cpu_percentile := 99; memory_buffer_percentage := 5 |} in
  calculate_cpu_proposal self
    [("app"%string, [(0, 1); (60, 2)]%float);
     ("sidecar"%string, [(0, 3)]%float)] =
  calculate_cpu_proposal self
    [("sidecar"%string, [(0, 3)]%float);
     ("app"%string, [(30, 2); (90, 1)]%float)].
Proof.
  intros self. apply cpu_proposal_depends_on_pool.
  - discriminate.
  - discriminate.
  - unfold pooled. simpl. repeat constructor; apply plain_pos; reflexivity.
  - apply (Permutation_rev [1; 2; 3]%float).
Defined.

(** X8. With valid settings, one NaN among the values of any container
    makes the CPU proposal a NaN: [np.sort] puts NaNs last and
    [np.percentile] returns a NaN when the last sorted value is one. *)
Theorem cpu_proposal_nan_sample (self : SimpleStrategySettings)
  (data : ContainerData) :
  valid_settings self -> has_nan (pooled data) ->
  calculate_cpu_proposal self data = Ok PrimFloat.nan.
Proof.
  intros Hvalid Hnan.
  assert (Hne : data <> []) by (intros ->; inversion Hnan).
  rewrite (calculate_cpu_proposal_pooled self data Hne).
  assert (Hpool : pooled data <> []) by (intros E; rewrite E in Hnan; inversion Hnan).
  rewrite (np_percentile_valid self _ Hvalid Hpool). f_equal.
  unfold quantile.
  destruct (get_indexes _ _) as [previous_index next_index].
  rewrite take_last, sorted_last_nan; [reflexivity|apply np_sort_sorted|].
  unfold has_nan in *.
  apply Exists_exists in Hnan as (n & Hin & Hn). apply Exists_exists.
  exists n. split; [|exact Hn].
  apply (Permutation_in _ (Permutation_sym (np_sort_perm _))), Hin.
Qed.

Lemma cpu_proposal_nan_sample_witness :
  calculate_cpu_proposal
    {| cpu_percentile := 99; memory_buffer_percentage := 5 |}
    [("app"%string, [(0, 1); (60, 2)]%float);
     ("sidecar"%string, [(0, PrimFloat.nan); (60, 3)]%float)] =
  Ok PrimFloat.nan.
Proof.
  apply cpu_proposal_nan_sample.
  - split; reflexivity.
  - unfold pooled. simpl.
    apply Exists_cons_tl, Exists_cons_tl, Exists_cons_hd. reflexivity.
Defined.

(** X9. With valid settings, the CPU proposal of one container with one
    sample is the value of that sample, at every percentile, when the value
    is finite. *)
Theorem cpu_proposal_single_sample (self : SimpleStrategySettings)
  (id : string) (t v : float) :
  valid_settings self -> finite v ->
  calculate_cpu_proposal self [(id, [(t, v)])] = Ok v.
Proof.
  intros Hvalid Hv.
  rewrite calculate_cpu_proposal_pooled by discriminate.
  change (pooled [(id, [(t, v)])]) with [v].
  rewrite (np_percentile_valid self [v] Hvalid) by discriminate.
  f_equal. destruct Hvalid as [Hp _].
  pose proof (percentile_in_range _ Hp) as Hr.
  apply andb_prop in Hr as [H0 H1].
  apply quantile_single; assumption.
Qed.

Lemma cpu_proposal_single_sample_witness :
  calculate_cpu_proposal
    {| cpu_percentile := 50; memory_buffer_percentage := 5 |}
    [("app"%string, [(0, 0.25)]%float)] = Ok 0.25%float.
Proof.
  apply cpu_proposal_single_sample.
  - split; reflexivity.
  - reflexivity.
Defined.

(** X10. At [cpu_percentile = 100] the CPU proposal is the largest pooled
    value, when the values are plain and finite: the interpolation of
    [np.percentile] is between the largest value and itself. *)
Theorem cpu_proposal_at_100 (self : SimpleStrategySettings)
  (data : ContainerData) :
  cpu_percentile self = 100%float ->
  pooled data <> [] ->
  Forall plain (pooled data) -> Forall finite (pooled data) ->
  exists M,
    maximum_of (pooled data) M /\ calculate_cpu_proposal self data = Ok M.
Proof.
  intros Hq Hne Hp Hf.
  assert (Hd : data <> []) by (intros ->; apply Hne; reflexivity).
  destruct (quantile_top (pooled data) Hne Hp Hf) as [E Hmax].
  exists (last (np_sort (pooled data)) PrimFloat.nan). split; [exact Hmax|].
  rewrite (calculate_cpu_proposal_pooled self data Hd), Hq.
  unfold np_percentile. change (100 / 100)%float with 1%float.
  change (negb ((0 <=? 1)%float && (1 <=? 1)%float)) with false. cbv iota.
  rewrite <- E. destruct (pooled data); [contradiction|reflexivity].
Qed.

Lemma cpu_proposal_at_100_witness :
  let self := {| cpu_percentile := 100; memory_buffer_percentage := 5 |} in
  let data := [("app"%string, [(0, 1); (60, 3)]%float);
               ("sidecar"%string, [(0, 2)]%float)] in
  exists M,
    maximum_of (pooled data) M /\ calculate_cpu_proposal self data = Ok M.
Proof.
  intros self data. apply cpu_proposal_at_100.
  - reflexivity.
  - discriminate.
  - unfold data, pooled. simpl.
    repeat constructor; apply plain_pos; reflexivity.
  - unfold data, pooled. simpl. repeat constructor.
Defined.

(** * When the strategy raises *)

(** X11. With valid settings, [run] raises in these cases and in no other:
    [history_data] has no entry for CPU or none for Memory; the CPU mapping
    is not empty and all its series are empty; the Memory mapping has an
    empty series. *)
Theorem run_raises_iff {K : Type} (settings : SimpleStrategySettings)
  (history_data : HistoryData) (object_data : K) :
  valid_settings settings ->
  (raises (run settings history_data object_data) <->
   getitem ResourceType_eqb history_data CPU = Raise KeyError \/
   getitem ResourceType_eqb history_data Memory = Raise KeyError \/
   (exists cpu_data,
       getitem ResourceType_eqb history_data CPU = Ok cpu_data /\
       cpu_data <> [] /\ Forall (fun item => snd item = []) cpu_data) \/
   (exists memory_data,
       getitem ResourceType_eqb history_data Memory = Ok memory_data /\
       Exists (fun item => snd item = []) memory_data)).
Proof.
  intro Hvalid.
  assert (Hget : forall d k, (exists v, getitem ResourceType_eqb d k = Ok v) \/
                             getitem ResourceType_eqb d k = Raise KeyError
                             :> result ContainerData).
  { intros d k. induction d as [|[k' v] d IH]; simpl; [right; reflexivity|].
    destruct (ResourceType_eqb k' k); [left; exists v; reflexivity|exact IH]. }
  unfold run.
  destruct (Hget history_data CPU) as [[cd Hc]|Hc]; rewrite Hc; simpl.
  2:{ split; [intros _; left; reflexivity|]. intros _. exists KeyError.
      reflexivity. }
  pose proof (cpu_proposal_raises_iff settings cd Hvalid) as Hcpu.
  destruct (result_cases (calculate_cpu_proposal settings cd))
    as [[c Ec]|Rc].
  2:{ destruct Rc as [e Ee]. rewrite Ee. simpl. split.
      - intros _. right. right. left. exists cd. split; [reflexivity|].
        apply Hcpu. exists e. exact Ee.
      - intros _. exists e. reflexivity. }
  rewrite Ec in *. simpl.
  destruct (Hget history_data Memory) as [[md Hm]|Hm]; rewrite Hm; simpl.
  2:{ split; [intros _; right; left; reflexivity|]. intros _.
      exists KeyError. reflexivity. }
  pose proof (memory_proposal_raises_iff settings md) as Hmem.
  destruct (result_cases (calculate_memory_proposal settings md))
    as [[m Em]|Rm].
  - rewrite Em in *. simpl. split.
    + intros [e He]. discriminate He.
    + intros [H|[H|[(cd' & E & H)|(md' & E & H)]]]; try discriminate H.
      * injection E as <-. apply Hcpu in H. destruct H as [e He].
        discriminate He.
      * injection E as <-. apply Hmem in H. destruct H as [e He].
        discriminate He.
  - destruct Rm as [e Ee]. rewrite Ee. simpl. split.
    + intros _. right. right. right. exists md. split; [reflexivity|].
      apply Hmem. exists e. exact Ee.
    + intros _. exists e. reflexivity.
Qed.

Lemma run_raises_iff_witness :
  let settings := {| cpu_percentile := 99; memory_buffer_percentage := 5 |} in
  let history_data :=
    [(CPU, [("app"%string, [(0, 1)]%float)]);
     (Memory, [("app"%string, [(0, 1)]%float); ("sidecar"%string, [])])] in
  raises (run settings history_data tt) <->
  getitem ResourceType_eqb history_data CPU = Raise KeyError \/
  getitem ResourceType_eqb history_data Memory = Raise KeyError \/
  (exists cpu_data,
      getitem ResourceType_eqb history_data CPU = Ok cpu_data /\
      cpu_data <> [] /\ Forall (fun item => snd item = []) cpu_data) \/
  (exists memory_data,
      getitem ResourceType_eqb history_data Memory = Ok memory_data /\
      Exists (fun item => snd item = []) memory_data).
Proof.
  intros settings history_data. apply run_raises_iff. split; reflexivity.
Defined.
